(** * Data-dependence analysis of the Ghidra plugin scripts

    A shallow embedding of [Lab3_Plugin.py] and [Lab4_networkx.py]:
    the reaching-definition store [DDStorage], the def/use classification
    of instructions, the reverse path search over the control-flow graph,
    the per-path dependency computation and the DOT rendering of the
    dependency graph, followed by the properties checked against them.

    Python values are modelled as follows.  Storage locations, addresses
    and dependency sources are Python strings, hence [string]; the literal
    ['START'] is the sentinel.  The dictionary [self.defs] is a
    [gmap string string]; the lists [uses], [defs] and [dependsOn] are
    lists, in append order.  Mutation of [self.defs] is explicit state
    passing. *)

From Stdlib Require Import String Ascii List.
From stdpp Require Import base option list sorting gmap strings pretty.

Local Open Scope string_scope.
Local Open Scope list_scope.
Local Open Scope nat_scope.

(** The sentinel dependency source. *)
Definition START : string := "START".

(** ** [class DDStorage] (identical in both scripts) *)

Module DDStorage.

(** [self.defs = {}] *)
Definition init : gmap string string := ∅.

(** [return register in self.defs] *)
Definition has (self : gmap string string) (register : string) : bool :=
  match self !! register with Some _ => true | None => false end.

(** [return self.defs[register]]; [None] stands for the [KeyError]. *)
Definition getAddress (self : gmap string string) (register : string)
  : option string := self !! register.

(** [self.defs[register] = address] *)
Definition newDefine (self : gmap string string) (register address : string)
  : gmap string string := <[register := address]> self.

(** One iteration of [for i in uses]: the body reads [self] and appends to
    [dependsOn]. *)
Definition resolve_use (self : gmap string string) (dependsOn : list string)
    (i : string) : list string :=
  if has self i then
    match getAddress self i with
    | Some a => dependsOn ++ [a]
    | None => dependsOn          (* not reached: guarded by [has] *)
    end
  else if bool_decide (START ∈ dependsOn) then dependsOn
  else dependsOn ++ [START].

(** [processDataDep(self, uses, defs, addr)]: the first loop builds
    [dependsOn] from the store as it is on entry, the second loop records
    the definitions; the pair is the store after the call and the returned
    list. *)
Definition processDataDep (self : gmap string string)
    (uses defs : list string) (addr : string)
  : gmap string string * list string :=
  let dependsOn := foldl (resolve_use self) [] uses in
  let self' := foldl (fun s i => newDefine s i addr) self defs in
  (self', dependsOn).

End DDStorage.

(** ** Exceptions

    Both scripts run without a handler around the analysis (the one in
    [Lab3_Plugin.main] is commented out, the one in [Lab4_networkx.main]
    re-raises), so an exception ends the run.  Fallible code returns a
    [result]. *)

Inductive exn : Set :=
| TypeError | AttributeError | KeyError | ValueError.

Inductive result (A : Type) : Type :=
| Ok (a : A)
| Raise (e : exn).
Arguments Ok {A} a.
Arguments Raise {A} e.

#[global] Instance result_ret : MRet result := fun A a => Ok a.
#[global] Instance result_bind : MBind result := fun A B f m =>
  match m with Ok a => f a | Raise e => Raise e end.

(** The value of a run that has not raised. *)
Definition option_of_result {A} (r : result A) : option A :=
  match r with Ok a => Some a | Raise _ => None end.

(** [d[k]] on a Python dictionary. *)
Definition subscript {V} (d : gmap string V) (k : string) : result V :=
  match d !! k with Some v => Ok v | None => Raise KeyError end.

(** A loop whose body may raise. *)
Fixpoint for_each {A S} (body : S → A → result S) (s : S) (l : list A)
  : result S :=
  match l with
  | [] => Ok s
  | x :: l' => s' ← body s x; for_each body s' l'
  end.

(** ** Python string and list operations used by the scripts *)

Definition dquote : string := String (ascii_of_nat 34) EmptyString.
Definition newline : string := String (ascii_of_nat 10) EmptyString.

(** [if x not in l: l.append(x)] *)
Definition append_new (x : string) (l : list string) : list string :=
  if bool_decide (x ∈ l) then l else l ++ [x].

(** [s[n:]] *)
Fixpoint slice_from (n : nat) (s : string) : string :=
  match n, s with
  | S n', String _ s' => slice_from n' s'
  | _, _ => s
  end.

(** [s.lstrip('0')] *)
Fixpoint lstrip0 (s : string) : string :=
  match s with
  | String c s' => if Ascii.eqb c "0"%char then lstrip0 s' else s
  | EmptyString => s
  end.

Definition code (c : ascii) : N := N_of_ascii c.
Definition between (lo hi : N) (c : ascii) : bool :=
  ((lo <=? code c) && (code c <=? hi))%N.
Definition is_digit (c : ascii) : bool := between 48 57 c.
Definition is_alpha (c : ascii) : bool := between 65 90 c || between 97 122 c.
(** [\w] *)
Definition is_word (c : ascii) : bool :=
  is_digit c || is_alpha c || Ascii.eqb c "_"%char.
(** [[0-9a-fx]] under [re.IGNORECASE] *)
Definition is_hexx (c : ascii) : bool :=
  is_digit c || between 65 70 c || between 97 102 c
  || Ascii.eqb c "x"%char || Ascii.eqb c "X"%char.

Definition hex_digit (c : ascii) : option N :=
  if is_digit c then Some (code c - 48)%N
  else if between 97 102 c then Some (code c - 87)%N
  else if between 65 70 c then Some (code c - 55)%N
  else None.

Fixpoint int16_digits (acc : N) (s : string) : option N :=
  match s with
  | EmptyString => Some acc
  | String c s' =>
      match hex_digit c with
      | Some d => int16_digits (16 * acc + d)%N s'
      | None => None
      end
  end.

(** The number a non-empty run of hexadecimal digits spells. *)
Definition hex_value (x : string) : option N :=
  match x with
  | EmptyString => None
  | _ => int16_digits 0 x
  end.

(** [int(x, 16)].  On a non-empty run of hexadecimal digits, which is what
    the address texts of Ghidra are, the value is the number the digits
    spell.  Python reads other texts as well: blanks around the digits, a
    sign, a [0x] prefix, and Python 3 single underscores between digits;
    on the rest it raises [ValueError].  Which texts are read depends on
    the interpreter (the paths in [Lab4_networkx.py] name Python 2.7), so
    what [int] does off the digit runs is a parameter of the model: the
    number it returns, or [None] where it raises [ValueError]. *)
Class IntReader := {
  int_other : string → option Z
}.

Definition int16 `{IntReader} (x : string) : result Z :=
  match hex_value x with
  | Some n => Ok (Z.of_N n)
  | None =>
      match int_other x with
      | Some n => Ok n
      | None => Raise ValueError
      end
  end.

(** One reader: the texts every Python reads, which are blanks around the
    digits, a sign and a [0x] prefix. *)
Definition is_blank (c : ascii) : bool := between 9 13 c || (code c =? 32)%N.

Fixpoint lstrip_blank (s : string) : string :=
  match s with
  | String c s' => if is_blank c then lstrip_blank s' else s
  | EmptyString => s
  end.

Fixpoint rstrip_blank (s : string) : string :=
  match s with
  | EmptyString => EmptyString
  | String c s' =>
      match rstrip_blank s' with
      | EmptyString => if is_blank c then EmptyString else String c EmptyString
      | rest => String c rest
      end
  end.

Definition drop_0x (s : string) : string :=
  match s with
  | String c (String d s') =>
      if Ascii.eqb c "0"%char && (Ascii.eqb d "x"%char || Ascii.eqb d "X"%char)
      then s' else s
  | _ => s
  end.

Definition read_signed (x : string) : option Z :=
  let text := rstrip_blank (lstrip_blank x) in
  let '(negative, digits) :=
    match text with
    | String c rest =>
        if Ascii.eqb c "-"%char then (true, rest)
        else if Ascii.eqb c "+"%char then (false, rest)
        else (false, text)
    | EmptyString => (false, text)
    end in
  (fun n => if negative then (- Z.of_N n)%Z else Z.of_N n)
    <$> hex_value (drop_0x digits).

Definition common_reader : IntReader := {| int_other := read_signed |}.

(** Stable insertion sort, for [sorted] and [list.sort]. *)
Section Sort.
Context {A : Type} (le : A → A → bool).

Fixpoint insert_sorted (x : A) (l : list A) : list A :=
  match l with
  | [] => [x]
  | y :: l' => if le y x then y :: insert_sorted x l' else x :: l
  end.

Definition stable_sort (l : list A) : list A :=
  foldl (fun acc x => insert_sorted x acc) [] l.
End Sort.

(** [sorted(l)] on a list of strings: code point order. *)
Definition sorted (l : list string) : list string := stable_sort String.leb l.

(** [", ".join(l)] *)
Definition join (l : list string) : string := String.concat ", " l.

(** Leftmost match of [\[([0-9a-fx]+)\]] (ignoring case): the text of
    group 1.  The class excludes the closing bracket, so an opening bracket
    matches exactly when its longest run of class characters is non-empty
    and is followed by the closing bracket. *)
Fixpoint hex_run (s : string) : string * string :=
  match s with
  | String c s' =>
      if is_hexx c then let '(run, rest) := hex_run s' in (String c run, rest)
      else (EmptyString, s)
  | EmptyString => (EmptyString, EmptyString)
  end.

Fixpoint search_bracketed_hex (s : string) : option string :=
  match s with
  | EmptyString => None
  | String c s' =>
      if Ascii.eqb c "["%char then
        match hex_run s' with
        | (String d run, String e _) =>
            if Ascii.eqb e "]"%char then Some (String d run)
            else search_bracketed_hex s'
        | _ => search_bracketed_hex s'
        end
      else search_bracketed_hex s'
  end.

(** Leftmost match of [\[(.*?)\]]: the text of group 1, which runs from an
    opening bracket to the first closing bracket after it; the dot does not
    match a line break. *)
Fixpoint until_close (s : string) : option string :=
  match s with
  | EmptyString => None
  | String c s' =>
      if Ascii.eqb c "]"%char then Some EmptyString
      else if Ascii.eqb c (ascii_of_nat 10) then None
      else String c <$> until_close s'
  end.

Fixpoint search_bracketed (s : string) : option string :=
  match s with
  | EmptyString => None
  | String c s' =>
      if Ascii.eqb c "["%char then
        match until_close s' with
        | Some inner => Some inner
        | None => search_bracketed s'
        end
      else search_bracketed s'
  end.

(** [re.findall(r'\b([a-zA-Z]+)\b', s)]: the maximal runs of word characters
    that consist of letters only, from left to right.  [cur] is the run
    being read. *)
Definition close_run (cur : string) : list string :=
  match cur with EmptyString => [] | _ => [cur] end.

Fixpoint word_runs (cur : string) (s : string) : list string :=
  match s with
  | EmptyString => close_run cur
  | String c s' =>
      if is_word c then word_runs (cur +:+ String c EmptyString) s'
      else close_run cur ++ word_runs EmptyString s'
  end.

Fixpoint all_alpha (s : string) : bool :=
  match s with
  | EmptyString => true
  | String c s' => is_alpha c && all_alpha s'
  end.

Definition findall_alpha_words (s : string) : list string :=
  filter (fun w => all_alpha w = true) (word_runs EmptyString s).

(** The order in which Python iterates over [set(l)].  The language leaves
    it open; all that is known is that every member comes up once. *)
Class SetOrder := {
  set_to_list : list string → list string;
  set_to_list_perm l : set_to_list l ≡ₚ remove_dups l
}.

(** One such order: first occurrence. *)
Definition first_occurrence_order : SetOrder :=
  {| set_to_list := remove_dups; set_to_list_perm l := reflexivity _ |}.

(** ** The program model supplied by Ghidra

    The scripts see the disassembly through Ghidra's API only.  Each object
    is a record of the answers the scripts ask of it. *)

(** [instruction.getOperandRefType(i)] *)
Record RefType := {
  isRead : bool;
  isWrite : bool;
  isConditional : bool;
  isFlow : bool
}.

(** The objects in [getDefaultOperandRepresentationList(i)]: registers,
    pieces of text (strings and characters), and anything else (scalars,
    addresses).  [str] is Python's [str(element)]. *)
Inductive RepObject : Set :=
| RegisterObj (name : string)
| TextObj (text : string)
| OtherObj (text : string).

Definition str (element : RepObject) : string :=
  match element with
  | RegisterObj s | TextObj s | OtherObj s => s
  end.

(** [element == s] for a string literal [s] *)
Definition equals_text (element : RepObject) (s : string) : bool :=
  match element with
  | TextObj t => bool_decide (t = s)
  | _ => false
  end.

(** [isinstance(element, Register)] *)
Definition is_Register (element : RepObject) : bool :=
  match element with RegisterObj _ => true | _ => false end.

(** An instruction.  [getAddress] is [addr.toString()]; [getRegister i] is
    the text of the register object, [None] for Python's [None]. *)
Record Instruction := {
  getAddress : string;
  getMnemonicString : string;
  getNumOperands : nat;
  getRegister : nat → option string;
  getOperandRefType : nat → RefType;
  getDefaultOperandRepresentationList : nat → list RepObject;
  getDefaultOperandRepresentation : nat → string;
  flowType_isJump : bool;
  flowType_isConditional : bool;
  getFlows : list string
}.

(** A function of the program with its basic blocks.  A block is named by
    the text of its first address.  [body_blocks] is the iteration of
    [getCodeBlocksContaining(func.getBody())]; [block_instructions] lists
    the instructions between a block's least and greatest address;
    [getSources] and [getDestinations] are the blocks at the other end of
    the incoming and outgoing references, in iteration order. *)
Record Func := {
  getName : string;
  getEntryPoint : string;
  entry_block : string;
  body_blocks : list string;
  block_instructions : string → list Instruction;
  getSources : string → list string;
  getDestinations : string → list string
}.

(** The pair stored per instruction in the global [instruction_def_use]:
    [{"def": defs, "use": uses}]. *)
Record DefUse := { def : list string; use : list string }.

(** ** Code that is the same in both scripts *)

(** State of the loop over one memory operand in [operandRegisterHelper]. *)
Record OperandScan := {
  thisDynamic : string;
  isPart : bool;
  isInstance : bool;
  scan_isRead : bool;
  scan_isWrite : bool;
  eor : bool;
  scan_defs : list string;
  scan_uses : list string
}.

Definition scan_init (defs uses : list string) : OperandScan :=
  {| thisDynamic := EmptyString; isPart := false; isInstance := false;
     scan_isRead := false; scan_isWrite := false; eor := false;
     scan_defs := defs; scan_uses := uses |}.

(** The statements of the loop body that precede the register test: extend
    the text while inside the brackets, open on ['['], close on [']']. *)
Definition scan_brackets (st : OperandScan) (element : RepObject) : OperandScan :=
  let text1 := if isPart st then thisDynamic st +:+ str element
               else thisDynamic st in
  let opened := equals_text element "[" in
  let text2 := if opened then text1 +:+ str element else text1 in
  let part2 := if opened then true else isPart st in
  let closed := equals_text element "]" in
  {| thisDynamic := text2;
     isPart := if closed then false else part2;
     isInstance := isInstance st;
     scan_isRead := scan_isRead st; scan_isWrite := scan_isWrite st;
     eor := if closed then true else eor st;
     scan_defs := scan_defs st; scan_uses := scan_uses st |}.

(** The last statement of the loop body: once a register and the closing
    bracket have been seen, record the bracketed text. *)
Definition scan_record (st : OperandScan) : OperandScan :=
  if isInstance st && eor st then
    let uses1 :=
      if negb (bool_decide (thisDynamic st ∈ scan_uses st)) && scan_isRead st
      then scan_uses st ++ [thisDynamic st] else scan_uses st in
    let defs1 :=
      if negb (bool_decide (thisDynamic st ∈ scan_defs st)) && scan_isWrite st
      then scan_defs st ++ [thisDynamic st] else scan_defs st in
    {| thisDynamic := thisDynamic st; isPart := isPart st;
       isInstance := isInstance st;
       scan_isRead := scan_isRead st; scan_isWrite := scan_isWrite st;
       eor := eor st; scan_defs := defs1; scan_uses := uses1 |}
  else st.

(** The branch of [operandRegisterHelper] for a register operand. *)
Definition register_operand (opType : RefType) (operand : string)
    (defs uses : list string) : list string * list string :=
  let uses1 := if isConditional opType && isFlow opType
               then append_new "eflags" uses else uses in
  let uses2 := if isRead opType then append_new operand uses1 else uses1 in
  let defs1 := if isWrite opType then append_new operand defs else defs in
  (defs1, uses2).

(** [is_in_eflags] *)
Definition is_in_eflags (register : string) : bool :=
  bool_decide (register ∈ ["CF"; "PF"; "AF"; "ZF"; "SF"; "OF"; "DF"; "TF"; "IF";
                           "IOPL"; "NT"; "RF"; "VM"; "AC"; "VIF"; "VIP"; "ID"]).

(** [mnemonic in [...]] and chains of [mnemonic == ... or mnemonic == ...] *)
Definition one_of (mnemonic : string) (l : list string) : bool :=
  bool_decide (mnemonic ∈ l).

(** The mnemonics [analyze_instruction] has a branch for. *)
Definition recognized : list string :=
  ["CALL"; "ADD"; "SUB"; "AND"; "OR"; "XOR"; "CMP"; "IMUL"; "MUL"; "INC"; "DEC";
   "JA"; "JZ"; "JBE"; "JC"; "JG"; "JL"; "JLE"; "JNC"; "JNZ"; "JMP"; "LEA";
   "LEAVE"; "MOV"; "MOVSX"; "MOVZX"; "POP"; "PUSH"; "RET"; "SAR"; "SAL";
   "SETNZ"; "SHR"; "SHL"; "STOSD.REP"; "TEST"].

(** The [CALL] branch: the target text, reduced to its bracketed hexadecimal
    part when it has one. *)
Definition call_target (instruction : Instruction) : string :=
  let callTargetRepresentation := getDefaultOperandRepresentation instruction 0 in
  match search_bracketed_hex callTargetRepresentation with
  | Some group1 => "[" +:+ group1 +:+ "]"
  | None => callTargetRepresentation
  end.

(** The [LEA] branch.  [memoryRefMatch.group(1)] raises when the source
    operand has no bracketed part. *)
Definition lea_rule `{SetOrder} (instruction : Instruction)
    (defs uses : list string) : result (list string * list string) :=
  let defs1 := match getRegister instruction 0 with
               | Some destReg => append_new destReg defs
               | None => defs
               end in
  let sourceOperand := getDefaultOperandRepresentation instruction 1 in
  match search_bracketed sourceOperand with
  | None => Raise AttributeError
  | Some group1 =>
      let foundRegisters := set_to_list (findall_alpha_words group1) in
      Ok (defs1, foldl (fun uses reg => append_new reg uses) uses foundRegisters)
  end.

(** [def_use_label] *)
Definition def_use_label (defs uses : list string) : string :=
  "D: " +:+ join (sorted defs) +:+ " U: " +:+ join (sorted uses).

(** The chain of tests on the mnemonic in [analyze_instruction], applied to
    the lists [operandRegisterHelper] has filled.  [None] is the bare
    [return] of the final [else].  The two scripts differ in the [RET]
    branch only, which is the argument [ret_rule]. *)
Definition mnemonic_rule `{SetOrder}
    (ret_rule : list string → list string → list string * list string)
    (instruction : Instruction) (mnemonic : string) (defs uses : list string)
  : result (option (list string * list string)) :=
  if one_of mnemonic ["CALL"] then
    Ok (Some (defs, uses ++ [call_target instruction]))
  else if one_of mnemonic ["ADD"; "SUB"] then
    Ok (Some (append_new "eflags" defs, uses))
  else if one_of mnemonic ["AND"; "OR"; "XOR"] then
    Ok (Some (append_new "eflags" defs, uses))
  else if one_of mnemonic ["CMP"] then
    Ok (Some (append_new "eflags" defs, uses))
  else if one_of mnemonic ["IMUL"; "MUL"] then
    Ok (Some (append_new "eflags" defs, uses))
  else if one_of mnemonic ["INC"; "DEC"] then
    Ok (Some (append_new "eflags" defs, uses))
  else if one_of mnemonic ["JA"; "JZ"; "JBE"; "JC"; "JG"; "JL"; "JLE"; "JNC"; "JNZ"] then
    Ok (Some (defs, append_new "eflags" uses))
  else if one_of mnemonic ["JMP"] then
    Ok (Some (defs, uses))
  else if one_of mnemonic ["LEA"] then
    r ← lea_rule instruction defs uses; Ok (Some r)
  else if one_of mnemonic ["LEAVE"] then
    Ok (Some (defs ++ ["EBP"] ++ ["ESP"], uses ++ ["EBP"] ++ ["[EBP]"]))
  else if one_of mnemonic ["MOV"] then
    Ok (Some (defs, uses))
  else if one_of mnemonic ["MOVSX"] then
    Ok (Some (defs, uses))
  else if one_of mnemonic ["MOVZX"] then
    Ok (Some (defs, uses))
  else if one_of mnemonic ["POP"] then
    Ok (Some (append_new "ESP" defs,
              append_new "ESP" (append_new "[ESP]" uses)))
  else if one_of mnemonic ["PUSH"] then
    Ok (Some (append_new "[ESP]" (append_new "ESP" defs),
              append_new "ESP" uses))
  else if one_of mnemonic ["RET"] then
    Ok (Some (ret_rule defs uses))
  else if one_of mnemonic ["SAR"; "SAL"] then
    Ok (Some (append_new "eflags" defs, uses))
  else if one_of mnemonic ["SETNZ"] then
    Ok (Some (defs, append_new "eflags" uses))
  else if one_of mnemonic ["SHR"; "SHL"] then
    Ok (Some (append_new "eflags" defs, uses))
  else if one_of mnemonic ["STOSD.REP"] then
    Ok (Some (["[EDI]"; "EDI"], uses ++ ["EAX"] ++ ["EDI"] ++ ["eflags"]))
  else if one_of mnemonic ["TEST"] then
    Ok (Some (append_new "eflags" defs, uses))
  else
    Ok None.

(** [find_ret_blocks]: the blocks of the body that hold a [RET], as
    [list(ret_blocks)] of the set built in iteration order. *)
Definition has_ret (f : Func) (block : string) : bool :=
  existsb (fun i => bool_decide (getMnemonicString i = "RET"))
          (block_instructions f block).

Definition find_ret_blocks `{SetOrder} (f : Func) : list string :=
  set_to_list (filter (fun b => has_ret f b = true) (body_blocks f)).

(** [path_to_instructions] *)
Definition path_to_instructions (f : Func) (path : list string)
  : list Instruction :=
  concat (map (block_instructions f) path).

(** Result of [collect_instructions] before it is handed to the graph
    writers. *)
Record Collected := {
  instruction_list : list string;
  jumps : gmap string string;
  conditional_jumps : gset string;
  ret_instructions : gset string
}.

(** [instruction_list.sort(key=lambda x: int(x, 16))]: the keys are computed
    first, and any of them may raise. *)
Definition sort_by_address `{IntReader} (l : list string) : result (list string) :=
  keyed ← for_each (fun acc x => k ← int16 x; Ok (acc ++ [(k, x)])) [] l;
  Ok (map snd (stable_sort (fun a b => (fst a <=? fst b)%Z) keyed)).

(** The part of the loop body of [collect_instructions] that records
    returns and jumps. *)
Definition record_flow (instruction : Instruction) (addr_str : string)
    (c : Collected) : Collected :=
  let rets := if bool_decide (getMnemonicString instruction = "RET")
              then {[addr_str]} ∪ ret_instructions c else ret_instructions c in
  match flowType_isJump instruction, getFlows instruction with
  | true, flow0 :: _ =>
      let dst_addr := slice_from 2 flow0 in
      {| instruction_list := instruction_list c;
         jumps := <[addr_str := dst_addr]> (jumps c);
         conditional_jumps :=
           if flowType_isConditional instruction
           then {[addr_str]} ∪ conditional_jumps c else conditional_jumps c;
         ret_instructions := rets |}
  | _, _ =>
      {| instruction_list := instruction_list c; jumps := jumps c;
         conditional_jumps := conditional_jumps c; ret_instructions := rets |}
  end.

(** The instructions [collect_instructions] meets: block after block, each
    in address order. *)
Definition body_instructions (f : Func) : list Instruction :=
  concat (map (block_instructions f) (body_blocks f)).

(** *** [create_dot_graph], the def/use control-flow graph

    The dictionary [address_to_node] holds the number [K] of the node name
    ['nK']. *)

Definition node_name (k : nat) : string := "n" +:+ pretty k.

(** ['    {} [label = "{}"];\n'] *)
Definition node_line (name label : string) : string :=
  "    " +:+ name +:+ " [label = " +:+ dquote +:+ label +:+ dquote +:+ "];"
  +:+ newline.

(** ['    {} -> {};\n'] *)
Definition edge_line (src dst : string) : string :=
  "    " +:+ src +:+ " -> " +:+ dst +:+ ";" +:+ newline.

(** ['digraph "{}" {{\n'] with the entry point as ["0x{}"] of the address
    text stripped of its leading zeros. *)
Definition graph_header (f : Func) : string :=
  "digraph " +:+ dquote +:+ "0x" +:+ lstrip0 (getEntryPoint f) +:+ dquote
  +:+ " {" +:+ newline.

(** ["{}".format(v)] of a label that may be [None]. *)
Definition format_label (v : option string) : string :=
  match v with Some label => label | None => "None" end.

(** State of the first loop: the text so far, [node_counter] and
    [address_to_node]. *)
Record NodeLoop := {
  dot_graph : string;
  node_counter : nat;
  address_to_node : gmap string nat
}.

Definition def_use_node (def_use_info : gmap string (option string))
    (st : NodeLoop) (addr : string) : NodeLoop :=
  let addr_label := "0x" +:+ addr in
  let label := match def_use_info !! addr with
               | Some v => addr_label +:+ "; " +:+ format_label v
               | None => addr_label +:+ ";"
               end in
  {| dot_graph := dot_graph st +:+ node_line (node_name (node_counter st)) label;
     node_counter := node_counter st + 1;
     address_to_node := <[addr := node_counter st]> (address_to_node st) |}.

(** Body of the second loop, for the instruction at index [i]. *)
Definition def_use_edges (c : Collected) (nodes : gmap string nat)
    (text : string) (entry : nat * string) : result string :=
  let '(i, addr) := entry in
  if bool_decide (addr ∈ ret_instructions c) then Ok text
  else
    match instruction_list c !! (i + 1) with
    | None => Ok text
    | Some next_addr =>
        current_node ← subscript nodes addr;
        next_node ← subscript nodes next_addr;
        match jumps c !! addr with
        | Some target =>
            jump_to_node ← subscript nodes target;
            let text1 := text +:+ edge_line (node_name current_node)
                                            (node_name jump_to_node) in
            Ok (if bool_decide (addr ∈ conditional_jumps c)
                then text1 +:+ edge_line (node_name current_node)
                                         (node_name next_node)
                else text1)
        | None =>
            Ok (text +:+ edge_line (node_name current_node)
                                   (node_name next_node))
        end
    end.

Definition create_dot_graph (f : Func) (c : Collected)
    (def_use_info : gmap string (option string)) : result string :=
  let nodes :=
    foldl (def_use_node def_use_info)
          {| dot_graph := graph_header f; node_counter := 1;
             address_to_node := ∅ |}
          (instruction_list c) in
  text ← for_each (def_use_edges c (address_to_node nodes))
                  (dot_graph nodes +:+ newline)
                  (imap pair (instruction_list c));
  Ok (text +:+ "}").

(** ** [Lab3_Plugin.py] *)

Module Lab3.

(** The register test in the loop over a memory operand: a register of an
    operand that is read goes to [uses], of one that is written to
    [defs]. *)
Definition scan_register (opType : RefType) (st : OperandScan)
    (element : RepObject) : OperandScan :=
  if is_Register element then
    {| thisDynamic := thisDynamic st; isPart := isPart st;
       isInstance := true;
       scan_isRead := if isRead opType then true else scan_isRead st;
       scan_isWrite := if isWrite opType then true else scan_isWrite st;
       eor := eor st;
       scan_defs := if isWrite opType
                    then append_new (str element) (scan_defs st)
                    else scan_defs st;
       scan_uses := if isRead opType
                    then append_new (str element) (scan_uses st)
                    else scan_uses st |}
  else st.

Definition scan_element (opType : RefType) (st : OperandScan)
    (element : RepObject) : OperandScan :=
  scan_record (scan_register opType (scan_brackets st element) element).

(** The [else] branch of [operandRegisterHelper]: one memory operand. *)
Definition memory_operand (opType : RefType) (refListing : list RepObject)
    (defs uses : list string) : list string * list string :=
  let st := foldl (scan_element opType) (scan_init defs uses) refListing in
  (scan_defs st, scan_uses st).

(** [operandRegisterHelper(instruction, defs, uses, addr_str)]; the lists
    it appends to are returned. *)
Definition operandRegisterHelper (instruction : Instruction)
    (defs uses : list string) : list string * list string :=
  foldl (fun '(defs, uses) i =>
           let opType := getOperandRefType instruction i in
           match getRegister instruction i with
           | Some operand => register_operand opType operand defs uses
           | None =>
               memory_operand opType
                 (getDefaultOperandRepresentationList instruction i) defs uses
           end)
        (defs, uses) (seq 0 (getNumOperands instruction)).

(** The [RET] branch: [ESP] and [[ESP]] are used, [ESP] is defined. *)
Definition ret_rule (defs uses : list string) : list string * list string :=
  (append_new "ESP" defs, append_new "[ESP]" (append_new "ESP" uses)).

(** [analyze_instruction(instruction, addr_str)].  The global
    [instruction_def_use] is threaded through; the value is [None] for
    the bare [return], else [(def_use_label, defs, uses)]. *)
Definition analyze_instruction `{SetOrder}
    (instruction_def_use : gmap string DefUse)
    (instruction : Instruction) (addr_str : string)
  : result (gmap string DefUse * option (string * list string * list string)) :=
  let mnemonic := getMnemonicString instruction in
  let '(defs, uses) := operandRegisterHelper instruction [] [] in
  r ← mnemonic_rule ret_rule instruction mnemonic defs uses;
  match r with
  | None => Ok (instruction_def_use, None)
  | Some (defs, uses) =>
      Ok (<[addr_str := {| def := defs; use := uses |}]> instruction_def_use,
          Some (def_use_label defs uses, defs, uses))
  end.

(** State of the loop of [collect_instructions]. *)
Record Collecting := {
  collected : Collected;
  def_use_info : gmap string (option string);
  storage : gmap string string;
  dependsOn : gmap string (list string);
  instruction_def_use : gmap string DefUse
}.

(** Body of the loop, for one instruction.  Unpacking the value of
    [analyze_instruction] into three names raises [TypeError] when the
    value is [None]. *)
Definition collect_instruction `{SetOrder} (st : Collecting)
    (instruction : Instruction) : result Collecting :=
  let addr_str := slice_from 2 (getAddress instruction) in
  let c := collected st in
  let c1 := {| instruction_list := instruction_list c ++ [addr_str];
               jumps := jumps c;
               conditional_jumps := conditional_jumps c;
               ret_instructions := ret_instructions c |} in
  '(globals, value) ←
    analyze_instruction (instruction_def_use st) instruction addr_str;
  match value with
  | None => Raise TypeError
  | Some (label, defs, uses) =>
      let '(storage1, depend) :=
        DDStorage.processDataDep (storage st) uses defs addr_str in
      Ok {| collected := record_flow instruction addr_str c1;
            def_use_info := <[addr_str := Some label]> (def_use_info st);
            storage := storage1;
            dependsOn := <[addr_str := depend]> (dependsOn st);
            instruction_def_use := globals |}
  end.

(** [collect_instructions(func)], from the global [instruction_def_use] as
    it stands. *)
Definition collect_instructions `{SetOrder} `{IntReader}
    (globals : gmap string DefUse) (f : Func) : result Collecting :=
  st ← for_each collect_instruction
        {| collected := {| instruction_list := []; jumps := ∅;
                           conditional_jumps := ∅; ret_instructions := ∅ |};
           def_use_info := ∅; storage := DDStorage.init; dependsOn := ∅;
           instruction_def_use := globals |}
        (body_instructions f);
  sorted_list ← sort_by_address (instruction_list (collected st));
  Ok {| collected := {| instruction_list := sorted_list;
                        jumps := jumps (collected st);
                        conditional_jumps := conditional_jumps (collected st);
                        ret_instructions := ret_instructions (collected st) |};
        def_use_info := def_use_info st; storage := storage st;
        dependsOn := dependsOn st;
        instruction_def_use := instruction_def_use st |}.

(** *** [create_dot_graph_DD] *)

(** [lambda x: '0x' + x if x != "START" else x] *)
Definition render_source (x : string) : string :=
  if bool_decide (x ≠ START) then "0x" +:+ x else x.

(** The label of the node of [addr]. *)
Definition dd_label (dependsOn : gmap string (list string)) (addr : string)
  : string :=
  let addr_label := "0x" +:+ addr in
  match dependsOn !! addr with
  | Some sources => addr_label +:+ "; DD: " +:+ join (map render_source sources)
  | None => addr_label +:+ ";"
  end.

(** Body of the loop over [instruction_list]: the first round inserts the
    node [n0] of [START]. *)
Definition dd_node (dependsOn : gmap string (list string)) (st : NodeLoop)
    (addr : string) : NodeLoop :=
  let st0 :=
    if bool_decide (size (address_to_node st) = 0) then
      {| dot_graph := dot_graph st +:+ node_line "n0" START;
         node_counter := node_counter st;
         address_to_node := <[START := 0]> (address_to_node st) |}
    else st in
  {| dot_graph := dot_graph st0
                  +:+ node_line (node_name (node_counter st0))
                                (dd_label dependsOn addr);
     node_counter := node_counter st0 + 1;
     address_to_node := <[addr := node_counter st0]> (address_to_node st0) |}.

(** The edges of one entry of [address_to_node].  An edge is kept with the
    number of its source node, which is what [sort_key] reads off the text
    ['nK -> nJ']. *)
Definition dd_edges (dependsOn : gmap string (list string))
    (nodes : gmap string nat) (allDep : list (nat * string))
    (item : string * nat) : result (list (nat * string)) :=
  let '(addr, node) := item in
  if bool_decide (addr ≠ START) then
    sources ← subscript dependsOn addr;
    for_each (fun allDep thisDependent =>
                if bool_decide (thisDependent = START) then
                  Ok (allDep ++ [(node, node_name node +:+ " -> " +:+ "n0")])
                else
                  target ← subscript nodes thisDependent;
                  Ok (allDep ++ [(node, node_name node +:+ " -> "
                                        +:+ node_name target)]))
             allDep sources
  else Ok allDep.

(** [create_dot_graph_DD].  The entries of [address_to_node] are visited
    in the order of [map_to_list]; the stable sort by source node that
    follows makes the text independent of it. *)
Definition create_dot_graph_DD (f : Func) (instruction_list : list string)
    (dependsOn : gmap string (list string)) : result string :=
  let nodes :=
    foldl (dd_node dependsOn)
          {| dot_graph := graph_header f; node_counter := 1;
             address_to_node := ∅ |}
          instruction_list in
  allDep ← for_each (dd_edges dependsOn (address_to_node nodes)) []
                    (map_to_list (address_to_node nodes));
  let allDep := stable_sort (fun a b => fst a <=? fst b) allDep in
  Ok (foldl (fun text i => text +:+ "    " +:+ snd i +:+ ";" +:+ newline)
            (dot_graph nodes +:+ newline) allDep
      +:+ "}").

(** *** [reverse_traverse_cfg] *)

(** The inner [traverse].  [visited] is the dictionary the caller passes;
    the call updates it in place, so it is returned together with
    [paths].  The recursive calls receive a copy and the default
    [loop_limit] of 1.  [fuel] bounds the depth of the recursion. *)
Fixpoint traverse (f : Func) (fuel : nat) (block : string)
    (visited : gmap string nat) (path : list string)
    (paths : list (list string)) (loop_limit : nat)
  : option (gmap string nat * list (list string)) :=
  match fuel with
  | 0 => None
  | S fuel' =>
      let count := default 0 (visited !! block) in
      if bool_decide (count = loop_limit) then Some (visited, paths)
      else
        let visited1 := <[block := count + 1]> visited in
        let new_path := block :: path in
        if bool_decide (block = entry_block f)
        then Some (visited1, paths ++ [new_path])
        else
          match getSources f block with
          | [] => Some (visited1, paths ++ [new_path])
          | sources =>
              paths1 ←
                foldl (fun acc source_block =>
                         paths0 ← acc;
                         snd <$> traverse f fuel' source_block visited1
                                          new_path paths0 1)
                      (Some paths) sources;
              Some (visited1, paths1)
          end
  end.

(** The block paths [reverse_traverse_cfg] finds: one dictionary of
    visit counts, zero for every block of the body, shared by the
    top-level calls for the return blocks. *)
Definition reverse_paths (f : Func) (fuel : nat) (ret_blocks : list string)
  : option (list (list string)) :=
  let visited : gmap string nat :=
    list_to_map (map (fun block => (block, 0)) (body_blocks f)) in
  snd <$> foldl (fun acc ret_block =>
                   '(visited, paths) ← acc;
                   traverse f fuel ret_block visited [] paths 1)
                (Some (visited, [])) ret_blocks.

(** [reverse_traverse_cfg(func, ret_blocks, ...)] *)
Definition reverse_traverse_cfg (f : Func) (fuel : nat)
    (ret_blocks : list string) : option (list (list Instruction)) :=
  map (path_to_instructions f) <$> reverse_paths f fuel ret_blocks.

End Lab3.

(** ** [Lab4_networkx.py] *)

(** An element of a path: the string ['START'] or an instruction. *)
Inductive PathItem :=
| StartItem
| InstrItem (instr : Instruction).

(** A value of [all_dependencies]: [{'def': ..., 'use': ..., 'DD': ...}]. *)
Record Dependencies := { dep_def : list string; dep_use : list string; DD : list string }.

Module Lab4.

(** The register test in the loop over a memory operand: a register goes
    to [uses] whether the operand is read or written. *)
Definition scan_register (opType : RefType) (st : OperandScan)
    (element : RepObject) : OperandScan :=
  if is_Register element then
    let uses1 := if isRead opType
                 then append_new (str element) (scan_uses st)
                 else scan_uses st in
    {| thisDynamic := thisDynamic st; isPart := isPart st;
       isInstance := true;
       scan_isRead := if isRead opType then true else scan_isRead st;
       scan_isWrite := if isWrite opType then true else scan_isWrite st;
       eor := eor st;
       scan_defs := scan_defs st;
       scan_uses := if isWrite opType
                    then append_new (str element) uses1 else uses1 |}
  else st.

Definition scan_element (opType : RefType) (st : OperandScan)
    (element : RepObject) : OperandScan :=
  scan_record (scan_register opType (scan_brackets st element) element).

Definition memory_operand (opType : RefType) (refListing : list RepObject)
    (defs uses : list string) : list string * list string :=
  let st := foldl (scan_element opType) (scan_init defs uses) refListing in
  (scan_defs st, scan_uses st).

Definition operandRegisterHelper (instruction : Instruction)
    (defs uses : list string) : list string * list string :=
  foldl (fun '(defs, uses) i =>
           let opType := getOperandRefType instruction i in
           match getRegister instruction i with
           | Some operand => register_operand opType operand defs uses
           | None =>
               memory_operand opType
                 (getDefaultOperandRepresentationList instruction i) defs uses
           end)
        (defs, uses) (seq 0 (getNumOperands instruction)).

(** The [RET] branch: [ESP] is used and defined. *)
Definition ret_rule (defs uses : list string) : list string * list string :=
  (append_new "ESP" defs, append_new "ESP" uses).

(** [analyze_instruction(instruction, addr_str)]: the value is the label
    or [None]; the global [instruction_def_use] is keyed by the
    instruction, here by its address. *)
Definition analyze_instruction `{SetOrder}
    (instruction_def_use : gmap string DefUse)
    (instruction : Instruction) (addr_str : string)
  : result (gmap string DefUse * option string) :=
  let mnemonic := getMnemonicString instruction in
  let '(defs, uses) := operandRegisterHelper instruction [] [] in
  r ← mnemonic_rule ret_rule instruction mnemonic defs uses;
  match r with
  | None => Ok (instruction_def_use, None)
  | Some (defs, uses) =>
      Ok (<[getAddress instruction := {| def := defs; use := uses |}]>
            instruction_def_use,
          Some (def_use_label defs uses))
  end.

Record Collecting := {
  collected : Collected;
  def_use_info : gmap string (option string);
  instruction_def_use : gmap string DefUse
}.

Definition collect_instruction `{SetOrder} (st : Collecting)
    (instruction : Instruction) : result Collecting :=
  let addr_str := slice_from 2 (getAddress instruction) in
  let c := collected st in
  let c1 := {| instruction_list := instruction_list c ++ [addr_str];
               jumps := jumps c;
               conditional_jumps := conditional_jumps c;
               ret_instructions := ret_instructions c |} in
  '(globals, label) ←
    analyze_instruction (instruction_def_use st) instruction addr_str;
  Ok {| collected := record_flow instruction addr_str c1;
        def_use_info := <[addr_str := label]> (def_use_info st);
        instruction_def_use := globals |}.

(** [collect_instructions(func)]: the global after the call, the sorted
    [instruction_list] and the def/use graph. *)
Definition collect_instructions `{SetOrder} `{IntReader}
    (globals : gmap string DefUse) (f : Func)
  : result (gmap string DefUse * (list string * string)) :=
  st ← for_each collect_instruction
        {| collected := {| instruction_list := []; jumps := ∅;
                           conditional_jumps := ∅; ret_instructions := ∅ |};
           def_use_info := ∅; instruction_def_use := globals |}
        (body_instructions f);
  sorted_list ← sort_by_address (instruction_list (collected st));
  let c := {| instruction_list := sorted_list;
              jumps := jumps (collected st);
              conditional_jumps := conditional_jumps (collected st);
              ret_instructions := ret_instructions (collected st) |} in
  graph ← create_dot_graph f c (def_use_info st);
  Ok (instruction_def_use st, (sorted_list, graph)).

(** [prepend_START_to_each_path] *)
Definition prepend_START_to_each_path (paths : list (list Instruction))
  : list (list PathItem) :=
  map (fun path => StartItem :: map InstrItem path) paths.

(** [reverse_traverse_cfg(func, ret_blocks)].  The paths come from
    [networkx]: [all_simple_paths nodes edges source target cutoff] stands
    for [nx.all_simple_paths] on the graph with these nodes and edges. *)
Definition reverse_traverse_cfg
    (all_simple_paths : list string → list (string * string) → string →
                        string → option nat → list (list string))
    (f : Func) (ret_blocks : list string) : list (list PathItem) :=
  let nodes := body_blocks f in
  let edges :=
    concat (map (fun current_block =>
                   map (pair current_block) (getDestinations f current_block))
                (body_blocks f)) in
  let all_paths :=
    concat (map (fun ret_block =>
                   if bool_decide (entry_block f = ret_block)
                   then [[entry_block f]]
                   else if bool_decide (getName f = "FUN_00401406")
                   then all_simple_paths nodes edges (entry_block f)
                                         ret_block (Some 46)
                   else all_simple_paths nodes edges (entry_block f)
                                         ret_block None)
                ret_blocks) in
  prepend_START_to_each_path (map (path_to_instructions f) all_paths).

(** Body of the inner loop of [compute_data_dependencies], on the pair of
    the path's [storage] and [all_dependencies]. *)
Definition path_step `{SetOrder} (instruction_def_use : gmap string DefUse)
    (st : gmap string string * gmap string Dependencies) (item : PathItem)
  : gmap string string * gmap string Dependencies :=
  match item with
  | StartItem => st
  | InstrItem instr =>
      let '(storage, all_dependencies) := st in
      let instr_address := getAddress instr in
      let '(defs, uses) :=
        match instruction_def_use !! instr_address with
        | Some du => (def du, use du)
        | None => ([], [])
        end in
      let '(storage1, dependencies) :=
        if bool_decide (getMnemonicString instr = "RET") then (storage, [])
        else DDStorage.processDataDep storage uses defs instr_address in
      let entry :=
        match all_dependencies !! instr_address with
        | Some old =>
            {| dep_def := defs; dep_use := uses;
               DD := set_to_list (DD old ++ dependencies) |}
        | None =>
            {| dep_def := defs; dep_use := uses; DD := dependencies |}
        end in
      (storage1, <[instr_address := entry]> all_dependencies)
  end.

(** [compute_data_dependencies(all_paths, instruction_def_use)]: a fresh
    [DDStorage] for every path. *)
Definition compute_data_dependencies `{SetOrder}
    (all_paths : list (list PathItem))
    (instruction_def_use : gmap string DefUse) : gmap string Dependencies :=
  foldl (fun all_dependencies path =>
           snd (foldl (path_step instruction_def_use)
                      (DDStorage.init, all_dependencies) path))
        ∅ all_paths.

(** *** [generate_DD_dot_graph] *)

(** ['0x{}'.format(addr.lstrip('0')) if addr != 'START' else 'START'] *)
Definition render_source (addr : string) : string :=
  if bool_decide (addr ≠ START) then "0x" +:+ lstrip0 addr else START.

(** ['    {}  [label = "{}"];\n'] *)
Definition node_line (name label : string) : string :=
  "    " +:+ name +:+ "  [label = " +:+ dquote +:+ label +:+ dquote +:+ "];"
  +:+ newline.

(** The label of the node of [instr_address]. *)
Definition dd_label (all_dependencies : gmap string Dependencies)
    (instr_address : string) : string :=
  match all_dependencies !! instr_address with
  | Some deps =>
      "0x" +:+ lstrip0 instr_address +:+ "; DD: "
      +:+ join (map render_source (DD deps))
  | None => "0x" +:+ lstrip0 instr_address +:+ "; DD:"
  end.

Record GraphLoop := {
  graph_text : string;
  graph_counter : nat;
  graph_nodes : gmap string nat;
  graph_edges : list (string * string)
}.

(** Body of the loop over [instruction_list]. *)
Definition dd_node (all_dependencies : gmap string Dependencies)
    (st : GraphLoop) (instr_address : string) : GraphLoop :=
  {| graph_text := graph_text st
                   +:+ node_line (node_name (graph_counter st))
                                 (dd_label all_dependencies instr_address);
     graph_counter := graph_counter st + 1;
     graph_nodes := <[instr_address := graph_counter st]> (graph_nodes st);
     graph_edges :=
       graph_edges st
       ++ match all_dependencies !! instr_address with
          | Some deps => map (fun dep_address => (dep_address, instr_address))
                             (DD deps)
          | None => []
          end |}.

(** [sorted(edges, key=lambda x: int(x[1], 16))] *)
Definition sort_edges `{IntReader} (edges : list (string * string))
  : result (list (string * string)) :=
  keyed ← for_each (fun acc x => k ← int16 (snd x); Ok (acc ++ [(k, x)]))
                   [] edges;
  Ok (map snd (stable_sort (fun a b => (fst a <=? fst b)%Z) keyed)).

(** Body of the loop over the sorted edges. *)
Definition write_edge (address_to_node : gmap string nat) (text : string)
    (edge : string * string) : result string :=
  let '(dep_address, src_address) := edge in
  let dep_node := default 0 (address_to_node !! dep_address) in
  src_node ← subscript address_to_node src_address;
  Ok (text +:+ edge_line (node_name src_node) (node_name dep_node)).

Definition generate_DD_dot_graph `{IntReader} (f : Func)
    (instruction_list : list string)
    (all_dependencies : gmap string Dependencies) : result string :=
  let header := "digraph 0x" +:+ lstrip0 (getEntryPoint f) +:+ " {" +:+ newline in
  let instruction_list := map (fun instr => "00" +:+ instr) instruction_list in
  let st := foldl (dd_node all_dependencies)
                  {| graph_text := header +:+ node_line "n0" START;
                     graph_counter := 1;
                     graph_nodes := {[START := 0]};
                     graph_edges := [] |}
                  instruction_list in
  edges ← sort_edges (graph_edges st);
  text ← for_each (write_edge (graph_nodes st))
                  (graph_text st +:+ newline) edges;
  Ok (text +:+ "}" +:+ newline).

(** One round of the loop of [process_functions]: the def/use graph and
    the dependency graph of a function. *)
Definition process_function `{SetOrder} `{IntReader}
    (all_simple_paths : list string → list (string * string) → string →
                        string → option nat → list (list string))
    (globals : gmap string DefUse) (f : Func)
  : result (gmap string DefUse * (string * string)) :=
  '(globals1, (instruction_list, def_use_graph)) ← collect_instructions globals f;
  let ret_blocks := find_ret_blocks f in
  let all_paths := reverse_traverse_cfg all_simple_paths f ret_blocks in
  let all_dependencies := compute_data_dependencies all_paths globals1 in
  DD_graph ← generate_DD_dot_graph f instruction_list all_dependencies;
  Ok (globals1, (def_use_graph, DD_graph)).

End Lab4.

(** ** Concrete programs

    Instructions and functions written out the way Ghidra presents them, for
    the examples below. *)

Definition READ : RefType :=
  {| isRead := true; isWrite := false; isConditional := false; isFlow := false |}.
Definition WRITE : RefType :=
  {| isRead := false; isWrite := true; isConditional := false; isFlow := false |}.
Definition READ_WRITE : RefType :=
  {| isRead := true; isWrite := true; isConditional := false; isFlow := false |}.
Definition DATA : RefType :=
  {| isRead := false; isWrite := false; isConditional := false; isFlow := false |}.

Record OperandInfo := {
  op_register : option string;
  op_refType : RefType;
  op_objects : list RepObject;
  op_text : string
}.

Definition reg_operand (name : string) (t : RefType) : OperandInfo :=
  {| op_register := Some name; op_refType := t;
     op_objects := [RegisterObj name]; op_text := name |}.

Definition scalar_operand (text : string) : OperandInfo :=
  {| op_register := None; op_refType := DATA;
     op_objects := [OtherObj text]; op_text := text |}.

(** A memory operand [[objects]] *)
Definition mem_operand (inner : list RepObject) (t : RefType) : OperandInfo :=
  let objects := [TextObj "["] ++ inner ++ [TextObj "]"] in
  {| op_register := None; op_refType := t; op_objects := objects;
     op_text := foldl (fun text e => text +:+ str e) EmptyString objects |}.

Definition instruction_of (addr mnemonic : string) (ops : list OperandInfo)
  : Instruction :=
  {| getAddress := addr;
     getMnemonicString := mnemonic;
     getNumOperands := length ops;
     getRegister i := ops !! i ≫= op_register;
     getOperandRefType i := default DATA (op_refType <$> ops !! i);
     getDefaultOperandRepresentationList i := default [] (op_objects <$> ops !! i);
     getDefaultOperandRepresentation i := default EmptyString (op_text <$> ops !! i);
     flowType_isJump := false;
     flowType_isConditional := false;
     getFlows := [] |}.

(** A function given by its blocks [(name, instructions, sources)], the
    first of which is the entry block. *)
Definition lookup_block {A} (blocks : list (string * A)) (b : string) : option A :=
  snd <$> list_find (fun entry => fst entry = b) blocks ≫= fun hit => Some (snd hit).

Definition func_of (name : string)
    (blocks : list (string * (list Instruction * list string))) : Func :=
  let entry := default EmptyString (fst <$> head blocks) in
  {| getName := name;
     getEntryPoint := entry;
     entry_block := entry;
     body_blocks := map fst blocks;
     block_instructions b := default [] (fst <$> lookup_block blocks b);
     getSources b := default [] (snd <$> lookup_block blocks b);
     getDestinations b :=
       map fst (filter (fun entry => b ∈ snd (snd entry)) blocks) |}.

(** [MOV EAX,1; MOV ECX,2; PUSH ECX; PUSH EAX; POP ECX; POP EAX] *)
Definition push_pop_code : list Instruction :=
  [ instruction_of "00401000" "MOV" [reg_operand "EAX" WRITE; scalar_operand "0x1"];
    instruction_of "00401005" "MOV" [reg_operand "ECX" WRITE; scalar_operand "0x2"];
    instruction_of "0040100a" "PUSH" [reg_operand "ECX" READ];
    instruction_of "0040100b" "PUSH" [reg_operand "EAX" READ];
    instruction_of "0040100c" "POP" [reg_operand "ECX" WRITE];
    instruction_of "0040100d" "POP" [reg_operand "EAX" WRITE] ].

Definition push_pop_func : Func :=
  func_of "FUN_00401000" [("00401000", (push_pop_code, []))].

(** [PUSH EAX; POP ECX; RET] *)
Definition push_pop_ret_code : list Instruction :=
  [ instruction_of "00401000" "PUSH" [reg_operand "EAX" READ];
    instruction_of "00401001" "POP" [reg_operand "ECX" WRITE];
    instruction_of "00401002" "RET" [] ].

Definition push_pop_ret_func : Func :=
  func_of "FUN_00401000" [("00401000", (push_pop_ret_code, []))].

(** [MOV EAX,1; NOP; RET]: [NOP] has no branch in [analyze_instruction]. *)
Definition nop_code : list Instruction :=
  [ instruction_of "00401000" "MOV" [reg_operand "EAX" WRITE; scalar_operand "0x1"];
    instruction_of "00401005" "NOP" [];
    instruction_of "00401006" "RET" [] ].

Definition nop_func : Func :=
  func_of "FUN_00401000" [("00401000", (nop_code, []))].

(** A loop: the entry block, a block that jumps back to itself, and the
    block of the return.
<<
    00401000: MOV ECX,3
    00401005: DEC ECX
    00401006: JNZ 00401005
    00401008: RET
>> *)
Definition loop_func : Func :=
  func_of "FUN_00401000"
    [ ("00401000",
       ([instruction_of "00401000" "MOV"
           [reg_operand "ECX" WRITE; scalar_operand "0x3"]], []));
      ("00401005",
       ([instruction_of "00401005" "DEC" [reg_operand "ECX" READ_WRITE];
         instruction_of "00401006" "JNZ" [scalar_operand "0x401005"]],
        ["00401000"; "00401005"]));
      ("00401008",
       ([instruction_of "00401008" "RET" []], ["00401005"])) ].

(** Another iteration order of sets: last member first. *)
Definition reverse_occurrence_order : SetOrder :=
  {| set_to_list l := reverse (remove_dups l);
     set_to_list_perm l := reverse_Permutation (remove_dups l) |}.

(** [LEA EAX,[EBX + ECX*0x4]] *)
Definition lea_instruction : Instruction :=
  instruction_of "00401000" "LEA"
    [ reg_operand "EAX" WRITE;
      mem_operand [RegisterObj "EBX"; TextObj " + "; RegisterObj "ECX";
                   TextObj "*"; OtherObj "0x4"] DATA ].

(** The destination operand of [MOV dword ptr [EAX + 0x4],ECX]. *)
Definition store_operand : list RepObject :=
  [TextObj "dword ptr "; TextObj "["; RegisterObj "EAX"; TextObj " + ";
   OtherObj "0x4"; TextObj "]"].

(** ** The operation [resolve] as the specification words it

    "For every location in uses, if the state holds a definer, append that
    definer's address to the result; otherwise append START (added at most
    once per call)." *)

(** Keep the first [START] of a list and drop the later ones. *)
Fixpoint start_once (seen : bool) (l : list string) : list string :=
  match l with
  | [] => []
  | x :: l' =>
      if bool_decide (x = START)
      then (if seen then start_once true l' else x :: start_once true l')
      else x :: start_once seen l'
  end.

Definition resolve_spec (st : gmap string string) (uses : list string)
  : list string :=
  start_once false (map (fun loc => default START (st !! loc)) uses).

(** The number of occurrences of a source in a dependency list. *)
Definition occurrences (a : string) (l : list string) : nat :=
  length (filter (fun x => x = a) l).

(** ** Notions used to state the properties of the path search *)

(** No block is counted more than once. *)
Definition counts_bounded (visited : gmap string nat) : Prop :=
  ∀ b c, visited !! b = Some c → c ≤ 1.

(** The blocks of the path under construction are the ones counted. *)
Definition path_counted (visited : gmap string nat) (path : list string) : Prop :=
  ∀ b, b ∈ path → visited !! b = Some 1.

(** Blocks that may still be entered. *)
Definition unvisited (visited : gmap string nat) (universe : list string)
  : list string :=
  filter (fun b => default 0 (visited !! b) = 0) universe.

(** ** Runs of the two scripts on a function

    The dependency lists recorded for the addresses [addrs]: by the scan of
    [Lab3_Plugin.collect_instructions], and by
    [Lab4_networkx.compute_data_dependencies] on the given block paths,
    each prefixed with [START], with the def/use table that
    [collect_instructions] has filled. *)

Definition Lab3_sources `{SetOrder} `{IntReader} (f : Func) (addrs : list string)
  : result (list (option (list string))) :=
  st ← Lab3.collect_instructions ∅ f;
  Ok (map (fun addr => Lab3.dependsOn st !! addr) addrs).

Definition Lab4_dependencies `{SetOrder} `{IntReader} (f : Func) (paths : list (list string))
  : result (gmap string Dependencies) :=
  '(globals, _) ← Lab4.collect_instructions ∅ f;
  Ok (Lab4.compute_data_dependencies
        (Lab4.prepend_START_to_each_path (map (path_to_instructions f) paths))
        globals).

Definition Lab4_sources `{SetOrder} `{IntReader} (f : Func) (paths : list (list string))
    (addrs : list string) : result (list (option (list string))) :=
  all_dependencies ← Lab4_dependencies f paths;
  Ok (map (fun addr => DD <$> all_dependencies !! addr) addrs).

(** ** Notions used to state the rendering of the dependency graph *)

(** The order of two address texts by the number they denote. *)
Definition address_le `{IntReader} (a b : string) : Prop :=
  ∃ x y, int16 a = Ok x ∧ int16 b = Ok y ∧ (x ≤ y)%Z.

Definition ascending `{IntReader} (l : list string) : Prop :=
  StronglySorted address_le l.

(** The node lines of the addresses [l], numbered from [k] on; [line] is the
    format of a node line and [label] gives the label of an address. *)
Fixpoint node_lines (line : string → string → string) (label : string → string)
    (k : nat) (l : list string) : string :=
  match l with
  | [] => EmptyString
  | addr :: l' =>
      line (node_name k) (label addr) +:+ node_lines line label (S k) l'
  end.

(** The line of the node [n0], written when there is an instruction. *)
Definition start_line (l : list string) : string :=
  match l with [] => EmptyString | _ => node_line "n0" START end.

(** The lines of edges, one after the other. *)
Definition edge_lines (edges : list string) : string :=
  foldr (fun e text => "    " +:+ e +:+ ";" +:+ newline +:+ text) EmptyString edges.

(** The text of [Lab3_Plugin.create_dot_graph_DD]: the header, the node of
    [START], the nodes of the addresses [l] numbered from 1, an empty line,
    the edges. *)
Definition Lab3_graph_text (f : Func) (l : list string)
    (dependsOn : gmap string (list string)) (edges : list string) : string :=
  graph_header f +:+ start_line l
  +:+ node_lines node_line (Lab3.dd_label dependsOn) 1 l
  +:+ newline +:+ edge_lines edges +:+ "}".

(** The text of [Lab4_networkx.generate_DD_dot_graph], with the lines of the
    edges as a whole. *)
Definition Lab4_graph_text (f : Func) (l : list string)
    (all_dependencies : gmap string Dependencies) (edges : string) : string :=
  ("digraph 0x" +:+ lstrip0 (getEntryPoint f) +:+ " {" +:+ newline)
  +:+ Lab4.node_line "n0" START
  +:+ node_lines Lab4.node_line (Lab4.dd_label all_dependencies) 1
                 (map (fun addr => "00" +:+ addr) l)
  +:+ newline +:+ edges +:+ "}" +:+ newline.

(** A text [int] reads, and a text that is a non-empty run of hexadecimal
    digits. *)
Definition is_address `{IntReader} (addr : string) : Prop :=
  ∃ n, int16 addr = Ok n.

Definition hex_text (addr : string) : Prop := is_Some (hex_value addr).

(** "Every node's dependency-source list is rendered sorted", for the
    records [dependsOn] and the labels of [create_dot_graph_DD]. *)
Definition sources_rendered_sorted (dependsOn : gmap string (list string)) : Prop :=
  ∀ addr sources, dependsOn !! addr = Some sources →
    Lab3.dd_label dependsOn addr
    = "0x" +:+ addr +:+ "; DD: " +:+ join (map Lab3.render_source (sorted sources)).

(** What the loop of [Lab3_Plugin.collect_instructions] keeps true: every
    address met has a dependency record, and the sources of the records and
    the definers in the store are addresses met. *)
Definition collect_inv (st : Lab3.Collecting) : Prop :=
  (∀ addr, addr ∈ instruction_list (Lab3.collected st) →
           is_Some (Lab3.dependsOn st !! addr))
  ∧ (∀ addr sources s, Lab3.dependsOn st !! addr = Some sources → s ∈ sources →
                       s = START ∨ s ∈ instruction_list (Lab3.collected st))
  ∧ (∀ loc a, Lab3.storage st !! loc = Some a →
              a ∈ instruction_list (Lab3.collected st)).

(** ** Notions used to state the handling of memory operands *)

(** An object of the operand text that is neither bracket. *)
Definition not_bracket (element : RepObject) : Prop :=
  equals_text element "[" = false ∧ equals_text element "]" = false.

(** The texts of the objects, one after the other. *)
Definition concat_str (l : list RepObject) : string :=
  foldr (fun element text => str element +:+ text) EmptyString l.

(** The loop over a memory operand for a given register test. *)
Definition scan_with (reg : OperandScan → RepObject → OperandScan)
    (st : OperandScan) (l : list RepObject) : OperandScan :=
  foldl (fun st element => scan_record (reg (scan_brackets st element) element))
        st l.

(** ** The module-level [traverse] of [Lab3_Plugin.py]

    The function of the same name that [reverse_traverse_cfg] shadows with
    its inner one.  It stops at [>= loop_limit], hands [loop_limit] on to
    the recursive calls, and saves a path at the entry block only. *)

Module Lab3_top.

Fixpoint traverse (f : Func) (fuel : nat) (block : string)
    (visited : gmap string nat) (path : list string)
    (paths : list (list string)) (loop_limit : nat)
  : option (gmap string nat * list (list string)) :=
  match fuel with
  | 0 => None
  | S fuel' =>
      let count := default 0 (visited !! block) in
      if bool_decide (loop_limit ≤ count) then Some (visited, paths)
      else
        let visited1 := <[block := count + 1]> visited in
        let new_path := block :: path in
        if bool_decide (block = entry_block f)
        then Some (visited1, paths ++ [new_path])
        else
          paths1 ←
            foldl (fun acc source_block =>
                     paths0 ← acc;
                     snd <$> traverse f fuel' source_block visited1
                                      new_path paths0 loop_limit)
                  (Some paths) (getSources f block);
          Some (visited1, paths1)
  end.

End Lab3_top.

(** ** Notions used to state how calls of [processDataDep] compose *)

(** The store after the calls [(uses, defs, addr)], made one after the other
    on the same [DDStorage], as the loops over a path do. *)
Definition walk_store (calls : list (list string * list string * string))
    (self : gmap string string) : gmap string string :=
  foldl (fun s '(uses, defs, addr) =>
           (DDStorage.processDataDep s uses defs addr).1)
        self calls.

(** The address of the last of the calls that defines [loc]. *)
Fixpoint last_definer (loc : string)
    (calls : list (list string * list string * string)) : option string :=
  match calls with
  | [] => None
  | (uses, defs, addr) :: rest =>
      match last_definer loc rest with
      | Some a => Some a
      | None => if bool_decide (loc ∈ defs) then Some addr else None
      end
  end.

(** ** Notions used to state the properties of paths *)

(** Each block of the path is a predecessor of the next. *)
Fixpoint linked (f : Func) (path : list string) : Prop :=
  match path with
  | a :: (b :: _) as rest => a ∈ getSources f b ∧ linked f rest
  | _ => True
  end.

(** The addresses of the instructions on the paths. *)
Definition item_address (item : PathItem) : option string :=
  match item with
  | StartItem => None
  | InstrItem instr => Some (getAddress instr)
  end.

Definition path_addresses (all_paths : list (list PathItem)) : list string :=
  concat (map (omap item_address) all_paths).

(** Room left under the limit, summed over the blocks of [universe]. *)
Definition room (loop_limit : nat) (visited : gmap string nat)
    (universe : list string) : nat :=
  sum_list (map (fun b => loop_limit - default 0 (visited !! b)) universe).

(** A text without the character [c]. *)
Fixpoint lacks (c : ascii) (s : string) : Prop :=
  match s with
  | EmptyString => True
  | String d s' => d ≠ c ∧ lacks c s'
  end.

(** ** The lists [analyze_instruction] computes for an instruction

    What a call on a single instruction leaves behind: the pair of [defs]
    and [uses] that [Lab3_Plugin.py] returns and that [Lab4_networkx.py]
    stores in [instruction_def_use]; [None] when the call returns [None]. *)

Definition Lab3_def_use `{SetOrder} (instruction : Instruction)
  : result (option (list string * list string)) :=
  '(_, value) ← Lab3.analyze_instruction ∅ instruction
                  (slice_from 2 (getAddress instruction));
  Ok (match value with
      | Some (_, defs, uses) => Some (defs, uses)
      | None => None
      end).

Definition Lab4_def_use `{SetOrder} (instruction : Instruction)
  : result (option (list string * list string)) :=
  '(globals, value) ← Lab4.analyze_instruction ∅ instruction
                        (slice_from 2 (getAddress instruction));
  Ok (match value with
      | Some _ => (fun du => (def du, use du)) <$> globals !! getAddress instruction
      | None => None
      end).

(** The mnemonics whose branch adds [eflags] to [defs], and those whose
    branch adds it to [uses]. *)
Definition flag_setters : list string :=
  ["ADD"; "SUB"; "AND"; "OR"; "XOR"; "CMP"; "IMUL"; "MUL"; "INC"; "DEC";
   "SAR"; "SAL"; "SHR"; "SHL"; "TEST"].

Definition flag_readers : list string :=
  ["JA"; "JZ"; "JBE"; "JC"; "JG"; "JL"; "JLE"; "JNC"; "JNZ"; "SETNZ"].

(** [XOR EAX,EAX] *)
Definition xor_instruction : Instruction :=
  instruction_of "00401000" "XOR"
    [reg_operand "EAX" READ_WRITE; reg_operand "EAX" READ].

(** [JNZ 0x00401000] *)
Definition jnz_instruction : Instruction :=
  instruction_of "00401010" "JNZ" [scalar_operand "0x00401000"].

(** [LEA EAX,0x10]: a source operand without brackets *)
Definition lea_scalar_instruction : Instruction :=
  instruction_of "00401000" "LEA" [reg_operand "EAX" WRITE; scalar_operand "0x10"].

(** The label [analyze_instruction] returns for an instruction. *)
Definition Lab3_label `{SetOrder} (instruction : Instruction)
  : result (option string) :=
  '(_, value) ← Lab3.analyze_instruction ∅ instruction
                  (slice_from 2 (getAddress instruction));
  Ok (match value with
      | Some (label, _, _) => Some label
      | None => None
      end).

Definition Lab4_label `{SetOrder} (instruction : Instruction)
  : result (option string) :=
  '(_, value) ← Lab4.analyze_instruction ∅ instruction
                  (slice_from 2 (getAddress instruction));
  Ok value.

(** The label of the lists the chain of tests gives. *)
Definition label_of (r : result (option (list string * list string)))
  : result (option string) :=
  match r with
  | Ok (Some (defs, uses)) => Ok (Some (def_use_label defs uses))
  | Ok None => Ok None
  | Raise e => Raise e
  end.

(** Two runs of the chain of tests agree up to the order of the uses. *)
Definition same_up_to_order
    (r1 r2 : result (option (list string * list string))) : Prop :=
  match r1, r2 with
  | Ok (Some (defs1, uses1)), Ok (Some (defs2, uses2)) =>
      defs1 = defs2 ∧ uses1 ≡ₚ uses2
  | Ok None, Ok None => True
  | Raise e1, Raise e2 => e1 = e2
  | _, _ => False
  end.

(** ** The def/use graph

    The label of a node of [create_dot_graph]. *)
Definition def_use_line_label (def_use_info : gmap string (option string))
    (addr : string) : string :=
  match def_use_info !! addr with
  | Some v => "0x" +:+ addr +:+ "; " +:+ format_label v
  | None => "0x" +:+ addr +:+ ";"
  end.

(** A jump out of the list: the instruction at index [i] is not a [RET] and
    not the last of the list, and its recorded target [target] is no
    address of the list. *)
Definition jump_outside (c : Collected) (i : nat) (addr target : string) : Prop :=
  instruction_list c !! i = Some addr
  ∧ (addr ∉ ret_instructions c)
  ∧ is_Some (instruction_list c !! (i + 1))
  ∧ jumps c !! addr = Some target
  ∧ (target ∉ instruction_list c).

(** [c] without the jump recorded for [addr]. *)
Definition without_jump (c : Collected) (addr : string) : Collected :=
  {| instruction_list := instruction_list c;
     jumps := delete addr (jumps c);
     conditional_jumps := conditional_jumps c ∖ {[addr]};
     ret_instructions := ret_instructions c |}.

(** [MOV EAX,1; JMP 0x00500000]; [MOV EAX,1; JMP 0x00500000; RET] with the
    jump in the middle, as [collect_instructions] records them. *)
Definition tail_jump : Collected :=
  {| instruction_list := ["401000"; "401005"];
     jumps := {[ "401005" := "500000" ]};
     conditional_jumps := ∅;
     ret_instructions := ∅ |}.

Definition jump_away : Collected :=
  {| instruction_list := ["401000"; "401005"; "40100a"];
     jumps := {[ "401005" := "500000" ]};
     conditional_jumps := ∅;
     ret_instructions := {[ "40100a" ]} |}.

(** A path of blocks that leads backwards from a return block: each block
    is a predecessor of the next, the last one is a return block, and the
    first one is the entry block or a block without predecessors. *)
Definition backward_walk (f : Func) (ret_blocks : list string)
    (p : list string) : Prop :=
  linked f p
  ∧ (∃ b, last p = Some b ∧ b ∈ ret_blocks)
  ∧ (∃ a, head p = Some a ∧ (a = entry_block f ∨ getSources f a = [])).

(** The predecessors of the blocks of [universe] are blocks of [universe]. *)
Definition closed_under_sources (f : Func) (universe : list string) : Prop :=
  ∀ b, b ∈ universe → ∀ s, s ∈ getSources f b → s ∈ universe.

(** ** Notions used to state what [compute_data_dependencies] records *)

(** The lists [compute_data_dependencies] reads for an address. *)
Definition defs_of (instruction_def_use : gmap string DefUse) (a : string)
  : list string := default [] (def <$> instruction_def_use !! a).

Definition uses_of (instruction_def_use : gmap string DefUse) (a : string)
  : list string := default [] (use <$> instruction_def_use !! a).

(** Every definer the store holds is an address of [addresses] that
    defines the location. *)
Definition store_justified (instruction_def_use : gmap string DefUse)
    (addresses : list string) (storage : gmap string string) : Prop :=
  ∀ loc d, storage !! loc = Some d →
    d ∈ addresses ∧ loc ∈ defs_of instruction_def_use d.

(** Every record holds the lists of its address, and every source in it is
    [START] or an address of [addresses] that defines a location the
    address uses. *)
Definition records_justified (instruction_def_use : gmap string DefUse)
    (addresses : list string) (all_dependencies : gmap string Dependencies)
  : Prop :=
  ∀ a entry, all_dependencies !! a = Some entry →
    dep_def entry = defs_of instruction_def_use a
    ∧ dep_use entry = uses_of instruction_def_use a
    ∧ ∀ d, d ∈ DD entry →
        d = START
        ∨ (d ∈ addresses
           ∧ ∃ loc, loc ∈ uses_of instruction_def_use a
                    ∧ loc ∈ defs_of instruction_def_use d).

(** ** The scan of [Lab3_Plugin.collect_instructions]

    The address text of an instruction, and the call of [processDataDep]
    the loop makes for it: its uses, its definitions and its address. *)
Definition address_text (instruction : Instruction) : string :=
  slice_from 2 (getAddress instruction).

Definition Lab3_call `{SetOrder} (instruction : Instruction)
  : list string * list string * string :=
  match Lab3_def_use instruction with
  | Ok (Some (defs, uses)) => (uses, defs, address_text instruction)
  | _ => ([], [], address_text instruction)
  end.

(** ** Functions the scripts come through

    An instruction the analysis can read: its address text is a run of
    hexadecimal digits, and the source operand of a [LEA] has a bracketed
    part. *)
Definition analysable (instruction : Instruction) : Prop :=
  hex_text (address_text instruction)
  ∧ (getMnemonicString instruction = "LEA" →
     is_Some (search_bracketed (getDefaultOperandRepresentation instruction 1))).

(** The first flow of every jump of the function is the address of one of
    its instructions. *)
Definition jumps_stay_inside (f : Func) : Prop :=
  ∀ instruction flow0 rest,
    instruction ∈ body_instructions f →
    flowType_isJump instruction = true →
    getFlows instruction = flow0 :: rest →
    ∃ target, target ∈ body_instructions f
              ∧ slice_from 2 flow0 = address_text target.

(** No paths: a stand-in for [nx.all_simple_paths] where its result does
    not matter. *)
Definition no_paths (nodes : list string) (edges : list (string * string))
    (source target : string) (cutoff : option nat) : list (list string) := [].

(** A path the module-level [traverse] saves when started from [target]
    with the limit [loop_limit]: it leads from the entry block to [target]
    along the control flow and shows no block more often than the limit
    allows. *)
Definition bounded_walk (f : Func) (target : string) (loop_limit : nat)
    (p : list string) : Prop :=
  head p = Some (entry_block f)
  ∧ last p = Some target
  ∧ linked f p
  ∧ ∀ b, occurrences b p ≤ loop_limit.

(** ** Notions used to state how addresses are rendered

    A text of lowercase hexadecimal digits that does not begin with [0]. *)
Definition is_lower_hex (c : ascii) : bool := is_digit c || between 97 102 c.

Fixpoint lower_hex (s : string) : bool :=
  match s with
  | EmptyString => true
  | String c s' => is_lower_hex c && lower_hex s'
  end.

Definition bare_hex (s : string) : Prop :=
  ∃ c rest, s = String c rest ∧ c ≠ "0"%char ∧ lower_hex s = true.

(** An address text that is [00] and such digits, as Ghidra prints the
    addresses from 0x100000 to 0xffffff of a 32-bit program; a function
    all of whose instructions, in whatever block, have such addresses. *)
Definition plain_address (addr : string) : Prop :=
  ∃ text, addr = "00" +:+ text ∧ bare_hex text.

Definition plain_function (f : Func) : Prop :=
  ∀ block instruction,
    instruction ∈ block_instructions f block →
    plain_address (getAddress instruction).

(** Instructions in ascending order of their addresses. *)
Definition by_address `{IntReader} (instructions : list Instruction) : Prop :=
  StronglySorted (fun i j => address_le (getAddress i) (getAddress j))
                 instructions.

(** How a source of a dependency record is shown: [START] as it is, an
    address as [0x] and its digits without leading zeros.  [cut] is what
    the record's text has in front of the digits: nothing in
    [Lab3_Plugin.py], whose records hold the address texts without their
    first two characters, and [00] in [Lab4_networkx.py]. *)
Definition shown (cut : string) (render : string → string) (source : string)
  : Prop :=
  (source = START ∧ render source = START)
  ∨ ∃ text, source = cut +:+ text ∧ bare_hex text
            ∧ render source = "0x" +:+ text.

(** ** The two graphs of a function

    The texts one round of [process_functions] produces. *)
Definition Lab3_dependency_graph `{SetOrder} `{IntReader}
    (globals : gmap string DefUse) (f : Func) : result string :=
  st ← Lab3.collect_instructions globals f;
  Lab3.create_dot_graph_DD f (instruction_list (Lab3.collected st))
                           (Lab3.dependsOn st).

Definition Lab3_def_use_graph `{SetOrder} `{IntReader}
    (globals : gmap string DefUse) (f : Func) : result string :=
  st ← Lab3.collect_instructions globals f;
  create_dot_graph f (Lab3.collected st) (Lab3.def_use_info st).

Definition Lab4_def_use_graph `{SetOrder} `{IntReader}
    (globals : gmap string DefUse) (f : Func) : result string :=
  '(_, (_, def_use_graph)) ← Lab4.collect_instructions globals f;
  Ok def_use_graph.

Definition Lab4_dependency_graph `{SetOrder} `{IntReader}
    (all_simple_paths : list string → list (string * string) → string →
                        string → option nat → list (list string))
    (globals : gmap string DefUse) (f : Func) : result string :=
  '(_, (_, DD_graph)) ← Lab4.process_function all_simple_paths globals f;
  Ok DD_graph.

(** Two runs end alike: both return, with results that [R] relates, or both
    raise the same exception. *)
Definition same_outcome {A B} (R : A → B → Prop) (r1 : result A) (r2 : result B)
  : Prop :=
  match r1, r2 with
  | Ok a, Ok b => R a b
  | Raise e1, Raise e2 => e1 = e2
  | _, _ => False
  end.

(** [PUSH EAX] at 00ffffff and [RET] at 01000000. *)
Definition far_func : Func :=
  func_of "FUN_00ffffff"
    [("00ffffff",
      ([ instruction_of "00ffffff" "PUSH" [reg_operand "EAX" READ];
         instruction_of "01000000" "RET" [] ], []))].

(** [PUSH EAX; RET] at 00001000. *)
Definition low_func : Func :=
  func_of "FUN_00001000"
    [("00001000",
      ([ instruction_of "00001000" "PUSH" [reg_operand "EAX" READ];
         instruction_of "00001001" "RET" [] ], []))].

(** [MOV EBX,1; MOV ECX,2; LEA EAX,[EBX + ECX*0x4]; RET] *)
Definition lea_func : Func :=
  func_of "FUN_00401000"
    [("00401000",
      ([ instruction_of "00401000" "MOV"
           [reg_operand "EBX" WRITE; scalar_operand "0x1"];
         instruction_of "00401005" "MOV"
           [reg_operand "ECX" WRITE; scalar_operand "0x2"];
         instruction_of "0040100a" "LEA"
           [ reg_operand "EAX" WRITE;
             mem_operand [RegisterObj "EBX"; TextObj " + "; RegisterObj "ECX";
                          TextObj "*"; OtherObj "0x4"] DATA ];
         instruction_of "0040100d" "RET" [] ], []))].

(** ** Properties of [processDataDep] *)

Section DDStorage_facts.

Implicit Types (self : gmap string string) (uses defs : list string).

Lemma resolve_use_defined self acc i a :
  self !! i = Some a → DDStorage.resolve_use self acc i = acc ++ [a].
Proof. intros H. unfold DDStorage.resolve_use, DDStorage.has, DDStorage.getAddress. by rewrite H. Qed.

Lemma resolve_use_undefined self acc i :
  self !! i = None →
  DDStorage.resolve_use self acc i = if bool_decide (START ∈ acc) then acc else acc ++ [START].
Proof. intros H. unfold DDStorage.resolve_use, DDStorage.has. by rewrite H. Qed.

(** New definitions are written one after the other over the store. *)
Lemma define_loop_lookup self defs addr loc :
  foldl (fun s i => DDStorage.newDefine s i addr) self defs !! loc
  = if bool_decide (loc ∈ defs) then Some addr else self !! loc.
Proof.
  revert self. induction defs as [|d ds IH]; intros self; cbn [foldl].
  - case_bool_decide as H; [by apply elem_of_nil in H | done].
  - rewrite IH. unfold DDStorage.newDefine.
    destruct (decide (loc ∈ ds)) as [Hin|Hin].
    + rewrite !bool_decide_eq_true_2; [done | by right | done].
    + rewrite (bool_decide_eq_false_2 (loc ∈ ds)) by done.
      destruct (decide (d = loc)) as [-> |Hne].
      * rewrite lookup_insert_eq, bool_decide_eq_true_2; [done | by left].
      * rewrite lookup_insert_ne, bool_decide_eq_false_2; [done | | done].
        by intros [-> |?]%elem_of_cons.
Qed.

Lemma start_elem_app_other (acc : list string) a :
  a ≠ START → bool_decide (START ∈ acc ++ [a]) = bool_decide (START ∈ acc).
Proof.
  intros Ha. apply bool_decide_ext. rewrite elem_of_app, list_elem_of_singleton.
  split; [intros [?|?]; [done|congruence] | by left].
Qed.

(** The first loop computes what the specification describes, provided no
    location that is used has a definer whose address is spelled like the
    sentinel. *)
Lemma resolve_loop_spec self uses acc :
  Forall (fun loc => self !! loc ≠ Some START) uses →
  foldl (DDStorage.resolve_use self) acc uses
  = acc ++ start_once (bool_decide (START ∈ acc))
             (map (fun loc => default START (self !! loc)) uses).
Proof.
  intros Hwf. revert acc.
  induction Hwf as [|u us Hu _ IH]; intros acc; cbn [foldl map start_once].
  - by rewrite app_nil_r.
  - rewrite IH. destruct (self !! u) as [a|] eqn:Hlk; cbn [default].
    + assert (a ≠ START) as Ha by congruence.
      rewrite (resolve_use_defined _ _ _ _ Hlk), start_elem_app_other by done.
      rewrite (bool_decide_eq_false_2 (a = START)) by done.
      by rewrite <- app_assoc.
    + rewrite (resolve_use_undefined _ _ _ Hlk).
      rewrite (bool_decide_eq_true_2 (START = START)) by done.
      destruct (decide (START ∈ acc)) as [Hin|Hin].
      * by rewrite !(bool_decide_eq_true_2 (START ∈ acc)) by done.
      * rewrite !(bool_decide_eq_false_2 (START ∈ acc)) by done.
        rewrite (bool_decide_eq_true_2 (START ∈ acc ++ [START])), <- app_assoc;
          [done|].
        rewrite elem_of_app, list_elem_of_singleton. by right.
Qed.

Lemma occurrences_cons a x l :
  occurrences a (x :: l)
  = (if bool_decide (x = a) then 1 else 0) + occurrences a l.
Proof.
  unfold occurrences. rewrite filter_cons.
  case_decide; case_bool_decide; done.
Qed.

Lemma occurrences_app a l1 l2 :
  occurrences a (l1 ++ l2) = occurrences a l1 + occurrences a l2.
Proof. unfold occurrences. by rewrite filter_app, length_app. Qed.

Lemma start_once_occurrences seen l :
  occurrences START (start_once seen l) ≤ (if seen then 0 else 1).
Proof.
  revert seen. induction l as [|x l IH]; intros seen; cbn [start_once].
  - unfold occurrences. simpl. destruct seen; lia.
  - case_bool_decide as Hx.
    + destruct seen.
      * apply (IH true).
      * rewrite occurrences_cons, bool_decide_eq_true_2 by done.
        specialize (IH true). simpl in IH. lia.
    + rewrite occurrences_cons, bool_decide_eq_false_2 by done. apply IH.
Qed.

(** Membership in the list the loop returns. *)
Lemma resolve_loop_elem self uses acc d :
  d ∈ foldl (DDStorage.resolve_use self) acc uses ↔
  d ∈ acc ∨ (∃ loc, loc ∈ uses ∧ self !! loc = Some d)
  ∨ (d = START ∧ ∃ loc, loc ∈ uses ∧ self !! loc = None).
Proof.
  revert acc. induction uses as [|u us IH]; intros acc; cbn [foldl].
  - split; [by left|]. intros [?|[(loc&Hin&_)|(_&loc&Hin&_)]];
      [done| |]; by apply elem_of_nil in Hin.
  - rewrite IH. destruct (self !! u) as [a|] eqn:Hlk.
    + rewrite (resolve_use_defined _ _ _ _ Hlk), elem_of_app,
        list_elem_of_singleton.
      split.
      * intros [[?| ->]|[(loc&Hin&?)|(?&loc&Hin&?)]].
        -- by left.
        -- right; left. exists u. split; [by left|done].
        -- right; left. exists loc. split; [by right|done].
        -- right; right. split; [done|]. exists loc. split; [by right|done].
      * intros [?|[(loc&Hin&?)|(?&loc&Hin&?)]].
        -- by left; left.
        -- apply elem_of_cons in Hin as [-> |Hin].
           ++ left; right. congruence.
           ++ right; left. eauto.
        -- apply elem_of_cons in Hin as [-> |Hin]; [congruence|].
           right; right. eauto.
    + rewrite (resolve_use_undefined _ _ _ Hlk).
      assert (d ∈ (if bool_decide (START ∈ acc) then acc else acc ++ [START])
              ↔ d ∈ acc ∨ d = START) as ->.
      { case_bool_decide as Hs.
        - split; [by left|]. by intros [?| ->].
        - by rewrite elem_of_app, list_elem_of_singleton. }
      split.
      * intros [[?| ->]|[(loc&Hin&?)|(?&loc&Hin&?)]].
        -- by left.
        -- right; right. split; [done|]. exists u. split; [by left|done].
        -- right; left. exists loc. split; [by right|done].
        -- right; right. split; [done|]. exists loc. split; [by right|done].
      * intros [?|[(loc&Hin&?)|(?&loc&Hin&?)]].
        -- by left; left.
        -- apply elem_of_cons in Hin as [-> |Hin]; [congruence|].
           right; left. eauto.
        -- apply elem_of_cons in Hin as [-> |Hin].
           ++ by left; right.
           ++ right; right. eauto.
Qed.

(** Every use that has a definer contributes one copy of its address. *)
Lemma resolve_loop_occurrences self uses acc a :
  occurrences a acc + length (filter (fun loc => self !! loc = Some a) uses)
  ≤ occurrences a (foldl (DDStorage.resolve_use self) acc uses).
Proof.
  revert acc. induction uses as [|u us IH]; intros acc; cbn [foldl].
  - rewrite filter_nil. simpl. lia.
  - etrans; [|apply IH]. rewrite filter_cons.
    destruct (self !! u) as [b|] eqn:Hlk.
    + rewrite (resolve_use_defined _ _ _ _ Hlk), occurrences_app.
      rewrite occurrences_cons. unfold occurrences at 3. rewrite filter_nil.
      case_decide as Hd; case_bool_decide as Hb; simpl; try lia.
      congruence.
    + rewrite (resolve_use_undefined _ _ _ Hlk).
      case_decide as Hd; [done|].
      case_bool_decide; [lia|]. rewrite occurrences_app. lia.
Qed.

Lemma two_members_length (l : list string) u1 u2 :
  u1 ≠ u2 → u1 ∈ l → u2 ∈ l → 2 ≤ length l.
Proof.
  intros Hne H1 H2. destruct l as [|x [|y l]]; simpl; [| |lia].
  - by apply elem_of_nil in H1.
  - apply list_elem_of_singleton in H1, H2. congruence.
Qed.

End DDStorage_facts.

(** C1.  A call [processDataDep(uses, defs, addr)] returns, for the uses in
    order, the address of the definer the store holds for each location and
    [START] for a location without one, [START] being entered once at most;
    the list is what the specification's [resolve] describes.  Every
    location of [defs] maps to [addr] afterwards, and the list is read off
    the store as it was on entry: it is the same whatever the call defines,
    so a location the instruction both uses and defines resolves to its
    earlier definer or to [START], never to the instruction itself.  The
    addresses held for the uses are assumed not to be spelled [START]. *)
Theorem processDataDep_resolves_then_defines
    (self : gmap string string) (uses defs : list string) (addr : string) :
  Forall (fun loc => self !! loc ≠ Some START) uses →
  let '(self', dependsOn) := DDStorage.processDataDep self uses defs addr in
  dependsOn = resolve_spec self uses
  ∧ (∀ loc a, loc ∈ uses → self !! loc = Some a → a ∈ dependsOn)
  ∧ (∀ loc, loc ∈ uses → self !! loc = None → START ∈ dependsOn)
  ∧ (∀ d, d ∈ dependsOn →
       (∃ loc, loc ∈ uses ∧ self !! loc = Some d)
       ∨ (d = START ∧ ∃ loc, loc ∈ uses ∧ self !! loc = None))
  ∧ occurrences START dependsOn ≤ 1
  ∧ (∀ loc, loc ∈ defs → self' !! loc = Some addr)
  ∧ (∀ defs0 addr0,
       (DDStorage.processDataDep self uses defs0 addr0).2 = dependsOn).
Proof.
  intros Hwf. unfold DDStorage.processDataDep.
  assert (foldl (DDStorage.resolve_use self) [] uses = resolve_spec self uses)
    as Hspec.
  { rewrite resolve_loop_spec by done. unfold resolve_spec.
    by rewrite bool_decide_eq_false_2 by apply not_elem_of_nil. }
  repeat split.
  - done.
  - intros loc a Hin Hlk. apply resolve_loop_elem. right; left. eauto.
  - intros loc Hin Hlk. apply resolve_loop_elem. right; right. eauto.
  - intros d Hd. apply resolve_loop_elem in Hd as [Hd|Hd]; [|done].
    by apply elem_of_nil in Hd.
  - rewrite Hspec. apply (start_once_occurrences false).
  - intros loc Hin. rewrite define_loop_lookup.
    by rewrite bool_decide_eq_true_2.
Qed.

(** C1 at [PUSH ECX] of the example: [ECX] has a definer, [ESP] has none. *)
Lemma processDataDep_resolves_then_defines_witness :
  Forall (fun loc => ({["ECX" := "401005"]} : gmap string string) !! loc
                     ≠ Some START) ["ECX"; "ESP"]
  ∧ (DDStorage.processDataDep {["ECX" := "401005"]} ["ECX"; "ESP"]
                             ["ESP"; "[ESP]"] "40100a").2
    = resolve_spec {["ECX" := "401005"]} ["ECX"; "ESP"].
Proof.
  assert (Forall (fun loc => ({["ECX" := "401005"]} : gmap string string) !! loc
                             ≠ Some START) ["ECX"; "ESP"]) as Hwf.
  { repeat constructor; vm_compute; discriminate. }
  split; [exact Hwf|].
  exact (proj1 (processDataDep_resolves_then_defines
                  {["ECX" := "401005"]} ["ECX"; "ESP"] ["ESP"; "[ESP]"]
                  "40100a" Hwf)).
Defined.

(** C9.  After [processDataDep(uses, defs, addr)] a location listed in
    [defs] maps to [addr]; any other location maps to the definer it had
    before the call, or has none if it had none. *)
Theorem processDataDep_frame
    (self : gmap string string) (uses defs : list string) (addr loc : string) :
  (DDStorage.processDataDep self uses defs addr).1 !! loc
  = if bool_decide (loc ∈ defs) then Some addr else self !! loc.
Proof. unfold DDStorage.processDataDep. cbn [fst]. apply define_loop_lookup. Qed.

(** C10.  When two distinct used locations have the same definer [a], the
    list [processDataDep] returns holds [a] at least twice: addresses of
    definers are not deduplicated. *)
Theorem processDataDep_repeats_definer
    (self : gmap string string) (uses defs : list string) (addr : string)
    (u1 u2 a : string) :
  u1 ≠ u2 → u1 ∈ uses → u2 ∈ uses →
  self !! u1 = Some a → self !! u2 = Some a →
  2 ≤ occurrences a (DDStorage.processDataDep self uses defs addr).2.
Proof.
  intros Hne H1 H2 Hlk1 Hlk2. unfold DDStorage.processDataDep. cbn [snd].
  etrans; [|apply resolve_loop_occurrences].
  assert (2 ≤ length (filter (fun loc => self !! loc = Some a) uses)).
  { apply (two_members_length _ u1 u2); [done| |]; by apply list_elem_of_filter. }
  lia.
Qed.

(** C10 at a [POP] that follows a [PUSH]: [[ESP]] and [ESP] have the same
    definer. *)
Lemma processDataDep_repeats_definer_witness :
  (DDStorage.processDataDep {["ESP" := "40100b"; "[ESP]" := "40100b"]}
                            ["[ESP]"; "ESP"] ["ECX"; "ESP"] "40100c").2
  = ["40100b"; "40100b"]
  ∧ 2 ≤ occurrences "40100b"
          (DDStorage.processDataDep {["ESP" := "40100b"; "[ESP]" := "40100b"]}
                                    ["[ESP]"; "ESP"] ["ECX"; "ESP"] "40100c").2.
Proof.
  split; [reflexivity|].
  apply (processDataDep_repeats_definer _ _ _ _ "[ESP]" "ESP");
    [discriminate | by left | by right; left | reflexivity | reflexivity].
Defined.

(** ** Text *)

Lemma append_assoc (a b c : string) : (a +:+ b) +:+ c = a +:+ (b +:+ c).
Proof.
  induction a as [|ch a IH]; [done|].
  change (String ch ((a +:+ b) +:+ c) = String ch (a +:+ (b +:+ c))).
  by rewrite IH.
Qed.

Lemma append_empty_r (a : string) : a +:+ EmptyString = a.
Proof.
  induction a as [|ch a IH]; [done|].
  change (String ch (a +:+ EmptyString) = String ch a). by rewrite IH.
Qed.

(** ** The reverse path search of [Lab3_Plugin.py] *)

Section Traverse_facts.
Context (f : Func).

Implicit Types (visited : gmap string nat) (path : list string)
  (paths : list (list string)).

(** Loops that thread an optional accumulator. *)
Lemma foldl_option_None {A B} (step : B → A → option B) (l : list A) :
  foldl (fun acc a => b ← acc; step b a) None l = None.
Proof. induction l as [|a l IH]; [done|]. cbn [foldl]. apply IH. Qed.

Lemma foldl_option_inv {A B} (step : B → A → option B) (P : B → Prop)
    (l : list A) (b0 r : B) :
  P b0 →
  (∀ b a b', a ∈ l → P b → step b a = Some b' → P b') →
  foldl (fun acc a => b ← acc; step b a) (Some b0) l = Some r →
  P r.
Proof.
  revert b0. induction l as [|a l IH]; intros b0 H0 Hstep Hr; cbn [foldl] in Hr.
  - by injection Hr as <-.
  - cbn [mbind option_bind] in Hr.
    destruct (step b0 a) as [b1|] eqn:Hb1.
    + apply (IH b1); [|intros; eapply Hstep; [by right|done..]|done].
      eapply Hstep; [by left|done..].
    + by rewrite foldl_option_None in Hr.
Qed.

Lemma foldl_option_total {A B} (step : B → A → option B) (P : B → Prop)
    (l : list A) (b0 : B) :
  P b0 →
  (∀ b a, a ∈ l → P b → ∃ b', step b a = Some b' ∧ P b') →
  ∃ r, foldl (fun acc a => b ← acc; step b a) (Some b0) l = Some r ∧ P r.
Proof.
  revert b0. induction l as [|a l IH]; intros b0 H0 Hstep; cbn [foldl].
  - eauto.
  - cbn [mbind option_bind].
    destruct (Hstep b0 a) as (b1 & -> & H1); [by left|done|].
    apply IH; [done|]. intros. apply Hstep; [by right|done].
Qed.

(** One unfolding of [traverse]. *)
Lemma traverse_step fuel block visited path paths loop_limit :
  Lab3.traverse f (S fuel) block visited path paths loop_limit =
  let count := default 0 (visited !! block) in
  if bool_decide (count = loop_limit) then Some (visited, paths)
  else
    let visited1 := <[block := count + 1]> visited in
    let new_path := block :: path in
    if bool_decide (block = entry_block f)
    then Some (visited1, paths ++ [new_path])
    else
      match getSources f block with
      | [] => Some (visited1, paths ++ [new_path])
      | sources =>
          paths1 ←
            foldl (fun acc source_block =>
                     paths0 ← acc;
                     snd <$> Lab3.traverse f fuel source_block visited1
                                           new_path paths0 1)
                  (Some paths) sources;
          Some (visited1, paths1)
      end.
Proof. reflexivity. Qed.

Lemma counts_bounded_not_limit visited block :
  counts_bounded visited →
  default 0 (visited !! block) ≠ 1 → default 0 (visited !! block) = 0.
Proof.
  intros Hb Hne. destruct (visited !! block) as [c|] eqn:Hc; [|done].
  simpl in *. specialize (Hb _ _ Hc). lia.
Qed.

Lemma counts_bounded_insert visited block :
  counts_bounded visited →
  counts_bounded (<[block := 1]> visited).
Proof.
  intros Hb b c. destruct (decide (block = b)) as [-> |Hne].
  - rewrite lookup_insert_eq. intros [= <-]. lia.
  - rewrite lookup_insert_ne by done. apply Hb.
Qed.

(** Every path [traverse] adds is free of repetitions: with the limit of 1
    a block is entered once at most along a path. *)
Lemma traverse_NoDup fuel block visited path paths visited' paths' :
  counts_bounded visited → path_counted visited path → NoDup path →
  Forall NoDup paths →
  Lab3.traverse f fuel block visited path paths 1 = Some (visited', paths') →
  counts_bounded visited' ∧ Forall NoDup paths'.
Proof.
  revert block visited path paths visited' paths'.
  induction fuel as [|fuel IH];
    intros block visited path paths visited' paths' Hb Hp Hnd Hps; [done|].
  rewrite traverse_step. cbv zeta.
  case_bool_decide as Hlimit; [by intros [= <- <-]|].
  apply counts_bounded_not_limit in Hlimit as Hzero; [|done]. rewrite Hzero.
  assert (block ∉ path) as Hfresh.
  { intros Hin. apply Hp in Hin. rewrite Hin in Hzero. done. }
  assert (NoDup (block :: path)) as Hnd1 by by constructor.
  assert (counts_bounded (<[block := 0 + 1]> visited)) as Hb1
    by by apply counts_bounded_insert.
  assert (path_counted (<[block := 0 + 1]> visited) (block :: path)) as Hp1.
  { intros b [-> |Hin]%elem_of_cons.
    - by rewrite lookup_insert_eq.
    - rewrite lookup_insert_ne; [by apply Hp|]. by intros ->. }
  assert (Forall NoDup (paths ++ [block :: path])) as Hps1.
  { apply Forall_app. split; [done|]. by constructor. }
  case_bool_decide as Hentry; [by intros [= <- <-]|].
  destruct (getSources f block) as [|s sources] eqn:Hsrc;
    [by intros [= <- <-]|].
  intros Hr. apply bind_Some in Hr as (paths1 & Hfold & [= <- <-]).
  split; [done|].
  eapply (foldl_option_inv _ (Forall NoDup)); [exact Hps| |exact Hfold].
  intros paths0 src paths2 _ Hps0 Hstep. cbv beta in Hstep.
  apply fmap_Some in Hstep as ([v p] & Hstep & ->).
  by eapply IH in Hstep as [_ ?].
Qed.

Lemma unvisited_insert_le visited universe block :
  length (unvisited (<[block := 1]> visited) universe)
  ≤ length (unvisited visited universe).
Proof.
  unfold unvisited. induction universe as [|b bs IH]; [done|].
  rewrite !filter_cons. destruct (decide (block = b)) as [-> |Hne].
  - rewrite lookup_insert_eq. simpl. case_decide; simpl; lia.
  - rewrite lookup_insert_ne by done. case_decide; simpl; lia.
Qed.

Lemma unvisited_insert visited universe block :
  block ∈ universe → default 0 (visited !! block) = 0 →
  length (unvisited (<[block := 1]> visited) universe)
  < length (unvisited visited universe).
Proof.
  intros Hin Hzero.
  induction universe as [|b bs IH]; [by apply elem_of_nil in Hin|].
  pose proof (unvisited_insert_le visited bs block) as Hle.
  unfold unvisited in *. rewrite !filter_cons.
  destruct (decide (block = b)) as [<- |Hne].
  - rewrite lookup_insert_eq. simpl.
    rewrite decide_True by done. simpl. lia.
  - apply elem_of_cons in Hin as [-> |Hin]; [done|].
    rewrite lookup_insert_ne by done.
    specialize (IH Hin). case_decide; simpl; lia.
Qed.

(** On a finite graph the search returns: [traverse] needs no more fuel
    than there are blocks left to enter, plus one. *)
Lemma traverse_total (universe : list string) fuel block visited path paths :
  (∀ b, b ∈ universe → ∀ s, s ∈ getSources f b → s ∈ universe) →
  block ∈ universe →
  counts_bounded visited →
  length (unvisited visited universe) < fuel →
  ∃ visited' paths',
    Lab3.traverse f fuel block visited path paths 1 = Some (visited', paths').
Proof.
  intros Hclosed. revert block visited path paths.
  induction fuel as [|fuel IH]; intros block visited path paths Hin Hb Hfuel;
    [lia|].
  rewrite traverse_step. cbv zeta.
  case_bool_decide as Hlimit; [eauto|].
  apply counts_bounded_not_limit in Hlimit as Hzero; [|done]. rewrite Hzero.
  case_bool_decide as Hentry; [eauto|].
  destruct (getSources f block) as [|s sources] eqn:Hsrc; [eauto|].
  pose proof (unvisited_insert visited universe block Hin Hzero) as Hless.
  destruct (foldl_option_total
              (fun paths0 source_block =>
                 snd <$> Lab3.traverse f fuel source_block
                           (<[block := 0 + 1]> visited) (block :: path) paths0 1)
              (fun _ => True) (s :: sources) paths) as (r & -> & _); [done| |].
  - intros paths0 src Hsrc_in _.
    destruct (IH src (<[block := 0 + 1]> visited) (block :: path) paths0)
      as (v & p & ->).
    + apply (Hclosed block); [done|]. by rewrite Hsrc.
    + by apply counts_bounded_insert.
    + cbn [Nat.add]. lia.
    + eauto.
  - cbn. eauto.
Qed.

End Traverse_facts.

Lemma initial_counts_bounded (blocks : list string) :
  counts_bounded (list_to_map (map (fun block => (block, 0)) blocks)).
Proof.
  intros b c Hlk. apply elem_of_list_to_map_2 in Hlk.
  apply list_elem_of_fmap in Hlk as (b' & [= _ ->] & _). lia.
Qed.

Lemma traverse_top (f : Func) (fuel : nat) (block : string)
    (visited visited' : gmap string nat) (paths paths' : list (list string)) :
  counts_bounded visited → Forall NoDup paths →
  Lab3.traverse f fuel block visited [] paths 1 = Some (visited', paths') →
  counts_bounded visited' ∧ Forall NoDup paths'.
Proof.
  intros Hb Hps. apply traverse_NoDup; [done| |apply NoDup_nil_2|done].
  intros b Hin. by apply elem_of_nil in Hin.
Qed.

(** With the limit the script uses, no path of [reverse_traverse_cfg] holds
    a block twice. *)
Lemma reverse_paths_NoDup (f : Func) (fuel : nat) (ret_blocks : list string)
    (paths : list (list string)) :
  Lab3.reverse_paths f fuel ret_blocks = Some paths → Forall NoDup paths.
Proof.
  unfold Lab3.reverse_paths. intros Hr.
  apply fmap_Some in Hr as ([visited' paths'] & Hfold & ->). cbn [snd].
  eapply (foldl_option_inv
            (fun (st : gmap string nat * list (list string)) ret_block =>
               let '(visited, paths) := st in
               Lab3.traverse f fuel ret_block visited [] paths 1)
            (fun st => counts_bounded st.1 ∧ Forall NoDup st.2)) in Hfold
    as [_ ?]; [done| |].
  - split; [apply initial_counts_bounded|apply Forall_nil_2].
  - intros [v p] ret_block [v' p'] _ [Hb Hps] Hstep. cbn [fst snd] in *.
    by eapply traverse_top.
Qed.

(** The search returns on every finite graph: when the blocks reached
    through [getSources] all lie in [universe], fuel for one more level than
    there are blocks is enough. *)
Lemma reverse_paths_total (f : Func) (universe ret_blocks : list string) :
  (∀ b, b ∈ universe → ∀ s, s ∈ getSources f b → s ∈ universe) →
  (∀ b, b ∈ ret_blocks → b ∈ universe) →
  ∃ paths, Lab3.reverse_paths f (S (length universe)) ret_blocks = Some paths.
Proof.
  intros Hclosed Hrets. unfold Lab3.reverse_paths.
  destruct (foldl_option_total
              (fun (st : gmap string nat * list (list string)) ret_block =>
                 let '(visited, paths) := st in
                 Lab3.traverse f (S (length universe)) ret_block visited []
                               paths 1)
              (fun st => counts_bounded st.1 ∧ Forall NoDup st.2) ret_blocks
              (list_to_map (map (fun block => (block, 0)) (body_blocks f)), []))
    as ([v p] & Hfold & _).
  - split; [apply initial_counts_bounded|apply Forall_nil_2].
  - intros [v p] ret_block Hin [Hb Hps]. cbn [fst snd] in Hb, Hps.
    destruct (traverse_total f universe (S (length universe)) ret_block v [] p)
      as (v' & p' & Hstep); [done|by apply Hrets|done| |].
    + unfold unvisited. apply Nat.lt_succ_r, length_filter.
    + exists (v', p'). split; [done|]. cbn [fst snd]. by eapply traverse_top.
  - exists p. by rewrite Hfold.
Qed.

Lemma set_to_list_singleton `{SetOrder} (x : string) : set_to_list [x] = [x].
Proof.
  pose proof (set_to_list_perm [x]) as Hp. cbn in Hp.
  by apply Permutation_singleton_r in Hp.
Qed.

(** C3.  On the function [loop_func], whose second block jumps back to
    itself, the path search of [Lab3_Plugin.py] returns one path, which
    enters the loop block once: the bound in force is 1, not 2, and no
    path shows the loop body a second time. *)
Theorem loop_body_entered_once `{SetOrder} (fuel : nat) :
  ∃ paths,
    Lab3.reverse_paths loop_func (3 + fuel) (find_ret_blocks loop_func)
    = Some paths
    ∧ paths = [["00401000"; "00401005"; "00401008"]]
    ∧ Forall (fun path => occurrences "00401005" path = 1) paths.
Proof.
  exists [["00401000"; "00401005"; "00401008"]]. split; [|split].
  - unfold find_ret_blocks.
    replace (filter _ (body_blocks loop_func)) with ["00401008"]
      by (vm_compute; reflexivity).
    rewrite set_to_list_singleton. vm_compute. reflexivity.
  - reflexivity.
  - repeat constructor.
Qed.

(** ** The example of the module comment: pushes and pops *)

(** C4.  On [MOV EAX,1; MOV ECX,2; PUSH ECX; PUSH EAX; POP ECX; POP EAX]
    (addresses 401000, 401005, 40100a, 40100b, 40100c, 40100d) the scan of
    [Lab3_Plugin.py] and the path walk of [Lab4_networkx.py] agree with the
    example on the sources of the third, fourth and fifth instruction, and
    give the last [POP] the sources {address 4, address 5}: the cell
    [[ESP]] it reads was last written by the second [PUSH], not the
    first. *)
Theorem push_pop_dependencies `{SetOrder} `{IntReader} :
  Lab3_sources push_pop_func ["40100a"; "40100b"; "40100c"; "40100d"]
  = Ok [ Some ["401005"; START]; Some ["401000"; "40100a"];
         Some ["40100b"; "40100b"]; Some ["40100b"; "40100c"] ]
  ∧ Lab4_sources push_pop_func [["00401000"]]
                 ["0040100a"; "0040100b"; "0040100c"; "0040100d"]
    = Ok [ Some ["00401005"; START]; Some ["00401000"; "0040100a"];
           Some ["0040100b"; "0040100b"]; Some ["0040100b"; "0040100c"] ].
Proof. split; vm_compute; reflexivity. Qed.

(** ** Instructions without a branch in [analyze_instruction] *)

(** Every mnemonic of a literal list is one of [recognized]. *)
Ltac all_recognized :=
  repeat (apply List.Forall_cons;
          [apply (bool_decide_unpack _); vm_compute; exact I|]);
  apply List.Forall_nil.

Lemma one_of_unrecognized (mnemonic : string) (l : list string) :
  mnemonic ∉ recognized → Forall (fun m => m ∈ recognized) l →
  one_of mnemonic l = false.
Proof.
  intros Hnot Hsub. unfold one_of. apply bool_decide_eq_false_2.
  intros Hin. apply Hnot. by eapply Forall_forall in Hsub.
Qed.

(** The final [else] is reached exactly by the mnemonics outside
    [recognized]. *)
Lemma mnemonic_rule_unrecognized `{SetOrder} ret_rule instruction mnemonic
    (defs uses : list string) :
  mnemonic ∉ recognized →
  mnemonic_rule ret_rule instruction mnemonic defs uses = Ok None.
Proof.
  intros Hnot. unfold mnemonic_rule.
  repeat (rewrite (one_of_unrecognized mnemonic _ Hnot);
          [|all_recognized]).
  reflexivity.
Qed.

Lemma for_each_raises {A S} (body : S → A → result S) (l : list A) (x : A) :
  x ∈ l → (∀ s, ∃ e, body s x = Raise e) →
  ∀ s, ∃ e, for_each body s l = Raise e.
Proof.
  intros Hin Hx. induction l as [|y l IH]; intros s; [by apply elem_of_nil in Hin|].
  cbn [for_each]. destruct (body s y) as [s'|e] eqn:Hy; cbn; [|eauto].
  apply elem_of_cons in Hin as [-> |Hin].
  - destruct (Hx s) as [e He]. congruence.
  - by apply IH.
Qed.

(** In [Lab3_Plugin.py] the value [None] of [analyze_instruction] cannot be
    unpacked. *)
Lemma Lab3_collect_unrecognized `{SetOrder} (st : Lab3.Collecting)
    (instruction : Instruction) :
  getMnemonicString instruction ∉ recognized →
  Lab3.collect_instruction st instruction = Raise TypeError.
Proof.
  intros Hnot. unfold Lab3.collect_instruction, Lab3.analyze_instruction.
  destruct (Lab3.operandRegisterHelper instruction [] []) as [defs uses].
  by rewrite mnemonic_rule_unrecognized.
Qed.

(** In [Lab4_networkx.py] the value [None] becomes the label of the
    instruction, and the instruction gets no entry in
    [instruction_def_use]. *)
Lemma Lab4_collect_unrecognized `{SetOrder} (st : Lab4.Collecting)
    (instruction : Instruction) :
  getMnemonicString instruction ∉ recognized →
  ∃ st', Lab4.collect_instruction st instruction = Ok st'
         ∧ Lab4.instruction_def_use st' = Lab4.instruction_def_use st
         ∧ Lab4.def_use_info st' !! slice_from 2 (getAddress instruction)
           = Some None
         ∧ instruction_list (Lab4.collected st')
           = instruction_list (Lab4.collected st)
             ++ [slice_from 2 (getAddress instruction)].
Proof.
  intros Hnot. unfold Lab4.collect_instruction, Lab4.analyze_instruction.
  destruct (Lab4.operandRegisterHelper instruction [] []) as [defs uses].
  rewrite mnemonic_rule_unrecognized by done. cbn.
  eexists. split; [done|]. cbn. split; [done|]. split.
  - by rewrite lookup_insert_eq.
  - unfold record_flow. cbn.
    by destruct (flowType_isJump instruction), (getFlows instruction).
Qed.

(** An instruction without an entry in [instruction_def_use] is walked with
    empty [defs] and [uses]: its record is empty and the store is left as
    it is. *)
Lemma Lab4_path_step_no_entry `{SetOrder} (globals : gmap string DefUse)
    (storage : gmap string string) (all_dependencies : gmap string Dependencies)
    (instr : Instruction) :
  globals !! getAddress instr = None →
  all_dependencies !! getAddress instr = None →
  Lab4.path_step globals (storage, all_dependencies) (InstrItem instr)
  = (storage,
     <[getAddress instr := {| dep_def := []; dep_use := []; DD := [] |}]>
       all_dependencies).
Proof.
  intros Hg Hd. unfold Lab4.path_step. rewrite Hg, Hd.
  by case_bool_decide.
Qed.

(** C2.  In [Lab3_Plugin.py] a function that holds an instruction whose
    mnemonic has no branch in [analyze_instruction] does not come through
    [collect_instructions]: the run ends with an exception (the
    [TypeError] of unpacking [None], unless an earlier instruction has
    raised already). *)
Theorem unrecognized_mnemonic_is_fatal `{SetOrder} `{IntReader}
    (globals : gmap string DefUse) (f : Func) (instruction : Instruction) :
  instruction ∈ body_instructions f →
  getMnemonicString instruction ∉ recognized →
  ∃ e, Lab3.collect_instructions globals f = Raise e.
Proof.
  intros Hin Hnot. unfold Lab3.collect_instructions.
  edestruct (for_each_raises Lab3.collect_instruction (body_instructions f)
               instruction Hin) as [e ->].
  - intros s. exists TypeError. by apply Lab3_collect_unrecognized.
  - by exists e.
Qed.

(** C2 at the function [MOV EAX,1; NOP; RET]. *)
Lemma unrecognized_mnemonic_is_fatal_witness :
  (instruction_of "00401005" "NOP" [] ∈ body_instructions nop_func
   ∧ getMnemonicString (instruction_of "00401005" "NOP" []) ∉ recognized)
  ∧ ∃ e, @Lab3.collect_instructions first_occurrence_order common_reader ∅ nop_func = Raise e.
Proof.
  assert (instruction_of "00401005" "NOP" [] ∈ body_instructions nop_func) as Hin.
  { right; left. }
  assert (getMnemonicString (instruction_of "00401005" "NOP" []) ∉ recognized)
    as Hnot.
  { apply (bool_decide_unpack _). vm_compute. exact I. }
  split; [by split|].
  exact (@unrecognized_mnemonic_is_fatal first_occurrence_order common_reader ∅ nop_func
           _ Hin Hnot).
Defined.

(** The exception on [MOV EAX,1; NOP; RET] is the [TypeError], while
    [Lab4_networkx.py] takes the same function: the [NOP] is a node of the
    def/use graph with the label [None], and its dependency record is
    empty. *)
Lemma nop_in_both_scripts `{SetOrder} `{IntReader} :
  Lab3.collect_instructions ∅ nop_func = Raise TypeError
  ∧ (snd <$> (snd <$> option_of_result (Lab4.collect_instructions ∅ nop_func)))
    = Some (graph_header nop_func
            +:+ node_line "n1" "0x401000; D: EAX U: "
            +:+ node_line "n2" "0x401005; None"
            +:+ node_line "n3" "0x401006; D: ESP U: ESP"
            +:+ newline
            +:+ edge_line "n1" "n2" +:+ edge_line "n2" "n3" +:+ "}")
  ∧ Lab4_sources nop_func [["00401000"]] ["00401005"] = Ok [Some []].
Proof. repeat split; vm_compute; reflexivity. Qed.

(** ** The [RET] instruction *)

Lemma append_new_here (x : string) (l : list string) : x ∈ append_new x l.
Proof.
  unfold append_new. case_bool_decide; [done|].
  apply elem_of_app. right. by left.
Qed.

Lemma append_new_keeps (x y : string) (l : list string) :
  y ∈ l → y ∈ append_new x l.
Proof.
  intros Hin. unfold append_new. case_bool_decide; [done|].
  apply elem_of_app. by left.
Qed.

Lemma mnemonic_rule_RET `{SetOrder} ret_rule instruction (defs uses : list string) :
  mnemonic_rule ret_rule instruction "RET" defs uses
  = Ok (Some (ret_rule defs uses)).
Proof. reflexivity. Qed.

(** [Lab3_Plugin.analyze_instruction] on any [RET]: [ESP] is defined, [ESP]
    and [[ESP]] are used. *)
Lemma Lab3_ret_uses_stack_cell `{SetOrder} (globals : gmap string DefUse)
    (instruction : Instruction) (addr_str : string) :
  getMnemonicString instruction = "RET" →
  ∃ globals' label defs uses,
    Lab3.analyze_instruction globals instruction addr_str
    = Ok (globals', Some (label, defs, uses))
    ∧ "ESP" ∈ defs ∧ "ESP" ∈ uses ∧ "[ESP]" ∈ uses.
Proof.
  intros Hret. unfold Lab3.analyze_instruction. rewrite Hret.
  destruct (Lab3.operandRegisterHelper instruction [] []) as [defs uses].
  rewrite mnemonic_rule_RET. unfold Lab3.ret_rule. cbn.
  eexists _, _, _, _. split; [done|].
  split; [apply append_new_here|].
  split; [apply append_new_keeps, append_new_here|apply append_new_here].
Qed.

(** [Lab4_networkx.analyze_instruction] on a [RET] without operands: the
    lists are exactly [['ESP']] and [['ESP']]. *)
Lemma Lab4_ret_omits_stack_cell `{SetOrder} (globals : gmap string DefUse)
    (instruction : Instruction) (addr_str : string) :
  getMnemonicString instruction = "RET" → getNumOperands instruction = 0 →
  Lab4.analyze_instruction globals instruction addr_str
  = Ok (<[getAddress instruction := {| def := ["ESP"]; use := ["ESP"] |}]> globals,
        Some (def_use_label ["ESP"] ["ESP"])).
Proof.
  intros Hret Hops. unfold Lab4.analyze_instruction, Lab4.operandRegisterHelper.
  rewrite Hret, Hops. cbn [seq foldl]. by rewrite mnemonic_rule_RET.
Qed.

Lemma foldl_invariant {A B} (step : B → A → B) (P : B → Prop) (l : list A) (b : B) :
  P b → (∀ b a, a ∈ l → P b → P (step b a)) → P (foldl step b l).
Proof.
  revert b. induction l as [|a l IH]; intros b Hb Hstep; cbn [foldl]; [done|].
  apply IH; [apply Hstep; [by left|done]|].
  intros. apply Hstep; [by right|done].
Qed.

Lemma set_to_list_nil `{SetOrder} : set_to_list [] = [].
Proof.
  pose proof (set_to_list_perm []) as Hp. cbn in Hp.
  by apply Permutation_nil_r in Hp.
Qed.

(** In [Lab4_networkx.compute_data_dependencies] an address at which the
    paths hold only [RET] instructions ends with an empty list of
    sources, whatever the paths are. *)
Lemma Lab4_ret_record_empty `{SetOrder} (all_paths : list (list PathItem))
    (globals : gmap string DefUse) (addr : string) (d : Dependencies) :
  (∀ path instr, path ∈ all_paths → InstrItem instr ∈ path →
                 getAddress instr = addr → getMnemonicString instr = "RET") →
  Lab4.compute_data_dependencies all_paths globals !! addr = Some d →
  DD d = [].
Proof.
  intros Hret. unfold Lab4.compute_data_dependencies. revert d.
  apply (foldl_invariant _ (fun deps : gmap string Dependencies =>
                              ∀ d, deps !! addr = Some d → DD d = [])).
  { intros d. by rewrite lookup_empty. }
  intros deps path Hpath Hdeps.
  apply (foldl_invariant _
           (fun st : gmap string string * gmap string Dependencies =>
              ∀ d, st.2 !! addr = Some d → DD d = [])); [done|].
  intros [storage deps'] item Hitem Hinv. destruct item as [|instr]; [done|].
  unfold Lab4.path_step. cbn [snd] in Hinv.
  destruct (match globals !! getAddress instr with
            | Some du => (def du, use du) | None => ([], []) end)
    as [defs uses].
  destruct (decide (getAddress instr = addr)) as [Heq|Hne].
  - rewrite (bool_decide_eq_true_2 _ (Hret path instr Hpath Hitem Heq)).
    cbn [snd]. rewrite Heq, lookup_insert_eq. intros d [= <-].
    destruct (deps' !! addr) as [old|] eqn:Hold; cbn [DD]; [|done].
    rewrite (Hinv old eq_refl). cbn [app]. apply set_to_list_nil.
  - destruct (if bool_decide (getMnemonicString instr = "RET")
              then (storage, [])
              else DDStorage.processDataDep storage uses defs (getAddress instr))
      as [storage1 dependencies].
    cbn [snd]. by rewrite lookup_insert_ne.
Qed.

(** C5.  On [PUSH EAX; POP ECX; RET] the scan of [Lab3_Plugin.py] gives the
    [RET] the uses [ESP], [[ESP]] and the sources they resolve to, the
    [POP] for [ESP] and the [PUSH] for [[ESP]].  [Lab4_networkx.py] gives
    the same [RET] the single use [ESP] and an empty list of sources. *)
Theorem ret_sources_in_both_scripts `{SetOrder} `{IntReader} :
  Lab3_sources push_pop_ret_func ["401002"] = Ok [Some ["401001"; "401000"]]
  ∧ (all_dependencies ← Lab4_dependencies push_pop_ret_func [["00401000"]];
     Ok (all_dependencies !! "00401002"))
    = Ok (Some {| dep_def := ["ESP"]; dep_use := ["ESP"]; DD := [] |}).
Proof. split; vm_compute; reflexivity. Qed.

(** ** Memory operands

    What the two scripts share: the register test leaves the text and the
    bracket flags alone, does nothing on an object that is not a register,
    and on a register sets [isInstance] and copies the direction of the
    operand into [isRead] and [isWrite]. *)

Section Scan_facts.
Context (opType : RefType) (reg : OperandScan → RepObject → OperandScan).
Hypothesis reg_other : ∀ st e, is_Register e = false → reg st e = st.
Hypothesis reg_register : ∀ st e, is_Register e = true →
  thisDynamic (reg st e) = thisDynamic st
  ∧ isPart (reg st e) = isPart st
  ∧ eor (reg st e) = eor st
  ∧ isInstance (reg st e) = true
  ∧ scan_isRead (reg st e) = (if isRead opType then true else scan_isRead st)
  ∧ scan_isWrite (reg st e) = (if isWrite opType then true else scan_isWrite st).

Lemma reg_fields st e :
  thisDynamic (reg st e) = thisDynamic st
  ∧ isPart (reg st e) = isPart st
  ∧ eor (reg st e) = eor st
  ∧ isInstance (reg st e) = isInstance st || is_Register e
  ∧ scan_isRead (reg st e) = scan_isRead st || (is_Register e && isRead opType)
  ∧ scan_isWrite (reg st e) = scan_isWrite st || (is_Register e && isWrite opType).
Proof.
  destruct (is_Register e) eqn:He.
  - destruct (reg_register st e He) as (-> & -> & -> & -> & -> & ->).
    rewrite !orb_true_r. repeat split; try done.
    + by destruct (isRead opType), (scan_isRead st).
    + by destruct (isWrite opType), (scan_isWrite st).
  - rewrite reg_other by done. by rewrite !orb_false_r.
Qed.

Lemma scan_with_cons st e l :
  scan_with reg st (e :: l)
  = scan_with reg (scan_record (reg (scan_brackets st e) e)) l.
Proof. reflexivity. Qed.

Lemma scan_with_app st l1 l2 :
  scan_with reg st (l1 ++ l2) = scan_with reg (scan_with reg st l1) l2.
Proof. unfold scan_with. apply foldl_app. Qed.

Lemma scan_record_open st : eor st = false → scan_record st = st.
Proof. intros He. unfold scan_record. by rewrite He, andb_false_r. Qed.

(** Objects other than brackets, read before the closing bracket: the text
    grows when inside the brackets, nothing is recorded. *)
Lemma scan_plain (l : list RepObject) (st : OperandScan) :
  Forall not_bracket l → eor st = false →
  let st' := scan_with reg st l in
  thisDynamic st' = (if isPart st then thisDynamic st +:+ concat_str l
                     else thisDynamic st)
  ∧ isPart st' = isPart st
  ∧ eor st' = false
  ∧ isInstance st' = isInstance st || existsb is_Register l
  ∧ scan_isRead st' = scan_isRead st || (existsb is_Register l && isRead opType)
  ∧ scan_isWrite st' = scan_isWrite st || (existsb is_Register l && isWrite opType).
Proof.
  intros Hl. revert st. induction Hl as [|e l [Hopen Hclose] _ IH]; intros st Heor.
  - cbn. rewrite append_empty_r, !orb_false_r. by destruct (isPart st).
  - cbv zeta. rewrite scan_with_cons.
    set (st1 := scan_brackets st e).
    assert (thisDynamic st1 = (if isPart st then thisDynamic st +:+ str e
                               else thisDynamic st)
            ∧ isPart st1 = isPart st ∧ eor st1 = false
            ∧ isInstance st1 = isInstance st
            ∧ scan_isRead st1 = scan_isRead st
            ∧ scan_isWrite st1 = scan_isWrite st)
      as (Ht1 & Hp1 & He1 & Hi1 & Hr1 & Hw1).
    { unfold st1, scan_brackets. rewrite Hopen, Hclose. by cbn. }
    destruct (reg_fields st1 e) as (Ht2 & Hp2 & He2 & Hi2 & Hr2 & Hw2).
    rewrite scan_record_open by congruence.
    destruct (IH (reg st1 e)) as (Ht & Hp & He & Hi & Hr & Hw); [congruence|].
    rewrite Ht, Hp, He, Hi, Hr, Hw, Ht2, Hp2, Hi2, Hr2, Hw2, Ht1, Hp1, Hi1, Hr1, Hw1.
    cbn [existsb concat_str foldr]. fold (concat_str l).
    repeat split.
    + destruct (isPart st); [by rewrite append_assoc|done].
    + by rewrite orb_assoc.
    + rewrite andb_orb_distrib_l. by rewrite orb_assoc.
    + rewrite andb_orb_distrib_l. by rewrite orb_assoc.
Qed.

(** A memory operand [pre [ inner ]] with a register among [inner]: when the
    closing bracket is read, the bracketed text is entered into [uses] if
    the operand is read and into [defs] if it is written. *)
Lemma scan_bracketed (pre inner : list RepObject) (defs uses : list string) :
  Forall not_bracket pre → Forall not_bracket inner →
  existsb is_Register inner = true →
  let key := "[" +:+ concat_str inner +:+ "]" in
  let st := scan_with reg (scan_init defs uses)
              (pre ++ [TextObj "["] ++ inner ++ [TextObj "]"]) in
  thisDynamic st = key
  ∧ (isRead opType = true → key ∈ scan_uses st)
  ∧ (isWrite opType = true → key ∈ scan_defs st).
Proof.
  intros Hpre Hinner Hreg. cbv zeta.
  change ([TextObj "["] ++ inner ++ [TextObj "]"])
    with (TextObj "[" :: inner ++ [TextObj "]"]).
  rewrite scan_with_app, scan_with_cons, scan_with_app, scan_with_cons.
  change (scan_with reg ?st []) with st.
  set (st0 := scan_with reg (scan_init defs uses) pre).
  destruct (scan_plain pre (scan_init defs uses) Hpre eq_refl)
    as (Ht0 & Hp0 & He0 & _). fold st0 in Ht0, Hp0, He0. cbn in Ht0, Hp0.
  set (st1 := scan_record (reg (scan_brackets st0 (TextObj "[")) (TextObj "["))).
  assert (thisDynamic st1 = "[" ∧ isPart st1 = true ∧ eor st1 = false)
    as (Ht1 & Hp1 & He1).
  { unfold st1. rewrite reg_other by done.
    rewrite scan_record_open; unfold scan_brackets; rewrite Hp0, Ht0; by cbn. }
  set (st2 := scan_with reg st1 inner).
  destruct (scan_plain inner st1 Hinner He1) as (Ht2 & Hp2 & He2 & Hi2 & Hr2 & Hw2).
  fold st2 in Ht2, Hp2, He2, Hi2, Hr2, Hw2.
  rewrite Hp1, Ht1 in Ht2. rewrite Hp1 in Hp2. rewrite Hreg in Hi2, Hr2, Hw2.
  rewrite orb_true_r in Hi2. rewrite reg_other by done.
  set (st3 := scan_brackets st2 (TextObj "]")).
  assert (thisDynamic st3 = "[" +:+ concat_str inner +:+ "]"
          ∧ eor st3 = true ∧ isInstance st3 = true
          ∧ scan_isRead st3 = scan_isRead st2
          ∧ scan_isWrite st3 = scan_isWrite st2
          ∧ scan_uses st3 = scan_uses st2 ∧ scan_defs st3 = scan_defs st2)
    as (Ht3 & He3 & Hi3 & Hr3 & Hw3 & Hu3 & Hd3).
  { unfold st3, scan_brackets. rewrite Hp2, Ht2. cbn.
    by rewrite append_assoc. }
  unfold scan_record. rewrite Hi3, He3. cbn [andb]. cbn [thisDynamic scan_uses scan_defs].
  rewrite Ht3, Hr3, Hw3, Hr2, Hw2. cbn [andb].
  split; [done|]. split.
  - intros ->. rewrite orb_true_r. case_bool_decide as Hin; cbn.
    + done.
    + apply elem_of_app. right. by left.
  - intros ->. rewrite orb_true_r. case_bool_decide as Hin; cbn.
    + done.
    + apply elem_of_app. right. by left.
Qed.

End Scan_facts.

Lemma Lab3_memory_operand_scan (opType : RefType) (l : list RepObject)
    (defs uses : list string) :
  Lab3.memory_operand opType l defs uses
  = (scan_defs (scan_with (Lab3.scan_register opType) (scan_init defs uses) l),
     scan_uses (scan_with (Lab3.scan_register opType) (scan_init defs uses) l)).
Proof. reflexivity. Qed.

Lemma Lab4_memory_operand_scan (opType : RefType) (l : list RepObject)
    (defs uses : list string) :
  Lab4.memory_operand opType l defs uses
  = (scan_defs (scan_with (Lab4.scan_register opType) (scan_init defs uses) l),
     scan_uses (scan_with (Lab4.scan_register opType) (scan_init defs uses) l)).
Proof. reflexivity. Qed.

(** In both scripts the bracketed text of a register-indexed memory operand
    is the key of the memory cell: once the closing bracket is read it is in
    [uses] if the operand is read and in [defs] if it is written. *)
Lemma Lab3_memory_cell_key (opType : RefType) (pre inner : list RepObject)
    (defs uses : list string) :
  Forall not_bracket pre → Forall not_bracket inner →
  existsb is_Register inner = true →
  let key := "[" +:+ concat_str inner +:+ "]" in
  let result := Lab3.memory_operand opType
                  (pre ++ [TextObj "["] ++ inner ++ [TextObj "]"]) defs uses in
  (isRead opType = true → key ∈ result.2)
  ∧ (isWrite opType = true → key ∈ result.1).
Proof.
  intros Hpre Hinner Hreg. cbv zeta. rewrite Lab3_memory_operand_scan. cbn [fst snd].
  eapply (scan_bracketed opType (Lab3.scan_register opType)); [| |done..].
  - intros st e He. unfold Lab3.scan_register. by rewrite He.
  - intros st e He. unfold Lab3.scan_register. by rewrite He.
Qed.

Lemma Lab4_memory_cell_key (opType : RefType) (pre inner : list RepObject)
    (defs uses : list string) :
  Forall not_bracket pre → Forall not_bracket inner →
  existsb is_Register inner = true →
  let key := "[" +:+ concat_str inner +:+ "]" in
  let result := Lab4.memory_operand opType
                  (pre ++ [TextObj "["] ++ inner ++ [TextObj "]"]) defs uses in
  (isRead opType = true → key ∈ result.2)
  ∧ (isWrite opType = true → key ∈ result.1).
Proof.
  intros Hpre Hinner Hreg. cbv zeta. rewrite Lab4_memory_operand_scan. cbn [fst snd].
  eapply (scan_bracketed opType (Lab4.scan_register opType)); [| |done..].
  - intros st e He. unfold Lab4.scan_register. by rewrite He.
  - intros st e He. unfold Lab4.scan_register. by rewrite He.
Qed.

(** [uses] only grows along the loop of [Lab4_networkx.py]. *)
Lemma Lab4_scan_uses_grow (opType : RefType) (l : list RepObject)
    (st : OperandScan) (x : string) :
  x ∈ scan_uses st → x ∈ scan_uses (scan_with (Lab4.scan_register opType) st l).
Proof.
  revert st. induction l as [|e l IH]; intros st Hx; [done|].
  unfold scan_with. cbn [foldl]. apply IH.
  unfold scan_record, Lab4.scan_register, scan_brackets.
  repeat (match goal with |- context [if ?b then _ else _] => destruct b end;
          cbn [scan_uses]);
    repeat first [done | apply append_new_keeps
                  | apply elem_of_app; left].
Qed.

(** In [Lab4_networkx.py] every register object of a memory operand that is
    read or written ends among the uses, inside the brackets or not. *)
Lemma Lab4_registers_are_uses (opType : RefType) (l : list RepObject)
    (defs uses : list string) (r : string) :
  isRead opType || isWrite opType = true → RegisterObj r ∈ l →
  r ∈ (Lab4.memory_operand opType l defs uses).2.
Proof.
  intros Hdir Hin. rewrite Lab4_memory_operand_scan. cbn [snd].
  apply list_elem_of_split in Hin as (l1 & l2 & ->).
  unfold scan_with. rewrite foldl_app. cbn [foldl].
  apply Lab4_scan_uses_grow.
  set (st := foldl _ _ l1). clearbody st.
  assert (r ∈ scan_uses (Lab4.scan_register opType
                           (scan_brackets st (RegisterObj r)) (RegisterObj r)))
    as Hr.
  { unfold Lab4.scan_register, scan_brackets. cbn.
    destruct (isRead opType), (isWrite opType); try done; cbn;
      repeat first [apply append_new_here | apply append_new_keeps]. }
  revert Hr. generalize (Lab4.scan_register opType
                           (scan_brackets st (RegisterObj r)) (RegisterObj r)).
  intros st' Hr. unfold scan_record.
  repeat (match goal with |- context [if ?b then _ else _] => destruct b end;
          cbn [scan_uses]);
    repeat first [done | apply elem_of_app; left].
Qed.

Lemma scan_record_unread (st : OperandScan) :
  scan_isRead st = false →
  scan_isRead (scan_record st) = false ∧ scan_uses (scan_record st) = scan_uses st.
Proof.
  intros Hr. unfold scan_record. destruct (isInstance st && eor st); [|done].
  cbn [scan_isRead scan_uses]. by rewrite Hr, andb_false_r.
Qed.

Lemma Lab3_scan_register_unread (opType : RefType) (st : OperandScan)
    (e : RepObject) :
  isRead opType = false →
  scan_isRead (Lab3.scan_register opType st e) = scan_isRead st
  ∧ scan_uses (Lab3.scan_register opType st e) = scan_uses st.
Proof.
  intros Hr. unfold Lab3.scan_register. destruct (is_Register e); [|done].
  cbn [scan_isRead scan_uses]. by rewrite Hr.
Qed.

(** In [Lab3_Plugin.py] a memory operand that is written and not read adds
    nothing to [uses]: its registers go to [defs]. *)
Lemma Lab3_written_operand_adds_no_use (opType : RefType) (l : list RepObject)
    (defs uses : list string) :
  isRead opType = false →
  (Lab3.memory_operand opType l defs uses).2 = uses.
Proof.
  intros Hread. rewrite Lab3_memory_operand_scan. cbn [snd].
  assert (∀ st, scan_isRead st = false →
                scan_isRead (scan_with (Lab3.scan_register opType) st l) = false
                ∧ scan_uses (scan_with (Lab3.scan_register opType) st l)
                  = scan_uses st) as Hinv.
  { induction l as [|e l IH]; intros st Hst; [done|].
    rewrite scan_with_cons.
    destruct (Lab3_scan_register_unread opType (scan_brackets st e) e Hread)
      as [Hr1 Hu1].
    destruct (scan_record_unread
                (Lab3.scan_register opType (scan_brackets st e) e)) as [Hr2 Hu2].
    { by rewrite Hr1. }
    destruct (IH _ Hr2) as [-> ->]. by rewrite Hu2, Hu1. }
  by destruct (Hinv (scan_init defs uses) eq_refl) as [_ ->].
Qed.

(** C6.  For the written operand [dword ptr [EAX + 0x4]]
    [Lab3_Plugin.operandRegisterHelper] puts the register [EAX] into
    [defs] and leaves [uses] empty; [Lab4_networkx.operandRegisterHelper]
    puts it into [uses].  Both enter the bracketed text into [defs]. *)
Theorem written_operand_register :
  Lab3.memory_operand WRITE store_operand [] [] = (["EAX"; "[EAX + 0x4]"], [])
  ∧ Lab4.memory_operand WRITE store_operand [] [] = (["[EAX + 0x4]"], ["EAX"]).
Proof. split; vm_compute; reflexivity. Qed.

(** ** Sorting *)

Section Sort_facts.
Context {A : Type} (le : A → A → bool).
Hypothesis le_total : ∀ x y, le x y = true ∨ le y x = true.
Hypothesis le_trans : ∀ x y z, le x y = true → le y z = true → le x z = true.

Lemma insert_sorted_perm (x : A) (l : list A) : insert_sorted le x l ≡ₚ x :: l.
Proof.
  induction l as [|y l IH]; cbn [insert_sorted]; [done|].
  destruct (le y x); [|done]. rewrite IH. apply Permutation_swap.
Qed.

Lemma stable_sort_acc_perm (l acc : list A) :
  foldl (fun acc x => insert_sorted le x acc) acc l ≡ₚ acc ++ l.
Proof.
  revert acc. induction l as [|x l IH]; intros acc; cbn [foldl].
  - by rewrite app_nil_r.
  - rewrite IH, insert_sorted_perm. cbn [app]. apply Permutation_middle.
Qed.

Lemma stable_sort_perm (l : list A) : stable_sort le l ≡ₚ l.
Proof. unfold stable_sort. by rewrite stable_sort_acc_perm. Qed.

Lemma insert_sorted_sorted (x : A) (l : list A) :
  StronglySorted (fun a b => le a b = true) l →
  StronglySorted (fun a b => le a b = true) (insert_sorted le x l).
Proof.
  induction 1 as [|y l Hl IH Hy]; cbn [insert_sorted].
  - repeat constructor.
  - destruct (le y x) eqn:Hyx.
    + constructor; [done|]. rewrite insert_sorted_perm. by constructor.
    + assert (le x y = true) as Hxy by (destruct (le_total x y); congruence).
      constructor; [by constructor|]. constructor; [done|].
      eapply Forall_impl; [exact Hy|]. intros z Hz. by eapply le_trans.
Qed.

Lemma stable_sort_sorted (l : list A) :
  StronglySorted (fun a b => le a b = true) (stable_sort le l).
Proof.
  unfold stable_sort.
  apply (foldl_invariant _ (StronglySorted (fun a b => le a b = true)));
    [constructor|].
  intros acc x _ Hacc. by apply insert_sorted_sorted.
Qed.

End Sort_facts.

Lemma for_each_invariant {A S} (body : S → A → result S) (P : S → Prop)
    (l : list A) (s r : S) :
  P s → (∀ s x s', x ∈ l → P s → body s x = Ok s' → P s') →
  for_each body s l = Ok r → P r.
Proof.
  revert s. induction l as [|x l IH]; intros s Hs Hstep; cbn [for_each].
  - by intros [= <-].
  - destruct (body s x) as [s'|e] eqn:Hx; cbn; [|done].
    apply IH; [by eapply Hstep; [left|..]|].
    intros. eapply Hstep; [by right|done..].
Qed.

Lemma for_each_total {A S} (body : S → A → result S) (P : S → Prop)
    (l : list A) (s : S) :
  P s → (∀ s x, x ∈ l → P s → ∃ s', body s x = Ok s' ∧ P s') →
  ∃ r, for_each body s l = Ok r ∧ P r.
Proof.
  revert s. induction l as [|x l IH]; intros s Hs Hstep; cbn [for_each].
  - eauto.
  - destruct (Hstep s x) as (s' & -> & Hs'); [by left|done|]. cbn.
    apply IH; [done|]. intros. apply Hstep; [by right|done].
Qed.

(** The keys a sort computes before it compares. *)
Lemma sort_keys {A K} (key : A → result K) (l : list A) (acc keyed : list (K * A)) :
  for_each (fun acc x => k ← key x; Ok (acc ++ [(k, x)])) acc l = Ok keyed →
  ∃ new, keyed = acc ++ new ∧ map snd new = l
         ∧ Forall (fun kx => key (snd kx) = Ok (fst kx)) new.
Proof.
  revert acc. induction l as [|x l IH]; intros acc; cbn [for_each].
  - intros [= <-]. exists []. by rewrite app_nil_r.
  - destruct (key x) as [k|e] eqn:Hk; cbn; [|done].
    intros (new & -> & <- & Hnew)%IH. exists ((k, x) :: new).
    rewrite <- app_assoc. split; [done|]. split; [done|]. by constructor.
Qed.

Lemma sort_keys_total {A K} (key : A → result K) (l : list A) (acc : list (K * A)) :
  Forall (fun x => ∃ k, key x = Ok k) l →
  ∃ keyed, for_each (fun acc x => k ← key x; Ok (acc ++ [(k, x)])) acc l = Ok keyed.
Proof.
  intros Hl. revert acc. induction Hl as [|x l [k Hk] _ IH]; intros acc;
    cbn [for_each]; [eauto|].
  rewrite Hk. cbn. apply IH.
Qed.

(** [instruction_list.sort(key=...)] arranges the addresses in ascending
    order and loses none; that it returns shows that every text is an
    address. *)
Lemma sort_by_address_ascending `{IntReader} (l sorted_list : list string) :
  sort_by_address l = Ok sorted_list →
  sorted_list ≡ₚ l ∧ ascending sorted_list ∧ Forall is_address sorted_list.
Proof.
  unfold sort_by_address.
  destruct (for_each _ [] l) as [keyed|e] eqn:Hkeys; cbn; [|done].
  intros [= <-]. apply sort_keys in Hkeys as (new & -> & <- & Hnew).
  cbn [app] in *. set (le := fun a b : Z * string => (a.1 <=? b.1)%Z).
  pose proof (stable_sort_perm le new) as Hperm.
  split; [by rewrite Hperm|].
  assert (StronglySorted (fun a b => le a b = true) (stable_sort le new)) as Hs.
  { apply stable_sort_sorted.
    - intros x y. unfold le. rewrite !Z.leb_le. lia.
    - intros x y z. unfold le. rewrite !Z.leb_le. lia. }
  rewrite <- Hperm in Hnew. clear Hperm. split.
  - unfold ascending.
    induction Hs as [|kx rest Hrest IH Hall]; cbn [map]; [constructor|].
    apply Forall_cons in Hnew as [Hkx Hnew].
    constructor; [by apply IH|].
    apply Forall_fmap. eapply Forall_impl.
    + apply Forall_and. split; [exact Hall|exact Hnew].
    + intros ky [Hle Hky]. exists kx.1, ky.1. unfold le in Hle.
      apply Z.leb_le in Hle. done.
  - apply Forall_fmap. eapply Forall_impl; [exact Hnew|].
    intros kx Hkx. by exists kx.1.
Qed.

(** ** The dependency graph of [Lab3_Plugin.py] *)

Lemma dd_node_later (dependsOn : gmap string (list string)) (st : NodeLoop)
    (addr : string) :
  address_to_node st ≠ ∅ →
  Lab3.dd_node dependsOn st addr
  = {| dot_graph := dot_graph st
                    +:+ node_line (node_name (node_counter st))
                                  (Lab3.dd_label dependsOn addr);
       node_counter := node_counter st + 1;
       address_to_node := <[addr := node_counter st]> (address_to_node st) |}.
Proof.
  intros Hne. unfold Lab3.dd_node.
  by rewrite bool_decide_eq_false_2 by by rewrite map_size_empty_iff.
Qed.

Lemma dd_node_first (dependsOn : gmap string (list string)) (header : string)
    (k : nat) (addr : string) :
  Lab3.dd_node dependsOn
    {| dot_graph := header; node_counter := k; address_to_node := ∅ |} addr
  = {| dot_graph := (header +:+ node_line "n0" START)
                    +:+ node_line (node_name k) (Lab3.dd_label dependsOn addr);
       node_counter := k + 1;
       address_to_node := <[addr := k]> (<[START := 0]> ∅) |}.
Proof.
  unfold Lab3.dd_node. cbn [address_to_node].
  by rewrite bool_decide_eq_true_2 by apply map_size_empty.
Qed.

(** The loop over [instruction_list], once [address_to_node] is not empty:
    one line per address, numbered on from [node_counter]. *)
Lemma dd_node_fold (dependsOn : gmap string (list string)) (l : list string)
    (st : NodeLoop) :
  address_to_node st ≠ ∅ →
  dot_graph (foldl (Lab3.dd_node dependsOn) st l)
  = dot_graph st +:+ node_lines node_line (Lab3.dd_label dependsOn) (node_counter st) l
  ∧ ∀ k, is_Some (address_to_node (foldl (Lab3.dd_node dependsOn) st l) !! k)
         ↔ is_Some (address_to_node st !! k) ∨ k ∈ l.
Proof.
  revert st. induction l as [|addr l IH]; intros st Hne; cbn [foldl node_lines].
  - rewrite append_empty_r. split; [done|]. intros k. split; [by left|].
    intros [?|Hin]; [done|]. by apply elem_of_nil in Hin.
  - rewrite dd_node_later by done.
    match goal with |- context [foldl _ ?st1 l] =>
      destruct (IH st1) as [Htext Hkeys]; [apply insert_non_empty|] end.
    rewrite Htext. cbn [dot_graph node_counter address_to_node] in *.
    split; [by rewrite append_assoc, Nat.add_1_r|].
    intros k. rewrite Hkeys, elem_of_cons.
    destruct (decide (addr = k)) as [-> |Hk].
    + rewrite lookup_insert_eq. split; [intros _; by right; left|by eauto].
    + rewrite lookup_insert_ne by done. split.
      * intros [?|?]; [by left|by right; right].
      * intros [?|[?|?]]; [by left|congruence|by right].
Qed.

(** The whole loop, from the empty [address_to_node]: the node [n0] of
    [START] first, when there is an instruction, then the nodes [n1],
    [n2], ... of the addresses in the order of the list. *)
Lemma dd_node_fold_initial (dependsOn : gmap string (list string))
    (header : string) (l : list string) :
  let nodes := foldl (Lab3.dd_node dependsOn)
                     {| dot_graph := header; node_counter := 1;
                        address_to_node := ∅ |} l in
  dot_graph nodes
  = header +:+ start_line l +:+ node_lines node_line (Lab3.dd_label dependsOn) 1 l
  ∧ ∀ k, is_Some (address_to_node nodes !! k) ↔ l ≠ [] ∧ (k = START ∨ k ∈ l).
Proof.
  destruct l as [|addr l]; cbn [foldl start_line node_lines].
  - cbn. split; [by rewrite !append_empty_r|].
    intros k. rewrite lookup_empty. split.
    + by intros [? [=]].
    + by intros [? _].
  - cbv zeta. rewrite dd_node_first.
    match goal with |- context [foldl _ ?st1 l] =>
      destruct (dd_node_fold dependsOn l st1) as [Htext Hkeys];
        [apply insert_non_empty|] end.
    rewrite Htext. cbn [dot_graph node_counter address_to_node] in *.
    split; [by rewrite !append_assoc|].
    intros k. rewrite Hkeys, elem_of_cons.
    destruct (decide (addr = k)) as [-> |Hk].
    + rewrite lookup_insert_eq. split; [|by eauto].
      intros _. split; [done|]. by right; left.
    + rewrite lookup_insert_ne by done.
      destruct (decide (START = k)) as [<- |Hs].
      * rewrite lookup_insert_eq. split; [|by eauto].
        intros _. split; [done|]. by left.
      * rewrite lookup_insert_ne, lookup_empty by done. split.
        -- intros [[? [=]]|?]. split; [done|]. by right; right.
        -- intros [_ [?|[?|?]]]; [congruence..|by right].
Qed.

Lemma edge_lines_fold (edges : list (nat * string)) (init : string) :
  foldl (fun text i => text +:+ "    " +:+ snd i +:+ ";" +:+ newline) init edges
  = init +:+ edge_lines (map snd edges).
Proof.
  revert init. induction edges as [|e edges IH]; intros init; cbn [foldl map].
  - cbn. by rewrite append_empty_r.
  - rewrite IH. unfold edge_lines. cbn [foldr]. by rewrite !append_assoc.
Qed.

Lemma record_flow_list (instruction : Instruction) (addr_str : string)
    (c : Collected) :
  instruction_list (record_flow instruction addr_str c) = instruction_list c.
Proof.
  unfold record_flow.
  by destruct (flowType_isJump instruction), (getFlows instruction).
Qed.

(** One instruction more keeps [collect_inv] and extends the list by its
    address. *)
Lemma collect_instruction_inv `{SetOrder} (st st' : Lab3.Collecting)
    (instruction : Instruction) :
  collect_inv st →
  Lab3.collect_instruction st instruction = Ok st' →
  collect_inv st'
  ∧ instruction_list (Lab3.collected st')
    = instruction_list (Lab3.collected st) ++ [slice_from 2 (getAddress instruction)].
Proof.
  intros (Hrec & Hsrc & Hsto). unfold Lab3.collect_instruction.
  generalize (slice_from 2 (getAddress instruction)). intros addr_str.
  destruct (Lab3.analyze_instruction _ _ _) as [[globals value]|e]; cbn; [|done].
  destruct value as [[[label defs] uses]|]; [|done].
  unfold DDStorage.processDataDep. intros [= <-]. unfold collect_inv.
  cbn [Lab3.collected Lab3.dependsOn Lab3.storage]. rewrite !record_flow_list.
  cbn [instruction_list]. split; [|done]. split; [|split].
  - intros addr [Hin|Hin%list_elem_of_singleton]%elem_of_app.
    + destruct (decide (addr_str = addr)) as [-> |Hne].
      * by rewrite lookup_insert_eq.
      * rewrite lookup_insert_ne by done. by apply Hrec.
    + subst addr. by rewrite lookup_insert_eq.
  - intros addr sources s Hlk Hs. rewrite elem_of_app.
    destruct (decide (addr_str = addr)) as [-> |Hne].
    + rewrite lookup_insert_eq in Hlk. injection Hlk as <-.
      apply resolve_loop_elem in Hs as [Hs|[(loc & _ & Hloc)|[-> _]]].
      * by apply elem_of_nil in Hs.
      * right; left. by eapply Hsto.
      * by left.
    + rewrite lookup_insert_ne in Hlk by done.
      destruct (Hsrc _ _ _ Hlk Hs) as [?|?]; [by left|by right; left].
  - intros loc a. rewrite define_loop_lookup, elem_of_app.
    case_bool_decide.
    + intros [= <-]. right. by apply list_elem_of_singleton.
    + intros Hlk. left. by eapply Hsto.
Qed.

(** [collect_instructions] ends with the addresses of the body in
    ascending order, and with [collect_inv]. *)
Lemma collect_instructions_inv `{SetOrder} `{IntReader} (globals : gmap string DefUse)
    (f : Func) (st : Lab3.Collecting) :
  Lab3.collect_instructions globals f = Ok st →
  collect_inv st
  ∧ instruction_list (Lab3.collected st)
    ≡ₚ map (fun i => slice_from 2 (getAddress i)) (body_instructions f)
  ∧ ascending (instruction_list (Lab3.collected st))
  ∧ Forall is_address (instruction_list (Lab3.collected st)).
Proof.
  unfold Lab3.collect_instructions.
  destruct (for_each _ _ (body_instructions f)) as [st0|e] eqn:Hloop; cbn; [|done].
  destruct (sort_by_address _) as [sorted_list|e] eqn:Hsort; cbn; [|done].
  intros [= <-]. cbn [Lab3.collected instruction_list].
  apply sort_by_address_ascending in Hsort as (Hperm & Hasc & Haddr).
  assert (collect_inv st0 ∧ instruction_list (Lab3.collected st0)
          = map (fun i => slice_from 2 (getAddress i)) (body_instructions f))
    as [(Hrec & Hsrc & Hsto) Hlist].
  { revert Hloop. generalize (body_instructions f). intros l.
    set (s0 := {| Lab3.collected := _ |}).
    assert (collect_inv s0) as Hs0.
    { repeat split; cbn.
      - by intros addr Hin%elem_of_nil.
      - intros ???. by rewrite lookup_empty.
      - intros ??. unfold DDStorage.init. by rewrite lookup_empty. }
    change (map (fun i => slice_from 2 (getAddress i)) l)
      with (instruction_list (Lab3.collected s0)
            ++ map (fun i => slice_from 2 (getAddress i)) l).
    revert Hs0. generalize s0. clear s0.
    induction l as [|i l IH]; intros s0 Hs0; cbn [for_each map].
    - intros [= <-]. by rewrite app_nil_r.
    - destruct (Lab3.collect_instruction s0 i) as [s1|e] eqn:Hstep; cbn; [|done].
      apply collect_instruction_inv in Hstep as [Hs1 Hl1]; [|done].
      intros [Hinv ->]%IH; [|done]. rewrite Hl1, <- app_assoc. done. }
  split; [|split; [by rewrite Hperm, Hlist|done]].
  split; [|split]; cbn [Lab3.collected Lab3.dependsOn Lab3.storage instruction_list].
  - intros addr Hin. apply Hrec. by rewrite <- Hperm.
  - intros addr sources s Hlk Hs. rewrite Hperm. by eapply Hsrc.
  - intros loc a Hlk. rewrite Hperm. by eapply Hsto.
Qed.

(** [create_dot_graph_DD] returns on what [collect_instructions] hands it,
    and its text is the header, the node lines in the order of the
    list and the lines of the edges. *)
Lemma create_dot_graph_DD_text (f : Func) (l : list string)
    (dependsOn : gmap string (list string)) :
  (∀ addr, addr ∈ l → is_Some (dependsOn !! addr)) →
  (∀ addr sources s, dependsOn !! addr = Some sources → s ∈ sources →
                     s = START ∨ s ∈ l) →
  ∃ edges,
    Lab3.create_dot_graph_DD f l dependsOn
    = Ok (Lab3_graph_text f l dependsOn edges).
Proof.
  intros Hrec Hsrc. unfold Lab3.create_dot_graph_DD, Lab3_graph_text.
  destruct (dd_node_fold_initial dependsOn (graph_header f) l) as [Htext Hkeys].
  cbv zeta in Htext, Hkeys.
  set (nodes := foldl (Lab3.dd_node dependsOn) _ l) in *.
  destruct (for_each_total (Lab3.dd_edges dependsOn (address_to_node nodes))
              (fun _ => True) (map_to_list (address_to_node nodes)) [])
    as (allDep & -> & _); [done| |].
  - intros acc [addr node] Hitem%elem_of_map_to_list _.
    assert (l ≠ [] ∧ (addr = START ∨ addr ∈ l)) as [Hl Haddr]
      by (apply Hkeys; eauto).
    unfold Lab3.dd_edges. case_bool_decide as Hstart; [|eauto].
    destruct Haddr as [?|Hin]; [done|].
    destruct (Hrec addr Hin) as [sources Hsources].
    unfold subscript. rewrite Hsources. cbn [mbind result_bind].
    apply for_each_total; [done|]. intros acc' s Hs _.
    case_bool_decide; [eauto|].
    destruct (Hkeys s) as [_ [target Htarget]].
    { split; [done|]. by eapply Hsrc. }
    rewrite Htarget. cbn [mbind result_bind]. eauto.
  - cbn. eexists. rewrite edge_lines_fold, Htext. by rewrite !append_assoc.
Qed.

Lemma push_pop_ret_sources `{SetOrder} `{IntReader} :
  Lab3_sources push_pop_ret_func ["401002"] = Ok [Some ["401001"; "401000"]].
Proof. vm_compute. reflexivity. Qed.

(** ** The dependency graph of [Lab4_networkx.py] *)

(** The loop over [instruction_list]: one line per address, numbered on from
    [node_counter]; the edges gathered leave from these addresses. *)
Lemma Lab4_dd_node_fold (all_dependencies : gmap string Dependencies)
    (l : list string) (st : Lab4.GraphLoop) :
  let st' := foldl (Lab4.dd_node all_dependencies) st l in
  Lab4.graph_text st'
  = Lab4.graph_text st
    +:+ node_lines Lab4.node_line (Lab4.dd_label all_dependencies)
                   (Lab4.graph_counter st) l
  ∧ (∀ k, k ∈ l → is_Some (Lab4.graph_nodes st' !! k))
  ∧ (∀ k, is_Some (Lab4.graph_nodes st !! k) → is_Some (Lab4.graph_nodes st' !! k))
  ∧ (∀ e, e ∈ Lab4.graph_edges st' → e ∈ Lab4.graph_edges st ∨ e.2 ∈ l).
Proof.
  revert st. induction l as [|addr l IH]; intros st; cbn [foldl node_lines].
  - cbv zeta. rewrite append_empty_r. split; [done|]. split; [|by eauto].
    by intros k Hk%elem_of_nil.
  - destruct (IH (Lab4.dd_node all_dependencies st addr))
      as (Htext & Hnew & Hold & Hedges).
    cbv zeta. split; [|split; [|split]].
    + rewrite Htext.
      change (Lab4.graph_text (Lab4.dd_node all_dependencies st addr))
        with (Lab4.graph_text st
              +:+ Lab4.node_line (node_name (Lab4.graph_counter st))
                                 (Lab4.dd_label all_dependencies addr)).
      change (Lab4.graph_counter (Lab4.dd_node all_dependencies st addr))
        with (Lab4.graph_counter st + 1).
      by rewrite append_assoc, Nat.add_1_r.
    + intros k [-> |Hk]%elem_of_cons; [|by apply Hnew].
      apply Hold. unfold Lab4.dd_node. cbn. by rewrite lookup_insert_eq.
    + intros k Hk. apply Hold. unfold Lab4.dd_node. cbn.
      destruct (decide (addr = k)) as [-> |Hne].
      * by rewrite lookup_insert_eq.
      * by rewrite lookup_insert_ne.
    + intros e [He|He]%Hedges; [|by right; right].
      unfold Lab4.dd_node in He. cbn [Lab4.graph_edges] in He.
      apply elem_of_app in He as [He|He]; [by left|]. right.
      destruct (all_dependencies !! addr) as [deps|]; [|by apply elem_of_nil in He].
      apply list_elem_of_fmap in He as (dep & -> & _). by left.
Qed.

(** [int] reads a run of hexadecimal digits, also with [00] in front. *)
Lemma int16_hex `{IntReader} (addr : string) (n : N) :
  hex_value addr = Some n → int16 addr = Ok (Z.of_N n).
Proof. intros Hn. unfold int16. by rewrite Hn. Qed.

Lemma hex_text_is_address `{IntReader} (addr : string) :
  hex_text addr → is_address addr.
Proof. intros [n Hn]. exists (Z.of_N n). by apply int16_hex. Qed.

Lemma hex_value_prefixed (addr : string) (n : N) :
  hex_value addr = Some n → hex_value ("00" +:+ addr) = Some n.
Proof.
  destruct addr as [|c addr]; [done|]. intros Hn.
  change ("00" +:+ String c addr) with (String "0" (String "0" (String c addr))).
  exact Hn.
Qed.

Lemma hex_text_prefixed (addr : string) : hex_text addr → hex_text ("00" +:+ addr).
Proof. intros [n Hn]. exists n. by apply hex_value_prefixed. Qed.

(** The loop that writes the edges appends to the text it is given. *)
Lemma Lab4_edges_text (nodes : gmap string nat) (edges : list (string * string))
    (init : string) :
  Forall (fun e => is_Some (nodes !! e.2)) edges →
  ∃ rest, for_each (Lab4.write_edge nodes) init edges = Ok (init +:+ rest).
Proof.
  intros Hedges. revert init.
  induction Hedges as [|[dep src] edges [node Hnode] _ IH]; intros init;
    cbn [for_each].
  - exists EmptyString. by rewrite append_empty_r.
  - cbn [snd] in Hnode.
    assert (Lab4.write_edge nodes init (dep, src)
            = Ok (init +:+ edge_line (node_name node)
                                     (node_name (default 0 (nodes !! dep)))))
      as -> by (unfold Lab4.write_edge, subscript; by rewrite Hnode).
    cbn [mbind result_bind].
    destruct (IH (init +:+ edge_line (node_name node)
                                     (node_name (default 0 (nodes !! dep)))))
      as [rest ->].
    eexists. by rewrite append_assoc.
Qed.

(** [generate_DD_dot_graph] returns on every list of runs of hexadecimal
    digits, and its text is the header, the node of [START], the node
    lines in the order of the list and the lines of the edges. *)
Lemma generate_DD_dot_graph_text `{IntReader} (f : Func) (l : list string)
    (all_dependencies : gmap string Dependencies) :
  Forall hex_text l →
  ∃ edges, Lab4.generate_DD_dot_graph f l all_dependencies
           = Ok (Lab4_graph_text f l all_dependencies edges).
Proof.
  intros Hl. unfold Lab4.generate_DD_dot_graph, Lab4_graph_text.
  set (init := {| Lab4.graph_text := _ |}).
  destruct (Lab4_dd_node_fold all_dependencies
              (map (fun instr => "00" +:+ instr) l) init)
    as (Htext & Hnew & _ & Hedges).
  cbv zeta in Htext, Hnew, Hedges.
  set (st := foldl (Lab4.dd_node all_dependencies) init _) in *.
  assert (∀ e, e ∈ Lab4.graph_edges st →
               e.2 ∈ map (fun instr => "00" +:+ instr) l) as Hsrc.
  { intros e [He|He]%Hedges; [|done]. by apply elem_of_nil in He. }
  unfold Lab4.sort_edges.
  destruct (sort_keys_total (fun x : string * string => int16 x.2)
              (Lab4.graph_edges st) []) as [keyed Hkeyed].
  { apply Forall_forall. intros e He%Hsrc.
    apply list_elem_of_fmap in He as (addr & -> & Haddr).
    eapply Forall_forall in Hl; [|done].
    by apply hex_text_is_address, hex_text_prefixed. }
  rewrite Hkeyed. cbn [mbind result_bind].
  apply sort_keys in Hkeyed as (new & -> & Hsnd & _). cbn [app].
  destruct (Lab4_edges_text (Lab4.graph_nodes st)
              (map snd (stable_sort (fun a b => (a.1 <=? b.1)%Z) new))
              (Lab4.graph_text st +:+ newline)) as [rest ->].
  { apply Forall_forall. intros e He. apply Hnew, Hsrc. rewrite <- Hsnd.
    apply list_elem_of_fmap in He as (kx & -> & Hkx).
    apply list_elem_of_fmap. exists kx. split; [done|].
    by rewrite stable_sort_perm in Hkx. }
  cbn [mbind result_bind]. exists rest. rewrite Htext. subst init.
  cbn [Lab4.graph_text Lab4.graph_counter]. by rewrite !append_assoc.
Qed.

(** [Lab4_networkx.collect_instructions] hands on the addresses of the body
    in ascending order. *)
Lemma Lab4_collect_instructions_list `{SetOrder} `{IntReader} (globals globals' : gmap string DefUse)
    (f : Func) (l : list string) (graph : string) :
  Lab4.collect_instructions globals f = Ok (globals', (l, graph)) →
  l ≡ₚ map (fun i => slice_from 2 (getAddress i)) (body_instructions f)
  ∧ ascending l ∧ Forall is_address l.
Proof.
  unfold Lab4.collect_instructions.
  destruct (for_each _ _ (body_instructions f)) as [st0|e] eqn:Hloop; cbn [mbind result_bind]; [|done].
  destruct (sort_by_address _) as [sorted_list|e] eqn:Hsort; cbn [mbind result_bind]; [|done].
  match goal with |- context [create_dot_graph ?a ?b ?c] =>
    destruct (create_dot_graph a b c) as [text|e] end; cbn [mbind result_bind]; [|done].
  intros [= _ <- _].
  apply sort_by_address_ascending in Hsort as (Hperm & Hasc & Haddr).
  split; [|done]. rewrite Hperm. clear Hperm Hasc Haddr.
  revert Hloop. generalize (body_instructions f). intros body.
  set (s0 := {| Lab4.collected := _ |}).
  change (map (fun i => slice_from 2 (getAddress i)) body)
    with (instruction_list (Lab4.collected s0)
          ++ map (fun i => slice_from 2 (getAddress i)) body).
  generalize s0. clear s0.
  induction body as [|i body IH]; intros s0; cbn [for_each map].
  - intros [= <-]. by rewrite app_nil_r.
  - destruct (Lab4.collect_instruction s0 i) as [s1|e] eqn:Hstep; cbn [mbind result_bind]; [|done].
    intros ->%IH. revert Hstep. unfold Lab4.collect_instruction.
    generalize (slice_from 2 (getAddress i)). intros addr_str.
    destruct (Lab4.analyze_instruction _ _ _) as [[g label]|e]; cbn [mbind result_bind]; [|done].
    intros [= <-]. cbn [Lab4.collected]. rewrite record_flow_list.
    cbn [instruction_list]. by rewrite <- app_assoc.
Qed.

(** ** Iteration order of sets

    The one place where the text of the graphs depends on something the
    source does not fix: the registers of a [LEA] enter [uses] in the order
    in which Python iterates over [foundRegisters]. *)
Lemma lea_uses_follow_set_order :
  (snd <$> option_of_result
             (@Lab3.analyze_instruction first_occurrence_order ∅
                lea_instruction "401000"))
  = Some (Some ("D: EAX U: EBX, ECX", ["EAX"], ["EBX"; "ECX"]))
  ∧ (snd <$> option_of_result
               (@Lab3.analyze_instruction reverse_occurrence_order ∅
                  lea_instruction "401000"))
    = Some (Some ("D: EAX U: EBX, ECX", ["EAX"], ["ECX"; "EBX"])).
Proof. split; vm_compute; reflexivity. Qed.

(** ** More on the two scripts

    Properties of the code beyond the ones above, each numbered [X]. *)

(** *** Calls of [processDataDep] in a row *)

Lemma walk_store_cons (uses defs : list string) (addr : string)
    (rest : list (list string * list string * string))
    (self : gmap string string) :
  walk_store ((uses, defs, addr) :: rest) self
  = walk_store rest (DDStorage.processDataDep self uses defs addr).1.
Proof. reflexivity. Qed.

Lemma walk_store_lookup (calls : list (list string * list string * string))
    (self : gmap string string) (loc : string) :
  walk_store calls self !! loc
  = match last_definer loc calls with
    | Some a => Some a
    | None => self !! loc
    end.
Proof.
  revert self. induction calls as [|[[uses defs] addr] rest IH]; intros self.
  - done.
  - rewrite walk_store_cons, IH.
    cbn [last_definer]. destruct (last_definer loc rest); [done|].
    unfold DDStorage.processDataDep. cbn [fst].
    rewrite define_loop_lookup. by case_bool_decide.
Qed.

(** X1.  When a fresh [DDStorage] has gone through the calls of a path, a
    location maps to the address of the last call that defined it, and to
    nothing if none did; the list the next call returns then holds, for
    its uses, the addresses of these nearest definers, and [START] exactly
    when one of its uses has no definer on the path so far. *)
Theorem walk_resolves_to_nearest_definer
    (calls : list (list string * list string * string))
    (uses defs : list string) (addr : string) :
  let self := walk_store calls DDStorage.init in
  (∀ loc, self !! loc = last_definer loc calls)
  ∧ ∀ d, d ∈ (DDStorage.processDataDep self uses defs addr).2 ↔
         (∃ loc, loc ∈ uses ∧ last_definer loc calls = Some d)
         ∨ (d = START ∧ ∃ loc, loc ∈ uses ∧ last_definer loc calls = None).
Proof.
  cbv zeta.
  assert (∀ loc, walk_store calls DDStorage.init !! loc = last_definer loc calls)
    as Hstore.
  { intros loc. rewrite walk_store_lookup. unfold DDStorage.init.
    rewrite lookup_empty. by destruct (last_definer loc calls). }
  split; [done|]. intros d. unfold DDStorage.processDataDep. cbn [snd].
  rewrite resolve_loop_elem. split.
  - intros [Hd|[(loc & Hin & Hlk)|(-> & loc & Hin & Hlk)]].
    + by apply elem_of_nil in Hd.
    + left. exists loc. by rewrite <- Hstore.
    + right. split; [done|]. exists loc. by rewrite <- Hstore.
  - intros [(loc & Hin & Hlk)|(-> & loc & Hin & Hlk)].
    + right; left. exists loc. by rewrite Hstore.
    + right; right. split; [done|]. exists loc. by rewrite Hstore.
Qed.

(** *** The lists of [operandRegisterHelper] and [analyze_instruction] *)

Lemma append_new_NoDup (x : string) (l : list string) :
  NoDup l → NoDup (append_new x l).
Proof.
  intros Hl. unfold append_new. case_bool_decide as Hin; [done|].
  apply NoDup_app. split; [done|]. split.
  - intros y Hy [-> |Hnil%elem_of_nil]%elem_of_cons; done.
  - apply NoDup_singleton.
Qed.

Lemma register_operand_NoDup (opType : RefType) (operand : string)
    (defs uses : list string) :
  NoDup defs → NoDup uses →
  NoDup (register_operand opType operand defs uses).1
  ∧ NoDup (register_operand opType operand defs uses).2.
Proof.
  intros Hd Hu. unfold register_operand. cbn [fst snd].
  split; repeat (match goal with |- context [if ?b then _ else _] =>
                   destruct b end);
    repeat apply append_new_NoDup; done.
Qed.

Lemma scan_record_NoDup (st : OperandScan) :
  NoDup (scan_defs st) → NoDup (scan_uses st) →
  NoDup (scan_defs (scan_record st)) ∧ NoDup (scan_uses (scan_record st)).
Proof.
  intros Hd Hu. unfold scan_record.
  destruct (isInstance st && eor st); [|done]. cbn [scan_defs scan_uses].
  split.
  - case_bool_decide as Hin; cbn [negb andb]; [done|].
    destruct (scan_isWrite st); [|done].
    apply NoDup_app. split; [done|]. split; [|apply NoDup_singleton].
    by intros y Hy [-> |Hnil%elem_of_nil]%elem_of_cons.
  - case_bool_decide as Hin; cbn [negb andb]; [done|].
    destruct (scan_isRead st); [|done].
    apply NoDup_app. split; [done|]. split; [|apply NoDup_singleton].
    by intros y Hy [-> |Hnil%elem_of_nil]%elem_of_cons.
Qed.

Lemma Lab3_scan_register_NoDup (opType : RefType) (st : OperandScan)
    (e : RepObject) :
  NoDup (scan_defs st) → NoDup (scan_uses st) →
  NoDup (scan_defs (Lab3.scan_register opType st e))
  ∧ NoDup (scan_uses (Lab3.scan_register opType st e)).
Proof.
  intros Hd Hu. unfold Lab3.scan_register. destruct (is_Register e); [|done].
  cbn [scan_defs scan_uses].
  destruct (isRead opType), (isWrite opType);
    split; repeat apply append_new_NoDup; done.
Qed.

Lemma Lab4_scan_register_NoDup (opType : RefType) (st : OperandScan)
    (e : RepObject) :
  NoDup (scan_defs st) → NoDup (scan_uses st) →
  NoDup (scan_defs (Lab4.scan_register opType st e))
  ∧ NoDup (scan_uses (Lab4.scan_register opType st e)).
Proof.
  intros Hd Hu. unfold Lab4.scan_register. destruct (is_Register e); [|done].
  cbn [scan_defs scan_uses].
  destruct (isRead opType), (isWrite opType);
    split; repeat apply append_new_NoDup; done.
Qed.

Lemma scan_with_NoDup (reg : OperandScan → RepObject → OperandScan)
    (l : list RepObject) (st : OperandScan) :
  (∀ st e, NoDup (scan_defs st) → NoDup (scan_uses st) →
           NoDup (scan_defs (reg st e)) ∧ NoDup (scan_uses (reg st e))) →
  NoDup (scan_defs st) → NoDup (scan_uses st) →
  NoDup (scan_defs (scan_with reg st l)) ∧ NoDup (scan_uses (scan_with reg st l)).
Proof.
  intros Hreg. revert st. induction l as [|e l IH]; intros st Hd Hu; [done|].
  rewrite scan_with_cons.
  destruct (Hreg (scan_brackets st e) e) as [Hd1 Hu1]; [done..|].
  destruct (scan_record_NoDup _ Hd1 Hu1) as [Hd2 Hu2].
  by apply IH.
Qed.

Lemma operandRegisterHelper_NoDup (instruction : Instruction)
    (defs uses : list string) :
  NoDup defs → NoDup uses →
  (NoDup (Lab3.operandRegisterHelper instruction defs uses).1
   ∧ NoDup (Lab3.operandRegisterHelper instruction defs uses).2)
  ∧ (NoDup (Lab4.operandRegisterHelper instruction defs uses).1
     ∧ NoDup (Lab4.operandRegisterHelper instruction defs uses).2).
Proof.
  intros Hdefs Huses. split.
  - unfold Lab3.operandRegisterHelper.
    apply (foldl_invariant _ (fun p : list string * list string =>
                                NoDup p.1 ∧ NoDup p.2)).
    { by split. }
    intros [d u] i _ [Hd Hu]. cbn [fst snd] in *.
    destruct (getRegister instruction i) as [operand|].
    + by apply register_operand_NoDup.
    + rewrite Lab3_memory_operand_scan. cbn [fst snd].
      apply scan_with_NoDup; [|done..].
      intros st e. apply Lab3_scan_register_NoDup.
  - unfold Lab4.operandRegisterHelper.
    apply (foldl_invariant _ (fun p : list string * list string =>
                                NoDup p.1 ∧ NoDup p.2)).
    { by split. }
    intros [d u] i _ [Hd Hu]. cbn [fst snd] in *.
    destruct (getRegister instruction i) as [operand|].
    + by apply register_operand_NoDup.
    + rewrite Lab4_memory_operand_scan. cbn [fst snd].
      apply scan_with_NoDup; [|done..].
      intros st e. apply Lab4_scan_register_NoDup.
Qed.

(** X2.  Started on empty lists, as [analyze_instruction] does,
    [operandRegisterHelper] returns [defs] and [uses] without repetitions,
    in either script and for any operands. *)
Theorem operandRegisterHelper_no_repetition (instruction : Instruction) :
  (NoDup (Lab3.operandRegisterHelper instruction [] []).1
   ∧ NoDup (Lab3.operandRegisterHelper instruction [] []).2)
  ∧ (NoDup (Lab4.operandRegisterHelper instruction [] []).1
     ∧ NoDup (Lab4.operandRegisterHelper instruction [] []).2).
Proof. apply operandRegisterHelper_NoDup; apply NoDup_nil_2. Qed.

Ltac split_mnemonic m :=
  repeat match goal with
         | |- context [if one_of m ?l then _ else _] =>
             let H := fresh "Hm" in destruct (one_of m l) eqn:H
         end.

Lemma one_of_true (m : string) (l : list string) : one_of m l = true → m ∈ l.
Proof. unfold one_of. apply bool_decide_eq_true_1. Qed.

Lemma lea_rule_NoDup `{SetOrder} (instruction : Instruction)
    (defs uses defs' uses' : list string) :
  NoDup defs → NoDup uses →
  lea_rule instruction defs uses = Ok (defs', uses') →
  NoDup defs' ∧ NoDup uses'.
Proof.
  intros Hd Hu. unfold lea_rule.
  destruct (search_bracketed _) as [group1|]; [|done]. intros [= <- <-]. split.
  - destruct (getRegister instruction 0); [by apply append_new_NoDup|done].
  - apply (foldl_invariant _ NoDup); [done|].
    intros. by apply append_new_NoDup.
Qed.

Lemma mnemonic_rule_NoDup `{SetOrder}
    (ret_rule : list string → list string → list string * list string)
    (instruction : Instruction) (m : string) (defs uses defs' uses' : list string) :
  (∀ d u, NoDup d → NoDup u → NoDup (ret_rule d u).1 ∧ NoDup (ret_rule d u).2) →
  m ∉ ["CALL"; "LEAVE"; "STOSD.REP"] →
  NoDup defs → NoDup uses →
  mnemonic_rule ret_rule instruction m defs uses = Ok (Some (defs', uses')) →
  NoDup defs' ∧ NoDup uses'.
Proof.
  intros Hret Hm Hd Hu. unfold mnemonic_rule. split_mnemonic m;
    try (intros [= <- <-]; split; repeat apply append_new_NoDup; done);
    try (exfalso; apply Hm;
         match goal with Ht : one_of m _ = true |- _ =>
           apply one_of_true, list_elem_of_singleton in Ht; subst m end;
         apply (bool_decide_unpack _); vm_compute; exact I).
  - destruct (lea_rule instruction defs uses) as [[d u]|e] eqn:Hlea;
      cbn [mbind result_bind]; [|done].
    intros [= <- <-]. exact (lea_rule_NoDup instruction defs uses d u Hd Hu Hlea).
  - intros [= Hr]. destruct (Hret defs uses Hd Hu) as [Hd' Hu'].
    rewrite Hr in Hd', Hu'. done.
Qed.

(** The lists are what the chain of tests on the mnemonic makes of the lists
    of [operandRegisterHelper]. *)
Lemma Lab3_def_use_rule `{SetOrder} (instruction : Instruction) :
  Lab3_def_use instruction
  = mnemonic_rule Lab3.ret_rule instruction (getMnemonicString instruction)
      (Lab3.operandRegisterHelper instruction [] []).1
      (Lab3.operandRegisterHelper instruction [] []).2.
Proof.
  unfold Lab3_def_use, Lab3.analyze_instruction.
  destruct (Lab3.operandRegisterHelper instruction [] []) as [defs uses].
  cbn [fst snd].
  destruct (mnemonic_rule _ _ _ _ _) as [[[d u]|]|e]; reflexivity.
Qed.

Lemma Lab4_def_use_rule `{SetOrder} (instruction : Instruction) :
  Lab4_def_use instruction
  = mnemonic_rule Lab4.ret_rule instruction (getMnemonicString instruction)
      (Lab4.operandRegisterHelper instruction [] []).1
      (Lab4.operandRegisterHelper instruction [] []).2.
Proof.
  unfold Lab4_def_use, Lab4.analyze_instruction.
  destruct (Lab4.operandRegisterHelper instruction [] []) as [defs uses].
  cbn [fst snd].
  destruct (mnemonic_rule _ _ _ _ _) as [[[d u]|]|e]; cbn [mbind result_bind];
    [|reflexivity..].
  by rewrite lookup_insert_eq.
Qed.

Lemma ret_rules_NoDup :
  (∀ d u, NoDup d → NoDup u →
          NoDup (Lab3.ret_rule d u).1 ∧ NoDup (Lab3.ret_rule d u).2)
  ∧ (∀ d u, NoDup d → NoDup u →
            NoDup (Lab4.ret_rule d u).1 ∧ NoDup (Lab4.ret_rule d u).2).
Proof.
  split; intros d u Hd Hu; unfold Lab3.ret_rule, Lab4.ret_rule; cbn [fst snd];
    split; repeat apply append_new_NoDup; done.
Qed.

(** X3.  Unless the mnemonic is [CALL], [LEAVE] or [STOSD.REP], whose
    branches append without looking, the lists [analyze_instruction]
    computes hold no location twice, in either script. *)
Theorem analyze_instruction_no_repetition `{SetOrder} (instruction : Instruction) :
  getMnemonicString instruction ∉ ["CALL"; "LEAVE"; "STOSD.REP"] →
  (∀ defs uses, Lab3_def_use instruction = Ok (Some (defs, uses)) →
                NoDup defs ∧ NoDup uses)
  ∧ (∀ defs uses, Lab4_def_use instruction = Ok (Some (defs, uses)) →
                  NoDup defs ∧ NoDup uses).
Proof.
  intros Hm. destruct ret_rules_NoDup as [Hret3 Hret4].
  destruct (operandRegisterHelper_NoDup instruction [] []) as [[? ?] [? ?]];
    [apply NoDup_nil_2..|].
  split; intros defs uses.
  - rewrite Lab3_def_use_rule. by apply mnemonic_rule_NoDup.
  - rewrite Lab4_def_use_rule. by apply mnemonic_rule_NoDup.
Qed.

Lemma analyze_instruction_no_repetition_witness :
  (getMnemonicString xor_instruction ∉ ["CALL"; "LEAVE"; "STOSD.REP"])
  ∧ @Lab3_def_use first_occurrence_order xor_instruction
    = Ok (Some (["EAX"; "eflags"], ["EAX"]))
  ∧ (∀ defs uses,
       @Lab3_def_use first_occurrence_order xor_instruction = Ok (Some (defs, uses)) →
       NoDup defs ∧ NoDup uses).
Proof.
  assert (getMnemonicString xor_instruction ∉ ["CALL"; "LEAVE"; "STOSD.REP"]) as Hm
    by (apply (bool_decide_unpack _); vm_compute; exact I).
  split; [exact Hm|]. split; [vm_compute; reflexivity|].
  exact (proj1 (@analyze_instruction_no_repetition first_occurrence_order
                  xor_instruction Hm)).
Defined.

(** ** The mnemonics with a branch *)

Lemma one_of_false (m : string) (l : list string) : one_of m l = false → m ∉ l.
Proof. unfold one_of. apply bool_decide_eq_false_1. Qed.

Lemma mnemonic_rule_None `{SetOrder} ret_rule instruction mnemonic
    (defs uses : list string) :
  mnemonic_rule ret_rule instruction mnemonic defs uses = Ok None →
  mnemonic ∉ recognized.
Proof.
  unfold mnemonic_rule. split_mnemonic mnemonic; try discriminate.
  - destruct (lea_rule instruction defs uses); discriminate.
  - intros _ Hin. unfold recognized in Hin.
    repeat (apply elem_of_cons in Hin as [-> |Hin];
            [repeat match goal with
                    | Hf : one_of _ _ = false |- _ =>
                        first [ by vm_compute in Hf | clear Hf ]
                    end|]).
    by apply elem_of_nil in Hin.
Qed.

(** X4.  In either script [analyze_instruction] returns [None] for exactly
    the mnemonics outside the thirty-six its chain of tests names; it
    returns [None] for them whatever the operands are. *)
Theorem analyze_instruction_None_iff `{SetOrder} (instruction : Instruction) :
  (Lab3_def_use instruction = Ok None
   ↔ getMnemonicString instruction ∉ recognized)
  ∧ (Lab4_def_use instruction = Ok None
     ↔ getMnemonicString instruction ∉ recognized).
Proof.
  rewrite Lab3_def_use_rule, Lab4_def_use_rule.
  split; (split; [apply mnemonic_rule_None|apply mnemonic_rule_unrecognized]).
Qed.

Lemma mnemonic_rule_flag_setter `{SetOrder} ret_rule instruction mnemonic
    (defs uses : list string) :
  mnemonic ∈ flag_setters →
  mnemonic_rule ret_rule instruction mnemonic defs uses
  = Ok (Some (append_new "eflags" defs, uses)).
Proof.
  intros Hin. unfold flag_setters in Hin.
  repeat (apply elem_of_cons in Hin as [-> |Hin]; [reflexivity|]).
  by apply elem_of_nil in Hin.
Qed.

Lemma mnemonic_rule_flag_reader `{SetOrder} ret_rule instruction mnemonic
    (defs uses : list string) :
  mnemonic ∈ flag_readers →
  mnemonic_rule ret_rule instruction mnemonic defs uses
  = Ok (Some (defs, append_new "eflags" uses)).
Proof.
  intros Hin. unfold flag_readers in Hin.
  repeat (apply elem_of_cons in Hin as [-> |Hin]; [reflexivity|]).
  by apply elem_of_nil in Hin.
Qed.

Lemma append_new_elem (x : string) (l : list string) : x ∈ append_new x l.
Proof.
  unfold append_new. case_bool_decide; [done|]. apply elem_of_app. right.
  apply list_elem_of_singleton. done.
Qed.

(** X5.  For the fifteen arithmetic, logic, shift and compare mnemonics, both
    scripts report [eflags] among the definitions, once, after the
    definitions of the operands, and report as uses what the operands
    gave. *)
Theorem flag_setters_define_eflags `{SetOrder} (instruction : Instruction) :
  getMnemonicString instruction ∈ flag_setters →
  (∃ defs uses, Lab3_def_use instruction = Ok (Some (defs, uses))
     ∧ "eflags" ∈ defs
     ∧ filter (fun x => x ≠ "eflags") defs
       = filter (fun x => x ≠ "eflags") (Lab3.operandRegisterHelper instruction [] []).1
     ∧ uses = (Lab3.operandRegisterHelper instruction [] []).2)
  ∧ (∃ defs uses, Lab4_def_use instruction = Ok (Some (defs, uses))
       ∧ "eflags" ∈ defs
       ∧ filter (fun x => x ≠ "eflags") defs
         = filter (fun x => x ≠ "eflags") (Lab4.operandRegisterHelper instruction [] []).1
       ∧ uses = (Lab4.operandRegisterHelper instruction [] []).2).
Proof.
  intros Hm. rewrite Lab3_def_use_rule, Lab4_def_use_rule.
  rewrite !mnemonic_rule_flag_setter by done.
  split; eexists _, _; (split; [reflexivity|]);
    (split; [apply append_new_elem|]); (split; [|reflexivity]).
  all: unfold append_new; case_bool_decide; [done|];
    rewrite filter_app, filter_cons_False, filter_nil, app_nil_r; [done|];
    by intros Hne.
Qed.

Lemma flag_setters_define_eflags_witness :
  getMnemonicString xor_instruction ∈ flag_setters
  ∧ ∃ defs uses,
      @Lab3_def_use first_occurrence_order xor_instruction = Ok (Some (defs, uses))
      ∧ "eflags" ∈ defs
      ∧ filter (fun x => x ≠ "eflags") defs
        = filter (fun x => x ≠ "eflags")
            (Lab3.operandRegisterHelper xor_instruction [] []).1
      ∧ uses = (Lab3.operandRegisterHelper xor_instruction [] []).2.
Proof.
  assert (getMnemonicString xor_instruction ∈ flag_setters) as Hm
    by (apply (bool_decide_unpack _); vm_compute; exact I).
  split; [exact Hm|].
  exact (proj1 (@flag_setters_define_eflags first_occurrence_order
                  xor_instruction Hm)).
Defined.

(** X6.  For the nine conditional jumps and [SETNZ], both scripts report
    [eflags] among the uses and report as definitions what the operands
    gave. *)
Theorem flag_readers_use_eflags `{SetOrder} (instruction : Instruction) :
  getMnemonicString instruction ∈ flag_readers →
  (∃ defs uses, Lab3_def_use instruction = Ok (Some (defs, uses))
     ∧ "eflags" ∈ uses
     ∧ defs = (Lab3.operandRegisterHelper instruction [] []).1
     ∧ filter (fun x => x ≠ "eflags") uses
       = filter (fun x => x ≠ "eflags") (Lab3.operandRegisterHelper instruction [] []).2)
  ∧ (∃ defs uses, Lab4_def_use instruction = Ok (Some (defs, uses))
       ∧ "eflags" ∈ uses
       ∧ defs = (Lab4.operandRegisterHelper instruction [] []).1
       ∧ filter (fun x => x ≠ "eflags") uses
         = filter (fun x => x ≠ "eflags") (Lab4.operandRegisterHelper instruction [] []).2).
Proof.
  intros Hm. rewrite Lab3_def_use_rule, Lab4_def_use_rule.
  rewrite !mnemonic_rule_flag_reader by done.
  split; eexists _, _; (split; [reflexivity|]);
    (split; [apply append_new_elem|]); (split; [reflexivity|]).
  all: unfold append_new; case_bool_decide; [done|];
    rewrite filter_app, filter_cons_False, filter_nil, app_nil_r; [done|];
    by intros Hne.
Qed.

Lemma flag_readers_use_eflags_witness :
  getMnemonicString jnz_instruction ∈ flag_readers
  ∧ ∃ defs uses,
      @Lab4_def_use first_occurrence_order jnz_instruction = Ok (Some (defs, uses))
      ∧ "eflags" ∈ uses
      ∧ defs = (Lab4.operandRegisterHelper jnz_instruction [] []).1
      ∧ filter (fun x => x ≠ "eflags") uses
        = filter (fun x => x ≠ "eflags")
            (Lab4.operandRegisterHelper jnz_instruction [] []).2.
Proof.
  assert (getMnemonicString jnz_instruction ∈ flag_readers) as Hm
    by (apply (bool_decide_unpack _); vm_compute; exact I).
  split; [exact Hm|].
  exact (proj2 (@flag_readers_use_eflags first_occurrence_order
                  jnz_instruction Hm)).
Defined.

(** ** [LEA] without a bracketed source *)

Lemma until_close_lacks (s : string) : lacks "]" s → until_close s = None.
Proof.
  induction s as [|c s IH]; [done|]. intros [Hc Hs]. cbn [until_close].
  destruct (Ascii.eqb_spec c "]"); [done|].
  destruct (Ascii.eqb c (ascii_of_nat 10)); [done|].
  by rewrite IH.
Qed.

Lemma search_bracketed_no_open (s : string) : lacks "[" s → search_bracketed s = None.
Proof.
  induction s as [|c s IH]; [done|]. intros [Hc Hs]. cbn [search_bracketed].
  destruct (Ascii.eqb_spec c "["); [done|]. by apply IH.
Qed.

Lemma search_bracketed_no_close (s : string) : lacks "]" s → search_bracketed s = None.
Proof.
  induction s as [|c s IH]; [done|]. intros [Hc Hs]. cbn [search_bracketed].
  rewrite until_close_lacks by done. rewrite IH by done.
  by destruct (Ascii.eqb c "[").
Qed.

(** X7.  A [LEA] whose second operand is printed without an opening or
    without a closing bracket stops either script with an
    [AttributeError]: the result of [re.search] is [None] and [group] is
    called on it. *)
Theorem lea_without_brackets_raises `{SetOrder} (instruction : Instruction) :
  getMnemonicString instruction = "LEA" →
  lacks "[" (getDefaultOperandRepresentation instruction 1)
  ∨ lacks "]" (getDefaultOperandRepresentation instruction 1) →
  Lab3_def_use instruction = Raise AttributeError
  ∧ Lab4_def_use instruction = Raise AttributeError.
Proof.
  intros Hm Hlacks. rewrite Lab3_def_use_rule, Lab4_def_use_rule, Hm.
  assert (search_bracketed (getDefaultOperandRepresentation instruction 1) = None)
    as Hsearch.
  { destruct Hlacks; [by apply search_bracketed_no_open
                     |by apply search_bracketed_no_close]. }
  assert (∀ ret_rule defs uses,
            mnemonic_rule ret_rule instruction "LEA" defs uses = Raise AttributeError)
    as Hrule.
  { intros ret_rule defs uses.
    change (mnemonic_rule ret_rule instruction "LEA" defs uses)
      with (r ← lea_rule instruction defs uses; Ok (Some r)).
    unfold lea_rule. by rewrite Hsearch. }
  by rewrite !Hrule.
Qed.

Lemma lea_without_brackets_raises_witness :
  getMnemonicString lea_scalar_instruction = "LEA"
  ∧ (lacks "[" (getDefaultOperandRepresentation lea_scalar_instruction 1)
     ∨ lacks "]" (getDefaultOperandRepresentation lea_scalar_instruction 1))
  ∧ @Lab3_def_use first_occurrence_order lea_scalar_instruction = Raise AttributeError
  ∧ @Lab4_def_use first_occurrence_order lea_scalar_instruction = Raise AttributeError.
Proof.
  assert (lacks "[" (getDefaultOperandRepresentation lea_scalar_instruction 1))
    as Hlacks by (cbn; repeat split; discriminate).
  split; [reflexivity|]. split; [by left|].
  exact (@lea_without_brackets_raises first_occurrence_order
           lea_scalar_instruction eq_refl (or_introl Hlacks)).
Defined.

(** ** Labels and the iteration order of sets *)

Lemma leb_trans (x y z : string) :
  String.leb x y = true → String.leb y z = true → String.leb x z = true.
Proof.
  intros Hxy%Is_true_true Hyz%Is_true_true. apply Is_true_true.
  exact (transitivity (R := String.le) Hxy Hyz).
Qed.

(** [sorted] depends on the members of a list only. *)
Lemma sorted_perm (l1 l2 : list string) : l1 ≡ₚ l2 → sorted l1 = sorted l2.
Proof.
  intros Hperm. unfold sorted.
  apply (StronglySorted_unique_strong (fun a b => String.leb a b = true)).
  - intros x y _ _. apply String.leb_antisym.
  - apply stable_sort_sorted; [apply String.leb_total|apply leb_trans].
  - apply stable_sort_sorted; [apply String.leb_total|apply leb_trans].
  - by rewrite !stable_sort_perm.
Qed.

Lemma filter_agree {A} (P Q : A → Prop) `{∀ x, Decision (P x), ∀ x, Decision (Q x)}
    (l : list A) :
  (∀ x, x ∈ l → (P x ↔ Q x)) → filter P l = filter Q l.
Proof.
  induction l as [|x l IH]; intros Hl; [done|].
  rewrite !filter_cons.
  rewrite IH by (intros y Hy; apply Hl; by right).
  assert (P x ↔ Q x) as Hx by (apply Hl; by left).
  destruct (decide (P x)) as [HP|HP], (decide (Q x)) as [HQ|HQ];
    [done|by apply Hx in HP|by apply Hx in HQ|done].
Qed.

(** Appending the members of a set, each if it is new, appends those that
    were not there, in the order of the iteration. *)
Lemma foldl_append_new (uses l : list string) :
  NoDup l →
  foldl (fun uses reg => append_new reg uses) uses l
  = uses ++ filter (fun x => x ∉ uses) l.
Proof.
  intros Hl. revert uses. induction Hl as [|x l Hx Hl IH]; intros uses; cbn [foldl].
  - by rewrite filter_nil, app_nil_r.
  - rewrite IH. unfold append_new. case_bool_decide as Hin.
    + by rewrite filter_cons_False by (intros Hn; by apply Hn).
    + rewrite filter_cons_True by done. rewrite <- app_assoc. cbn [app].
      do 2 f_equal. apply filter_agree. intros y Hy.
      rewrite not_elem_of_app, list_elem_of_singleton. split; [by intros []|].
      intros ?. split; [done|]. by intros ->.
Qed.

Lemma set_to_list_NoDup `{SetOrder} (l : list string) : NoDup (set_to_list l).
Proof. rewrite set_to_list_perm. apply NoDup_remove_dups. Qed.

Lemma lea_rule_orders (O1 O2 : SetOrder) (instruction : Instruction)
    (defs uses : list string) :
  same_up_to_order
    (r ← @lea_rule O1 instruction defs uses; Ok (Some r))
    (r ← @lea_rule O2 instruction defs uses; Ok (Some r)).
Proof.
  unfold lea_rule. destruct (search_bracketed _) as [group1|]; [|done].
  cbn [mbind result_bind same_up_to_order]. split; [done|].
  rewrite !foldl_append_new by apply set_to_list_NoDup.
  by rewrite !set_to_list_perm.
Qed.

Lemma same_up_to_order_refl (r : result (option (list string * list string))) :
  same_up_to_order r r.
Proof. by destruct r as [[[d u]|]|e]. Qed.

Lemma mnemonic_rule_orders (O1 O2 : SetOrder) ret_rule instruction mnemonic
    (defs uses : list string) :
  same_up_to_order
    (@mnemonic_rule O1 ret_rule instruction mnemonic defs uses)
    (@mnemonic_rule O2 ret_rule instruction mnemonic defs uses).
Proof.
  unfold mnemonic_rule. split_mnemonic mnemonic;
    first [apply lea_rule_orders | apply same_up_to_order_refl].
Qed.

Lemma Lab3_label_rule `{SetOrder} (instruction : Instruction) :
  Lab3_label instruction
  = label_of
      (mnemonic_rule Lab3.ret_rule instruction (getMnemonicString instruction)
         (Lab3.operandRegisterHelper instruction [] []).1
         (Lab3.operandRegisterHelper instruction [] []).2).
Proof.
  unfold Lab3_label, Lab3.analyze_instruction.
  destruct (Lab3.operandRegisterHelper instruction [] []) as [defs uses].
  cbn [fst snd].
  destruct (mnemonic_rule _ _ _ _ _) as [[[d u]|]|e]; reflexivity.
Qed.

Lemma Lab4_label_rule `{SetOrder} (instruction : Instruction) :
  Lab4_label instruction
  = label_of
      (mnemonic_rule Lab4.ret_rule instruction (getMnemonicString instruction)
         (Lab4.operandRegisterHelper instruction [] []).1
         (Lab4.operandRegisterHelper instruction [] []).2).
Proof.
  unfold Lab4_label, Lab4.analyze_instruction.
  destruct (Lab4.operandRegisterHelper instruction [] []) as [defs uses].
  cbn [fst snd].
  destruct (mnemonic_rule _ _ _ _ _) as [[[d u]|]|e]; reflexivity.
Qed.

Lemma label_orders (r1 r2 : result (option (list string * list string))) :
  same_up_to_order r1 r2 → label_of r1 = label_of r2.
Proof.
  destruct r1 as [[[d1 u1]|]|e1], r2 as [[[d2 u2]|]|e2]; try done.
  - intros [-> Hu]. cbn [label_of]. unfold def_use_label.
    by rewrite (sorted_perm u1 u2).
  - by intros ->.
Qed.

(** X8.  The label [analyze_instruction] returns for an instruction, or the
    exception it raises, is the same whatever order Python iterates in over
    the set of register names of a [LEA]: the lists may come out in another
    order, the label sorts them. *)
Theorem label_independent_of_set_order (O1 O2 : SetOrder)
    (instruction : Instruction) :
  @Lab3_label O1 instruction = @Lab3_label O2 instruction
  ∧ @Lab4_label O1 instruction = @Lab4_label O2 instruction.
Proof.
  rewrite !Lab3_label_rule, !Lab4_label_rule.
  split; apply label_orders, mnemonic_rule_orders.
Qed.

(** ** Sorting the addresses *)

Lemma int16_raises `{IntReader} (x : string) (e : exn) : int16 x = Raise e → e = ValueError.
Proof.
  unfold int16. destruct (hex_value x); [done|].
  destruct (int_other x); [done|by intros [= <-]].
Qed.

Lemma sort_keys_raise `{IntReader} (l : list string) (acc : list (Z * string)) :
  ¬ Forall is_address l →
  for_each (fun acc x => k ← int16 x; Ok (acc ++ [(k, x)])) acc l
  = Raise ValueError.
Proof.
  revert acc. induction l as [|x l IH]; intros acc Hnot; cbn [for_each].
  - exfalso. apply Hnot. constructor.
  - destruct (int16 x) as [k|e] eqn:Hk; cbn [mbind result_bind].
    + apply IH. intros Hl. apply Hnot. constructor; [by exists k|done].
    + by apply int16_raises in Hk as ->.
Qed.

(** X9.  [instruction_list.sort(key=lambda x: int(x, 16))] returns when
    [int] reads every text of the list, with the same texts in ascending
    order of their values, and raises [ValueError] otherwise.  The texts
    [int] reads are the runs of hexadecimal digits and whatever else the
    interpreter at hand reads, [0x10] for one. *)
Theorem sort_by_address_returns_or_raises `{IntReader} (l : list string) :
  (Forall is_address l →
   ∃ sorted_list, sort_by_address l = Ok sorted_list
                  ∧ sorted_list ≡ₚ l ∧ ascending sorted_list)
  ∧ (¬ Forall is_address l → sort_by_address l = Raise ValueError).
Proof.
  split.
  - intros Hl. unfold sort_by_address.
    destruct (sort_keys_total int16 l [] Hl) as [keyed Hkeyed].
    assert (∃ sorted_list, sort_by_address l = Ok sorted_list) as [r Hr].
    { unfold sort_by_address. rewrite Hkeyed. cbn. eauto. }
    fold (sort_by_address l). rewrite Hr. exists r. split; [done|].
    apply sort_by_address_ascending in Hr as (? & ? & ?). done.
  - intros Hnot. unfold sort_by_address. by rewrite sort_keys_raise.
Qed.

Lemma sort_by_address_returns_or_raises_witness :
  @Forall string (@is_address common_reader) ["40100a"; "0x10"; "2"]
  ∧ @sort_by_address common_reader ["40100a"; "0x10"; "2"]
    = Ok ["2"; "0x10"; "40100a"]
  ∧ ∃ sorted_list,
      @sort_by_address common_reader ["40100a"; "0x10"; "2"] = Ok sorted_list
      ∧ sorted_list ≡ₚ ["40100a"; "0x10"; "2"]
      ∧ @ascending common_reader sorted_list.
Proof.
  assert (@Forall string (@is_address common_reader) ["40100a"; "0x10"; "2"])
    as Hl.
  { repeat (apply List.Forall_cons; [eexists; vm_compute; reflexivity|]).
    apply List.Forall_nil. }
  split; [exact Hl|]. split; [vm_compute; reflexivity|].
  exact (proj1 (@sort_by_address_returns_or_raises common_reader
                  ["40100a"; "0x10"; "2"]) Hl).
Defined.

(** ** The def/use graph of [create_dot_graph] *)

Lemma def_use_node_fold (def_use_info : gmap string (option string))
    (l : list string) (st : NodeLoop) :
  dot_graph (foldl (def_use_node def_use_info) st l)
  = dot_graph st
    +:+ node_lines node_line (def_use_line_label def_use_info) (node_counter st) l
  ∧ ∀ k, is_Some (address_to_node (foldl (def_use_node def_use_info) st l) !! k)
         ↔ is_Some (address_to_node st !! k) ∨ k ∈ l.
Proof.
  revert st. induction l as [|addr l IH]; intros st; cbn [foldl node_lines].
  - rewrite append_empty_r. split; [done|]. intros k. split; [by left|].
    intros [?|Hin]; [done|]. by apply elem_of_nil in Hin.
  - destruct (IH (def_use_node def_use_info st addr)) as [Htext Hkeys].
    rewrite Htext. split.
    + unfold def_use_node at 1 2. cbn [dot_graph node_counter].
      unfold def_use_line_label at 2.
      by rewrite append_assoc, Nat.add_1_r.
    + intros k. rewrite Hkeys, elem_of_cons. unfold def_use_node.
      cbn [address_to_node].
      destruct (decide (addr = k)) as [-> |Hk].
      * rewrite lookup_insert_eq. split; [intros _; by right; left|by eauto].
      * rewrite lookup_insert_ne by done. split.
        -- intros [?|?]; [by left|by right; right].
        -- intros [?|[?|?]]; [by left|congruence|by right].
Qed.

Lemma for_each_raises_exn {A S} (body : S → A → result S) (l : list A) (x : A)
    (e0 : exn) :
  x ∈ l → (∀ s, body s x = Raise e0) →
  (∀ s y e, y ∈ l → body s y = Raise e → e = e0) →
  ∀ s, for_each body s l = Raise e0.
Proof.
  intros Hin Hx. induction l as [|y l IH]; intros Hall s;
    [by apply elem_of_nil in Hin|].
  cbn [for_each]. destruct (body s y) as [s'|e] eqn:Hy; cbn [mbind result_bind].
  - apply elem_of_cons in Hin as [-> |Hin]; [by rewrite Hx in Hy|].
    apply IH; [done|]. intros s0 z e Hz. apply Hall. by right.
  - f_equal. eapply Hall; [by left|done].
Qed.

Lemma for_each_agree {A S} (body1 body2 : S → A → result S) (l : list A) (s : S) :
  (∀ s x, x ∈ l → body1 s x = body2 s x) →
  for_each body1 s l = for_each body2 s l.
Proof.
  revert s. induction l as [|x l IH]; intros s Hl; cbn [for_each]; [done|].
  rewrite Hl by by left. destruct (body2 s x) as [s'|e]; cbn [mbind result_bind];
    [|done].
  apply IH. intros. apply Hl. by right.
Qed.

Lemma def_use_edges_KeyError (c : Collected) (nodes : gmap string nat)
    (text : string) (entry : nat * string) (e : exn) :
  def_use_edges c nodes text entry = Raise e → e = KeyError.
Proof.
  destruct entry as [i addr]. unfold def_use_edges, subscript.
  case_bool_decide; [done|].
  destruct (instruction_list c !! (i + 1)); [|done].
  destruct (nodes !! addr); cbn [mbind result_bind]; [|by intros [= <-]].
  destruct (nodes !! s); cbn [mbind result_bind]; [|by intros [= <-]].
  destruct (jumps c !! addr) as [target|]; [|done].
  destruct (nodes !! target); cbn [mbind result_bind]; [done|by intros [= <-]].
Qed.

(** The keys of [address_to_node] after the first loop are the addresses of
    the list. *)
Lemma def_use_node_keys (f : Func) (def_use_info : gmap string (option string))
    (l : list string) :
  let nodes := foldl (def_use_node def_use_info)
                     {| dot_graph := graph_header f; node_counter := 1;
                        address_to_node := ∅ |} l in
  dot_graph nodes
  = graph_header f +:+ node_lines node_line (def_use_line_label def_use_info) 1 l
  ∧ (∀ k, k ∈ l → is_Some (address_to_node nodes !! k))
  ∧ (∀ k, k ∉ l → address_to_node nodes !! k = None).
Proof.
  cbv zeta.
  match goal with |- context [foldl ?step ?init l] =>
    destruct (def_use_node_fold def_use_info l init) as [Htext Hkeys]
  end.
  cbn [dot_graph node_counter address_to_node] in Htext, Hkeys.
  split; [done|]. split.
  - intros k Hk. apply Hkeys. by right.
  - intros k Hk. apply eq_None_not_Some. intros [Hs|?]%Hkeys; [|done].
    rewrite lookup_empty in Hs. by destruct Hs.
Qed.

Lemma create_dot_graph_returns (f : Func) (c : Collected)
    (def_use_info : gmap string (option string)) :
  (∀ i addr target, ¬ jump_outside c i addr target) →
  ∃ edges, create_dot_graph f c def_use_info
           = Ok (graph_header f
                 +:+ node_lines node_line (def_use_line_label def_use_info) 1
                       (instruction_list c)
                 +:+ newline +:+ edges +:+ "}").
Proof.
  intros Hinside. unfold create_dot_graph.
  destruct (def_use_node_keys f def_use_info (instruction_list c))
    as (Htext & Hin & Hout).
  cbv zeta in Htext, Hin, Hout.
  set (nodes := foldl _ _ (instruction_list c)) in *.
  destruct (for_each_total (def_use_edges c (address_to_node nodes))
              (fun text => ∃ edges, text = (dot_graph nodes +:+ newline) +:+ edges)
              (imap pair (instruction_list c)) (dot_graph nodes +:+ newline))
    as (text & -> & edges & ->).
  - exists EmptyString. by rewrite append_empty_r.
  - intros text [i addr] (j & y & [= -> ->] & Hlk)%elem_of_lookup_imap
      [edges ->].
    unfold def_use_edges. case_bool_decide as Hret; [eauto|].
    destruct (instruction_list c !! (j + 1)) as [next_addr|] eqn:Hnext;
      [|eauto].
    destruct (Hin y) as [current_node Hcur]; [by eapply list_elem_of_lookup_2|].
    destruct (Hin next_addr) as [next_node Hnxt];
      [by eapply list_elem_of_lookup_2|].
    unfold subscript. rewrite Hcur, Hnxt. cbn [mbind result_bind].
    destruct (jumps c !! y) as [target|] eqn:Hjump.
    + destruct (decide (target ∈ instruction_list c)) as [Ht|Ht].
      * destruct (Hin target Ht) as [jump_to_node ->]. cbn [mbind result_bind].
        eexists. split; [done|].
        case_bool_decide; eexists; rewrite !append_assoc; reflexivity.
      * destruct (Hinside j y target). unfold jump_outside.
        rewrite Hnext. eauto 10.
    + eexists. split; [done|]. eexists. rewrite !append_assoc. reflexivity.
  - cbn [mbind result_bind]. exists edges.
    by rewrite Htext, !append_assoc.
Qed.

(** X10.  [create_dot_graph] returns a text unless a jump leaves the list:
    the text is the header, one node line per address in the order of the
    list, numbered from 1, an empty line, the edges and the closing brace.
    When an instruction that is neither a [RET] nor the last of the list
    jumps to an address outside the list, as a tail call does, the function
    stops with a [KeyError]. *)
Theorem create_dot_graph_returns_or_raises (f : Func) (c : Collected)
    (def_use_info : gmap string (option string)) :
  ((∀ i addr target, ¬ jump_outside c i addr target) →
   ∃ edges, create_dot_graph f c def_use_info
            = Ok (graph_header f
                  +:+ node_lines node_line (def_use_line_label def_use_info) 1
                        (instruction_list c)
                  +:+ newline +:+ edges +:+ "}"))
  ∧ (∀ i addr target, jump_outside c i addr target →
                      create_dot_graph f c def_use_info = Raise KeyError).
Proof.
  split; [apply create_dot_graph_returns|].
  intros i addr target (Hlk & Hret & [next_addr Hnext] & Hjump & Ht).
  unfold create_dot_graph.
  destruct (def_use_node_keys f def_use_info (instruction_list c))
    as (_ & Hin & Hout).
  cbv zeta in Hin, Hout.
  set (nodes := foldl _ _ (instruction_list c)) in *.
  rewrite (for_each_raises_exn _ _ (i, addr) KeyError); [done|..].
  - apply elem_of_lookup_imap. eauto.
  - intros text. unfold def_use_edges.
    rewrite bool_decide_eq_false_2 by done. rewrite Hnext.
    destruct (Hin addr) as [current_node Hcur];
      [by eapply list_elem_of_lookup_2|].
    destruct (Hin next_addr) as [next_node Hnxt];
      [by eapply list_elem_of_lookup_2|].
    unfold subscript. rewrite Hcur, Hnxt, Hjump, (Hout target Ht). done.
  - intros text entry e _. apply def_use_edges_KeyError.
Qed.

Lemma create_dot_graph_returns_or_raises_witness :
  jump_outside jump_away 1 "401005" "500000"
  ∧ create_dot_graph push_pop_func jump_away ∅ = Raise KeyError.
Proof.
  assert (jump_outside jump_away 1 "401005" "500000") as Hout.
  { unfold jump_outside. split; [reflexivity|].
    split; [apply (bool_decide_unpack _); vm_compute; exact I|].
    split; [by eexists|]. split; [reflexivity|].
    apply (bool_decide_unpack _); vm_compute; exact I. }
  split; [exact Hout|].
  exact (proj2 (create_dot_graph_returns_or_raises push_pop_func jump_away ∅)
           1 "401005" "500000" Hout).
Defined.

(** X11.  [create_dot_graph] draws no edge out of the last instruction of
    the list: whether a jump is recorded for it or not, and whatever its
    target, the result is the same. *)
Theorem last_instruction_has_no_edge (f : Func) (c : Collected)
    (def_use_info : gmap string (option string)) (l : list string)
    (addr : string) :
  instruction_list c = l ++ [addr] → addr ∉ l →
  create_dot_graph f c def_use_info
  = create_dot_graph f (without_jump c addr) def_use_info.
Proof.
  intros Hl Hnew. unfold create_dot_graph. cbn [without_jump instruction_list].
  f_equal. apply for_each_agree.
  intros text [i a] (j & y & [= -> ->] & Hlk)%elem_of_lookup_imap.
  unfold def_use_edges. cbn [without_jump instruction_list jumps
                             conditional_jumps ret_instructions].
  case_bool_decide; [done|].
  destruct (instruction_list c !! (j + 1)) as [next_addr|] eqn:Hnext; [|done].
  assert (y ≠ addr) as Hy.
  { intros ->. rewrite Hl in Hlk, Hnext.
    apply lookup_lt_Some in Hnext. rewrite length_app in Hnext.
    cbn [length] in Hnext.
    rewrite lookup_app_l in Hlk by lia.
    apply Hnew. by eapply list_elem_of_lookup_2. }
  rewrite lookup_delete_ne by done.
  destruct (subscript _ y); cbn [mbind result_bind]; [|done].
  destruct (subscript _ next_addr); cbn [mbind result_bind]; [|done].
  destruct (jumps c !! y); [|done].
  destruct (subscript _ s); cbn [mbind result_bind]; [|done].
  f_equal.
  rewrite (bool_decide_ext (y ∈ conditional_jumps c ∖ {[addr]})
             (y ∈ conditional_jumps c)); [done|].
  rewrite elem_of_difference, not_elem_of_singleton. tauto.
Qed.

Lemma last_instruction_has_no_edge_witness :
  instruction_list tail_jump = ["401000"] ++ ["401005"]
  ∧ ("401005" ∉ ["401000"])
  ∧ create_dot_graph push_pop_func tail_jump ∅
    = create_dot_graph push_pop_func (without_jump tail_jump "401005") ∅.
Proof.
  assert ("401005" ∉ ["401000"]) as Hnew
    by (apply (bool_decide_unpack _); vm_compute; exact I).
  split; [reflexivity|]. split; [exact Hnew|].
  exact (last_instruction_has_no_edge push_pop_func tail_jump ∅
           ["401000"] "401005" eq_refl Hnew).
Defined.

(** ** The paths of [reverse_traverse_cfg] in [Lab3_Plugin.py] *)

Section Walk_facts.
Context (f : Func) (ret_blocks : list string).

Lemma foldl_option_mono {A B} (step1 step2 : B → A → option B) (l : list A)
    (b0 r : B) :
  (∀ b a b', a ∈ l → step1 b a = Some b' → step2 b a = Some b') →
  foldl (fun acc a => b ← acc; step1 b a) (Some b0) l = Some r →
  foldl (fun acc a => b ← acc; step2 b a) (Some b0) l = Some r.
Proof.
  revert b0. induction l as [|a l IH]; intros b0 Hstep; cbn [foldl]; [done|].
  cbn [mbind option_bind].
  destruct (step1 b0 a) as [b1|] eqn:Hb1.
  - rewrite (Hstep b0 a b1) by (done || by left).
    apply IH. intros. eapply Hstep; [by right|done].
  - by rewrite foldl_option_None.
Qed.

(** Every path [traverse] saves is a backward walk, when the path it
    extends is the tail of one. *)
Lemma traverse_walks fuel block visited path paths visited' paths' loop_limit :
  linked f (block :: path) →
  (∃ b, last (block :: path) = Some b ∧ b ∈ ret_blocks) →
  Forall (backward_walk f ret_blocks) paths →
  Lab3.traverse f fuel block visited path paths loop_limit
  = Some (visited', paths') →
  Forall (backward_walk f ret_blocks) paths'.
Proof.
  revert block visited path paths visited' paths' loop_limit.
  induction fuel as [|fuel IH];
    intros block visited path paths visited' paths' loop_limit Hlinked Hlast Hps;
    [done|].
  rewrite traverse_step. cbv zeta.
  case_bool_decide as Hlimit; [by intros [= <- <-]|].
  case_bool_decide as Hentry.
  { intros [= <- <-]. apply Forall_app. split; [done|].
    apply Forall_singleton. split; [done|]. split; [done|].
    exists block. split; [done|]. by left. }
  destruct (getSources f block) as [|s sources] eqn:Hsrc.
  { intros [= <- <-]. apply Forall_app. split; [done|].
    apply Forall_singleton. split; [done|]. split; [done|].
    exists block. split; [done|]. by right. }
  intros Hr. apply bind_Some in Hr as (paths1 & Hfold & [= <- <-]).
  eapply (foldl_option_inv _ (Forall (backward_walk f ret_blocks)));
    [exact Hps| |exact Hfold].
  intros paths0 src paths2 Hin Hps0 Hstep. cbv beta in Hstep.
  apply fmap_Some in Hstep as ([v p] & Hstep & ->).
  eapply IH; [| |exact Hps0|exact Hstep].
  - split; [by rewrite Hsrc|done].
  - done.
Qed.

(** More fuel does not change what [traverse] returns. *)
Lemma traverse_mono fuel fuel' block visited path paths loop_limit r :
  fuel ≤ fuel' →
  Lab3.traverse f fuel block visited path paths loop_limit = Some r →
  Lab3.traverse f fuel' block visited path paths loop_limit = Some r.
Proof.
  revert fuel' block visited path paths loop_limit r.
  induction fuel as [|fuel IH];
    intros fuel' block visited path paths loop_limit r Hle; [done|].
  destruct fuel' as [|fuel']; [lia|].
  rewrite !traverse_step. cbv zeta.
  case_bool_decide; [done|]. case_bool_decide; [done|].
  destruct (getSources f block) as [|s sources]; [done|].
  intros Hr. apply bind_Some in Hr as (paths1 & Hfold & [= <-]).
  apply bind_Some. exists paths1. split; [|done].
  eapply foldl_option_mono; [|exact Hfold].
  intros paths0 src paths2 _ Hstep. cbv beta in *.
  apply fmap_Some in Hstep as ([v p] & Hstep & ->).
  apply fmap_Some. exists (v, p). split; [|done].
  apply (IH fuel'); [lia|done].
Qed.

End Walk_facts.

(** X12.  Every path the search of [reverse_traverse_cfg] in
    [Lab3_Plugin.py] finds is a walk against the control flow: each block is
    a predecessor of the one after it, the last block is one of the return
    blocks the search started from, the first block is the entry block or a
    block without predecessors, and no block comes up twice. *)
Theorem reverse_paths_are_backward_walks (f : Func) (fuel : nat)
    (ret_blocks : list string) (paths : list (list string)) :
  Lab3.reverse_paths f fuel ret_blocks = Some paths →
  Forall (fun p => backward_walk f ret_blocks p ∧ NoDup p) paths.
Proof.
  intros Hr. apply Forall_and. split; [|by eapply reverse_paths_NoDup].
  unfold Lab3.reverse_paths in Hr.
  apply fmap_Some in Hr as ([visited' paths'] & Hfold & ->). cbn [snd].
  eapply (foldl_option_inv
            (fun (st : gmap string nat * list (list string)) ret_block =>
               let '(visited, paths) := st in
               Lab3.traverse f fuel ret_block visited [] paths 1)
            (fun st => Forall (backward_walk f ret_blocks) st.2)) in Hfold;
    [done|apply Forall_nil_2|].
  intros [v p] ret_block [v' p'] Hin Hps Hstep. cbn [fst snd] in *.
  eapply traverse_walks; [| |exact Hps|exact Hstep]; [done|].
  exists ret_block. by split.
Qed.

Lemma reverse_paths_are_backward_walks_witness :
  Lab3.reverse_paths loop_func 3 ["00401008"]
  = Some [["00401000"; "00401005"; "00401008"]]
  ∧ Forall (fun p => backward_walk loop_func ["00401008"] p ∧ NoDup p)
           [["00401000"; "00401005"; "00401008"]].
Proof.
  assert (Lab3.reverse_paths loop_func 3 ["00401008"]
          = Some [["00401000"; "00401005"; "00401008"]]) as Hrun
    by (vm_compute; reflexivity).
  split; [exact Hrun|].
  exact (reverse_paths_are_backward_walks loop_func 3 ["00401008"] _ Hrun).
Defined.

Lemma reverse_paths_mono (f : Func) (fuel fuel' : nat) (ret_blocks : list string)
    (paths : list (list string)) :
  fuel ≤ fuel' →
  Lab3.reverse_paths f fuel ret_blocks = Some paths →
  Lab3.reverse_paths f fuel' ret_blocks = Some paths.
Proof.
  intros Hle. unfold Lab3.reverse_paths. intros Hr.
  apply fmap_Some in Hr as (st & Hfold & ->).
  apply fmap_Some. exists st. split; [|done].
  eapply (foldl_option_mono
            (fun (st : gmap string nat * list (list string)) ret_block =>
               let '(visited, paths) := st in
               Lab3.traverse f fuel ret_block visited [] paths 1)
            (fun (st : gmap string nat * list (list string)) ret_block =>
               let '(visited, paths) := st in
               Lab3.traverse f fuel' ret_block visited [] paths 1));
    [|exact Hfold].
  intros [v p] ret_block st' _. by apply traverse_mono.
Qed.

(** X13.  [reverse_traverse_cfg] of [Lab3_Plugin.py] returns on every
    function whose blocks are finitely many: when the return blocks and the
    predecessors of the blocks reached all lie in a list [universe], the
    recursion is no deeper than the length of the list plus one, and the
    result is one list of instructions, the same at every greater depth
    allowed. *)
Theorem reverse_traverse_cfg_returns (f : Func) (universe ret_blocks : list string) :
  closed_under_sources f universe →
  (∀ b, b ∈ ret_blocks → b ∈ universe) →
  ∃ all_instructions,
    ∀ fuel, length universe < fuel →
            Lab3.reverse_traverse_cfg f fuel ret_blocks = Some all_instructions.
Proof.
  intros Hclosed Hrets.
  destruct (reverse_paths_total f universe ret_blocks Hclosed Hrets)
    as [paths Hpaths].
  exists (map (path_to_instructions f) paths). intros fuel Hfuel.
  unfold Lab3.reverse_traverse_cfg.
  by rewrite (reverse_paths_mono f (S (length universe)) fuel ret_blocks paths)
    by (lia || done).
Qed.

Lemma reverse_traverse_cfg_returns_witness :
  closed_under_sources loop_func (body_blocks loop_func)
  ∧ (∀ b, b ∈ ["00401008"] → b ∈ body_blocks loop_func)
  ∧ ∃ all_instructions,
      ∀ fuel, length (body_blocks loop_func) < fuel →
              Lab3.reverse_traverse_cfg loop_func fuel ["00401008"]
              = Some all_instructions.
Proof.
  assert (closed_under_sources loop_func (body_blocks loop_func)) as Hclosed.
  { intros b Hb s. cbn in Hb.
    repeat (apply elem_of_cons in Hb as [-> |Hb]);
      [..|by apply elem_of_nil in Hb]; intros Hs; vm_compute in Hs;
      repeat (apply elem_of_cons in Hs as [-> |Hs]);
      try (by apply elem_of_nil in Hs);
      apply (bool_decide_unpack _); vm_compute; exact I. }
  assert (∀ b, b ∈ ["00401008"] → b ∈ body_blocks loop_func) as Hrets.
  { intros b ->%list_elem_of_singleton.
    apply (bool_decide_unpack _); vm_compute; exact I. }
  split; [exact Hclosed|]. split; [exact Hrets|].
  exact (reverse_traverse_cfg_returns loop_func (body_blocks loop_func)
           ["00401008"] Hclosed Hrets).
Defined.

(** ** What [compute_data_dependencies] records *)

Lemma elem_of_concat {A} (x : A) (ls : list (list A)) :
  x ∈ concat ls ↔ ∃ l, l ∈ ls ∧ x ∈ l.
Proof.
  rewrite list_elem_of_In, in_concat.
  split; intros (l & H1 & H2); exists l; by rewrite ?list_elem_of_In in *.
Qed.

Section Dependencies_facts.
Context `{SetOrder} (instruction_def_use : gmap string DefUse).

(** One round of the inner loop on an instruction. *)
Lemma path_step_instr (storage : gmap string string)
    (all_dependencies : gmap string Dependencies) (instr : Instruction) :
  let a := getAddress instr in
  let defs := defs_of instruction_def_use a in
  let uses := uses_of instruction_def_use a in
  let r := if bool_decide (getMnemonicString instr = "RET") then (storage, [])
           else DDStorage.processDataDep storage uses defs a in
  Lab4.path_step instruction_def_use (storage, all_dependencies) (InstrItem instr)
  = (r.1,
     <[a := {| dep_def := defs; dep_use := uses;
               DD := match all_dependencies !! a with
                     | Some old => set_to_list (DD old ++ r.2)
                     | None => r.2
                     end |}]> all_dependencies).
Proof.
  cbv zeta. unfold Lab4.path_step, defs_of, uses_of, DDStorage.processDataDep.
  destruct (instruction_def_use !! getAddress instr) as [du|]; cbn [fmap option_fmap option_map default];
    case_bool_decide; cbn [fst snd];
    destruct (all_dependencies !! getAddress instr); reflexivity.
Qed.

Lemma path_fold_keys (path : list PathItem)
    (st : gmap string string * gmap string Dependencies) (a : string) :
  is_Some ((foldl (Lab4.path_step instruction_def_use) st path).2 !! a)
  ↔ is_Some (st.2 !! a) ∨ a ∈ omap item_address path.
Proof.
  revert st. induction path as [|item path IH]; intros st; cbn [foldl].
  - split; [by left|]. intros [?|Hin]; [done|]. by apply elem_of_nil in Hin.
  - rewrite IH. destruct item as [|instr].
    + done.
    + change (omap item_address (InstrItem instr :: path))
        with (getAddress instr :: omap item_address path).
      destruct st as [storage all_dependencies]. rewrite path_step_instr.
      cbv zeta. cbn [snd]. rewrite elem_of_cons.
      destruct (decide (getAddress instr = a)) as [<- |Hne].
      * rewrite lookup_insert_eq. split; [intros _; by right; left|by eauto].
      * rewrite lookup_insert_ne by done. split.
        -- intros [?|?]; [by left|by right; right].
        -- intros [?|[?|?]]; [by left|congruence|by right].
Qed.

Lemma path_fold_justified (addresses : list string) (path : list PathItem)
    (st : gmap string string * gmap string Dependencies) :
  (∀ a, a ∈ omap item_address path → a ∈ addresses) →
  store_justified instruction_def_use addresses st.1 →
  records_justified instruction_def_use addresses st.2 →
  records_justified instruction_def_use addresses
    (foldl (Lab4.path_step instruction_def_use) st path).2.
Proof.
  intros Hpath Hsto Hrec.
  cut (store_justified instruction_def_use addresses
         (foldl (Lab4.path_step instruction_def_use) st path).1
       ∧ records_justified instruction_def_use addresses
           (foldl (Lab4.path_step instruction_def_use) st path).2);
    [by intros []|].
  apply (foldl_invariant _
           (fun st => store_justified instruction_def_use addresses st.1
                      ∧ records_justified instruction_def_use addresses st.2));
    [done|].
  clear st Hsto Hrec. intros [storage all_dependencies] item Hitem [Hsto Hrec].
  cbn [fst snd] in Hsto, Hrec.
  destruct item as [|instr]; [done|].
  assert (getAddress instr ∈ addresses) as Haddr.
  { apply Hpath, list_elem_of_omap. by exists (InstrItem instr). }
  rewrite path_step_instr. cbv zeta. cbn [fst snd].
  set (a := getAddress instr) in *.
  assert (store_justified instruction_def_use addresses
            (if bool_decide (getMnemonicString instr = "RET")
             then (storage, [])
             else DDStorage.processDataDep storage
                    (uses_of instruction_def_use a)
                    (defs_of instruction_def_use a) a).1) as Hsto1.
  { case_bool_decide; [done|]. unfold DDStorage.processDataDep. cbn [fst].
    intros loc d. rewrite define_loop_lookup.
    case_bool_decide; [by intros [= <-]|apply Hsto]. }
  assert (∀ d, d ∈ (if bool_decide (getMnemonicString instr = "RET")
                    then (storage, [])
                    else DDStorage.processDataDep storage
                           (uses_of instruction_def_use a)
                           (defs_of instruction_def_use a) a).2 →
               d = START
               ∨ (d ∈ addresses
                  ∧ ∃ loc, loc ∈ uses_of instruction_def_use a
                           ∧ loc ∈ defs_of instruction_def_use d)) as Hnew.
  { intros d. case_bool_decide; [by intros ?%elem_of_nil|].
    unfold DDStorage.processDataDep. cbn [snd]. rewrite resolve_loop_elem.
    intros [?%elem_of_nil|[(loc & Hloc & Hd)|[-> _]]]; [done| |by left].
    right. destruct (Hsto loc d Hd). eauto. }
  split; [done|].
  intros b entry. destruct (decide (a = b)) as [<- |Hne].
  - rewrite lookup_insert_eq. intros [= <-]. cbn [dep_def dep_use DD].
    split; [done|]. split; [done|]. intros d.
    destruct (all_dependencies !! a) as [old|] eqn:Hold; [|apply Hnew].
    rewrite set_to_list_perm, elem_of_remove_dups, elem_of_app.
    intros [Hd|Hd]; [|by apply Hnew].
    by destruct (Hrec a old Hold) as (_ & _ & Hdd); apply Hdd.
  - rewrite lookup_insert_ne by done. apply Hrec.
Qed.

End Dependencies_facts.

Lemma compute_records_justified `{SetOrder} (all_paths : list (list PathItem))
    (instruction_def_use : gmap string DefUse) :
  records_justified instruction_def_use (path_addresses all_paths)
    (Lab4.compute_data_dependencies all_paths instruction_def_use).
Proof.
  unfold Lab4.compute_data_dependencies.
  apply (foldl_invariant _
           (records_justified instruction_def_use (path_addresses all_paths)));
    [by intros a entry; rewrite lookup_empty|].
  intros all_dependencies path Hpath Hrec.
  apply path_fold_justified; [| |done].
  - intros a Ha. unfold path_addresses. apply elem_of_concat.
    exists (omap item_address path). split; [|done].
    apply list_elem_of_fmap. by exists path.
  - intros loc d. cbn [fst]. unfold DDStorage.init. by rewrite lookup_empty.
Qed.

(** X14.  [compute_data_dependencies] of [Lab4_networkx.py] has a record
    for exactly the addresses of the instructions on the paths.  A record
    holds the [def] and [use] lists of its address (empty when the address
    has none), and every source in its [DD] list is [START] or the address
    of an instruction on the paths that defines a location the recorded
    instruction uses. *)
Theorem compute_data_dependencies_justified `{SetOrder}
    (all_paths : list (list PathItem))
    (instruction_def_use : gmap string DefUse) :
  let all_dependencies :=
    Lab4.compute_data_dependencies all_paths instruction_def_use in
  (∀ a, is_Some (all_dependencies !! a) ↔ a ∈ path_addresses all_paths)
  ∧ records_justified instruction_def_use (path_addresses all_paths)
      all_dependencies.
Proof.
  cbv zeta. split; [|apply compute_records_justified].
  unfold Lab4.compute_data_dependencies. intros a.
  assert (∀ d0 : gmap string Dependencies,
            is_Some (foldl (fun all_dependencies path =>
                              (foldl (Lab4.path_step instruction_def_use)
                                     (DDStorage.init, all_dependencies) path).2)
                           d0 all_paths !! a)
            ↔ is_Some (d0 !! a) ∨ a ∈ path_addresses all_paths) as Hkeys.
  { unfold path_addresses.
    induction all_paths as [|path all_paths IH]; intros d0;
      cbn [foldl map concat].
    - split; [by left|]. intros [?|Hin]; [done|]. by apply elem_of_nil in Hin.
    - rewrite IH, path_fold_keys, elem_of_app. cbn [snd]. tauto. }
  rewrite Hkeys, lookup_empty. split; [|by right].
  intros [Hs|?]; [by destruct Hs|done].
Qed.

(** ** The scan of [Lab3_Plugin.collect_instructions] *)

Lemma Lab3_collect_instruction_call `{SetOrder} (st st' : Lab3.Collecting)
    (instruction : Instruction) :
  Lab3.collect_instruction st instruction = Ok st' →
  Lab3.storage st'
  = (DDStorage.processDataDep (Lab3.storage st) (Lab3_call instruction).1.1
       (Lab3_call instruction).1.2 (address_text instruction)).1
  ∧ Lab3.dependsOn st'
    = <[address_text instruction :=
          (DDStorage.processDataDep (Lab3.storage st) (Lab3_call instruction).1.1
             (Lab3_call instruction).1.2 (address_text instruction)).2]>
        (Lab3.dependsOn st).
Proof.
  unfold Lab3.collect_instruction, Lab3_call. rewrite Lab3_def_use_rule.
  unfold Lab3.analyze_instruction, address_text.
  generalize (slice_from 2 (getAddress instruction)). intros addr_str.
  destruct (Lab3.operandRegisterHelper instruction [] []) as [defs0 uses0].
  cbn [fst snd].
  destruct (mnemonic_rule _ _ _ _ _) as [[[defs uses]|]|e];
    cbn [mbind result_bind]; [|done..].
  unfold DDStorage.processDataDep. by intros [= <-].
Qed.

(** The records of the addresses the rest of the loop does not meet are
    left as they are. *)
Lemma Lab3_collect_loop_frame `{SetOrder} (body : list Instruction)
    (s0 st : Lab3.Collecting) (a : string) :
  for_each Lab3.collect_instruction s0 body = Ok st →
  a ∉ map address_text body →
  Lab3.dependsOn st !! a = Lab3.dependsOn s0 !! a.
Proof.
  revert s0. induction body as [|x body IH]; intros s0; cbn [for_each map].
  - by intros [= <-].
  - destruct (Lab3.collect_instruction s0 x) as [s1|e] eqn:Hstep;
      cbn [mbind result_bind]; [|done].
    intros Hrest [Hx Hbody]%not_elem_of_cons.
    rewrite (IH s1) by done.
    apply Lab3_collect_instruction_call in Hstep as [_ ->].
    by rewrite lookup_insert_ne.
Qed.

Lemma Lab3_collect_loop `{SetOrder} (body : list Instruction)
    (s0 st : Lab3.Collecting) :
  for_each Lab3.collect_instruction s0 body = Ok st →
  ∀ i instruction,
    body !! i = Some instruction →
    address_text instruction ∉ map address_text (drop (S i) body) →
    Lab3.dependsOn st !! address_text instruction
    = Some (DDStorage.processDataDep
              (walk_store (map Lab3_call (take i body)) (Lab3.storage s0))
              (Lab3_call instruction).1.1 (Lab3_call instruction).1.2
              (address_text instruction)).2.
Proof.
  revert s0. induction body as [|x body IH]; intros s0; cbn [for_each];
    [by intros _ i instruction|].
  destruct (Lab3.collect_instruction s0 x) as [s1|e] eqn:Hstep;
    cbn [mbind result_bind]; [|done].
  intros Hrest [|i] instruction Hlk Hlater; cbn [take drop map] in *.
  - injection Hlk as ->.
    rewrite (Lab3_collect_loop_frame body s1 st) by done.
    apply Lab3_collect_instruction_call in Hstep as [_ ->].
    by rewrite lookup_insert_eq.
  - rewrite (IH s1 Hrest i instruction Hlk Hlater).
    apply Lab3_collect_instruction_call in Hstep as [-> _].
    destruct (Lab3_call x) as [[uses defs] addr] eqn:Hcall.
    rewrite walk_store_cons. cbn [fst snd].
    assert (addr = address_text x) as ->; [|done].
    revert Hcall. unfold Lab3_call.
    by destruct (Lab3_def_use x) as [[[d u]|]|e]; intros [= _ _ <-].
Qed.

Lemma NoDup_not_later {A} (l : list A) (i : nat) (x : A) :
  NoDup l → l !! i = Some x → x ∉ drop (S i) l.
Proof.
  intros Hnd Hlk [j Hj]%list_elem_of_lookup_1.
  rewrite lookup_drop in Hj.
  pose proof (NoDup_lookup l i (S i + j) x Hnd Hlk Hj). lia.
Qed.

(** X15.  The dependency record [collect_instructions] of [Lab3_Plugin.py]
    writes for an instruction follows the order of the scan, block after
    block, not the control flow: its sources are the last definers, among
    the instructions scanned before it, of the locations it uses, and
    [START] when one of these locations has no definer among them.  The
    addresses of the function are taken to be distinct. *)
Theorem Lab3_dependencies_follow_scan_order `{SetOrder} `{IntReader}
    (globals : gmap string DefUse) (f : Func) (st : Lab3.Collecting)
    (i : nat) (instruction : Instruction) :
  Lab3.collect_instructions globals f = Ok st →
  NoDup (map address_text (body_instructions f)) →
  body_instructions f !! i = Some instruction →
  let calls := map Lab3_call (take i (body_instructions f)) in
  let uses := (Lab3_call instruction).1.1 in
  ∃ sources,
    Lab3.dependsOn st !! address_text instruction = Some sources
    ∧ ∀ d, d ∈ sources ↔
           (∃ loc, loc ∈ uses ∧ last_definer loc calls = Some d)
           ∨ (d = START ∧ ∃ loc, loc ∈ uses ∧ last_definer loc calls = None).
Proof.
  intros Hrun Hnd Hlk. cbv zeta. unfold Lab3.collect_instructions in Hrun.
  destruct (for_each _ _ (body_instructions f)) as [st0|e] eqn:Hloop;
    cbn [mbind result_bind] in Hrun; [|done].
  destruct (sort_by_address _) as [sorted_list|e];
    cbn [mbind result_bind] in Hrun; [|done].
  injection Hrun as <-. cbn [Lab3.dependsOn].
  eapply Lab3_collect_loop in Hloop as ->; [|done|].
  - eexists. split; [done|]. intros d. cbn [Lab3.storage].
    unfold DDStorage.processDataDep. cbn [snd]. rewrite resolve_loop_elem.
    assert (∀ loc, walk_store (map Lab3_call (take i (body_instructions f)))
                     DDStorage.init !! loc
                   = last_definer loc
                       (map Lab3_call (take i (body_instructions f)))) as Hstore.
    { intros loc. rewrite walk_store_lookup. unfold DDStorage.init.
      rewrite lookup_empty. by destruct (last_definer loc _). }
    split.
    + intros [?%elem_of_nil|[(loc & Hloc & Hd)|(-> & loc & Hloc & Hd)]]; [done|..];
        rewrite Hstore in Hd; eauto.
    + intros [(loc & Hloc & Hd)|(-> & loc & Hloc & Hd)];
        rewrite <- Hstore in Hd; eauto 10.
  - change (map address_text (drop (S i) (body_instructions f)))
      with (address_text <$> drop (S i) (body_instructions f)).
    rewrite fmap_drop. apply NoDup_not_later; [done|].
    by rewrite list_lookup_fmap, Hlk.
Qed.

Lemma Lab3_dependencies_follow_scan_order_witness :
  ∃ st,
    @Lab3.collect_instructions first_occurrence_order common_reader ∅ push_pop_func = Ok st
    ∧ NoDup (map address_text (body_instructions push_pop_func))
    ∧ body_instructions push_pop_func !! 4
      = Some (instruction_of "0040100c" "POP" [reg_operand "ECX" WRITE])
    ∧ ∃ sources,
        Lab3.dependsOn st !! "40100c" = Some sources
        ∧ ∀ d, d ∈ sources ↔
               (∃ loc, loc ∈ ["[ESP]"; "ESP"]
                       ∧ last_definer loc
                           (map (@Lab3_call first_occurrence_order)
                                (take 4 (body_instructions push_pop_func)))
                         = Some d)
               ∨ (d = START
                  ∧ ∃ loc, loc ∈ ["[ESP]"; "ESP"]
                           ∧ last_definer loc
                               (map (@Lab3_call first_occurrence_order)
                                    (take 4 (body_instructions push_pop_func)))
                             = None).
Proof.
  destruct (@Lab3.collect_instructions first_occurrence_order common_reader ∅ push_pop_func)
    as [st|e] eqn:Hrun; [|by vm_compute in Hrun].
  assert (NoDup (map address_text (body_instructions push_pop_func))) as Hnd
    by (apply (bool_decide_unpack _); vm_compute; exact I).
  exists st. split; [reflexivity|]. split; [exact Hnd|]. split; [reflexivity|].
  exact (@Lab3_dependencies_follow_scan_order first_occurrence_order common_reader ∅
           push_pop_func st 4
           (instruction_of "0040100c" "POP" [reg_operand "ECX" WRITE])
           Hrun Hnd eq_refl).
Defined.

(** ** Functions the scripts come through *)

Lemma mnemonic_rule_returns `{SetOrder} ret_rule instruction mnemonic
    (defs uses : list string) :
  (mnemonic = "LEA" →
   is_Some (search_bracketed (getDefaultOperandRepresentation instruction 1))) →
  ∃ r, mnemonic_rule ret_rule instruction mnemonic defs uses = Ok r.
Proof.
  intros Hlea. unfold mnemonic_rule. split_mnemonic mnemonic; eauto.
  destruct Hlea as [group1 Hsearch].
  { match goal with Ht : one_of mnemonic ["LEA"] = true |- _ =>
      by apply one_of_true, list_elem_of_singleton in Ht end. }
  unfold lea_rule. rewrite Hsearch. cbn [mbind result_bind]. eauto.
Qed.

Lemma record_flow_jumps (instruction : Instruction) (addr_str : string)
    (c : Collected) (a t : string) :
  jumps (record_flow instruction addr_str c) !! a = Some t →
  jumps c !! a = Some t
  ∨ (flowType_isJump instruction = true
     ∧ ∃ flow0 rest, getFlows instruction = flow0 :: rest
                     ∧ t = slice_from 2 flow0).
Proof.
  unfold record_flow.
  destruct (flowType_isJump instruction), (getFlows instruction) as [|flow0 rest];
    cbn [jumps]; [by left| |by left..].
  destruct (decide (addr_str = a)) as [-> |Hne].
  - rewrite lookup_insert_eq. intros [= <-]. right. eauto.
  - rewrite lookup_insert_ne by done. by left.
Qed.

(** What the loops of the two [collect_instructions] have in common. *)
Section Collect_loop.
Context {S : Type} (step : S → Instruction → result S) (proj : S → Collected).
Hypothesis step_flow : ∀ s instruction s',
  step s instruction = Ok s' →
  proj s'
  = record_flow instruction (address_text instruction)
      {| instruction_list := instruction_list (proj s) ++ [address_text instruction];
         jumps := jumps (proj s);
         conditional_jumps := conditional_jumps (proj s);
         ret_instructions := ret_instructions (proj s) |}.

Lemma collect_loop_facts (body : list Instruction) (s0 st : S) :
  for_each step s0 body = Ok st →
  instruction_list (proj st)
  = instruction_list (proj s0) ++ map address_text body
  ∧ ∀ a t, jumps (proj st) !! a = Some t →
      jumps (proj s0) !! a = Some t
      ∨ ∃ instruction flow0 rest,
          instruction ∈ body ∧ flowType_isJump instruction = true
          ∧ getFlows instruction = flow0 :: rest ∧ t = slice_from 2 flow0.
Proof.
  revert s0. induction body as [|x body IH]; intros s0; cbn [for_each map].
  - intros [= <-]. rewrite app_nil_r. split; [done|]. by left.
  - destruct (step s0 x) as [s1|e] eqn:Hstep; cbn [mbind result_bind]; [|done].
    intros [Hlist Hjumps]%IH. apply step_flow in Hstep.
    rewrite Hstep, record_flow_list in Hlist. cbn [instruction_list] in Hlist.
    rewrite <- app_assoc in Hlist. split; [done|].
    intros a t [Ht|(i & flow0 & rest & Hi & ?)]%Hjumps.
    + rewrite Hstep in Ht. apply record_flow_jumps in Ht as [Ht|[? (flow0 & rest & ? & ?)]].
      * by left.
      * right. exists x, flow0, rest. split; [by left|done].
    + right. exists i, flow0, rest. split; [by right|done].
Qed.

End Collect_loop.

Lemma no_jump_outside (f : Func) (c : Collected) :
  jumps_stay_inside f →
  instruction_list c ≡ₚ map address_text (body_instructions f) →
  (∀ a t, jumps c !! a = Some t →
     ∃ instruction flow0 rest,
       instruction ∈ body_instructions f ∧ flowType_isJump instruction = true
       ∧ getFlows instruction = flow0 :: rest ∧ t = slice_from 2 flow0) →
  ∀ i addr target, ¬ jump_outside c i addr target.
Proof.
  intros Hinside Hperm Hjumps i addr target (_ & _ & _ & Hjump & Hout).
  apply Hout.
  destruct (Hjumps addr target Hjump) as (instr & flow0 & rest & Hin & Hj & Hf & ->).
  destruct (Hinside instr flow0 rest Hin Hj Hf) as (tgt & Htgt & ->).
  rewrite Hperm. apply list_elem_of_fmap. by exists tgt.
Qed.

Lemma Lab4_collect_instruction_flow `{SetOrder} (s : Lab4.Collecting)
    (instruction : Instruction) (s' : Lab4.Collecting) :
  Lab4.collect_instruction s instruction = Ok s' →
  Lab4.collected s'
  = record_flow instruction (address_text instruction)
      {| instruction_list := instruction_list (Lab4.collected s)
                             ++ [address_text instruction];
         jumps := jumps (Lab4.collected s);
         conditional_jumps := conditional_jumps (Lab4.collected s);
         ret_instructions := ret_instructions (Lab4.collected s) |}.
Proof.
  unfold Lab4.collect_instruction, address_text.
  generalize (slice_from 2 (getAddress instruction)). intros addr_str.
  destruct (Lab4.analyze_instruction _ _ _) as [[g label]|e];
    cbn [mbind result_bind]; [|done].
  by intros [= <-].
Qed.

Lemma Lab3_collect_instruction_flow `{SetOrder} (s : Lab3.Collecting)
    (instruction : Instruction) (s' : Lab3.Collecting) :
  Lab3.collect_instruction s instruction = Ok s' →
  Lab3.collected s'
  = record_flow instruction (address_text instruction)
      {| instruction_list := instruction_list (Lab3.collected s)
                             ++ [address_text instruction];
         jumps := jumps (Lab3.collected s);
         conditional_jumps := conditional_jumps (Lab3.collected s);
         ret_instructions := ret_instructions (Lab3.collected s) |}.
Proof.
  unfold Lab3.collect_instruction, address_text.
  generalize (slice_from 2 (getAddress instruction)). intros addr_str.
  destruct (Lab3.analyze_instruction _ _ _) as [[g [[[label defs] uses]|]]|e];
    cbn [mbind result_bind]; [|done..].
  unfold DDStorage.processDataDep. by intros [= <-].
Qed.

Lemma Lab4_collect_instruction_returns `{SetOrder} (s : Lab4.Collecting)
    (instruction : Instruction) :
  analysable instruction →
  ∃ s', Lab4.collect_instruction s instruction = Ok s'.
Proof.
  intros [_ Hlea]. unfold Lab4.collect_instruction, Lab4.analyze_instruction.
  generalize (slice_from 2 (getAddress instruction)). intros addr_str.
  destruct (Lab4.operandRegisterHelper instruction [] []) as [defs uses].
  destruct (mnemonic_rule_returns Lab4.ret_rule instruction
              (getMnemonicString instruction) defs uses Hlea) as [[[d u]|] ->];
    cbn [mbind result_bind]; eauto.
Qed.

Lemma Lab3_collect_instruction_returns `{SetOrder} (s : Lab3.Collecting)
    (instruction : Instruction) :
  analysable instruction → getMnemonicString instruction ∈ recognized →
  ∃ s', Lab3.collect_instruction s instruction = Ok s'.
Proof.
  intros [_ Hlea] Hrec. unfold Lab3.collect_instruction, Lab3.analyze_instruction.
  generalize (slice_from 2 (getAddress instruction)). intros addr_str.
  destruct (Lab3.operandRegisterHelper instruction [] []) as [defs uses].
  destruct (mnemonic_rule_returns Lab3.ret_rule instruction
              (getMnemonicString instruction) defs uses Hlea) as [[[d u]|] Hrule].
  - rewrite Hrule. cbn [mbind result_bind].
    unfold DDStorage.processDataDep. eauto.
  - by apply mnemonic_rule_None in Hrule.
Qed.

(** X16.  [Lab4_networkx.py] comes through a function, from
    [collect_instructions] to [generate_DD_dot_graph], whenever the address
    texts are runs of hexadecimal digits, every [LEA] has a bracketed
    source operand and every jump leads to an instruction of the function;
    the mnemonics need not be ones [analyze_instruction] knows, and the
    paths may be any. *)
Theorem Lab4_process_function_returns `{SetOrder} `{IntReader}
    (all_simple_paths : list string → list (string * string) → string →
                        string → option nat → list (list string))
    (globals : gmap string DefUse) (f : Func) :
  Forall analysable (body_instructions f) →
  jumps_stay_inside f →
  ∃ globals1 def_use_graph DD_graph,
    Lab4.process_function all_simple_paths globals f
    = Ok (globals1, (def_use_graph, DD_graph)).
Proof.
  intros Hbody Hinside. unfold Lab4.process_function, Lab4.collect_instructions.
  match goal with |- context [for_each Lab4.collect_instruction ?s0 _] =>
    destruct (for_each_total Lab4.collect_instruction (fun _ => True)
                (body_instructions f) s0) as (st & Hloop & _);
      [done| |set (init := s0) in *]
  end.
  { intros s x Hx _. eapply Forall_forall in Hbody; [|done].
    destruct (Lab4_collect_instruction_returns s x Hbody) as [s' ->]. eauto. }
  rewrite Hloop. cbn [mbind result_bind].
  destruct (collect_loop_facts Lab4.collect_instruction Lab4.collected
              (@Lab4_collect_instruction_flow _) _ _ _ Hloop) as [Hlist Hjumps].
  cbn [Lab4.collected instruction_list jumps app] in Hlist, Hjumps.
  assert (Forall hex_text (instruction_list (Lab4.collected st))) as Hhex.
  { rewrite Hlist. apply Forall_fmap. eapply Forall_impl; [exact Hbody|].
    by intros x [? _]. }
  assert (Forall is_address (instruction_list (Lab4.collected st))) as Haddr.
  { eapply Forall_impl; [exact Hhex|]. apply hex_text_is_address. }
  destruct (sort_keys_total int16 (instruction_list (Lab4.collected st)) [] Haddr)
    as [keyed Hkeyed].
  assert (∃ sorted_list,
            sort_by_address (instruction_list (Lab4.collected st)) = Ok sorted_list)
    as [sorted_list Hsort].
  { unfold sort_by_address. rewrite Hkeyed. cbn [mbind result_bind]. eauto. }
  rewrite Hsort. cbn [mbind result_bind].
  apply sort_by_address_ascending in Hsort as (Hperm & _ & _).
  assert (Forall hex_text sorted_list) as Hsorted by by rewrite Hperm.
  match goal with |- context [create_dot_graph f ?c ?info] =>
    destruct (create_dot_graph_returns f c info) as [edges ->]
  end.
  { apply (no_jump_outside f); cbn [instruction_list jumps]; [done| |].
    - by rewrite Hperm, Hlist.
    - intros a t [Ht|?]%Hjumps; [|done].
      change ((∅ : gmap string string) !! a = Some t) in Ht.
      by rewrite lookup_empty in Ht. }
  cbn [mbind result_bind].
  match goal with |- context [Lab4.generate_DD_dot_graph f sorted_list ?deps] =>
    destruct (generate_DD_dot_graph_text f sorted_list deps Hsorted) as [dd ->]
  end.
  cbn [mbind result_bind]. eauto.
Qed.

Lemma Lab4_process_function_returns_witness :
  Forall analysable (body_instructions push_pop_ret_func)
  ∧ jumps_stay_inside push_pop_ret_func
  ∧ ∃ globals1 def_use_graph DD_graph,
      @Lab4.process_function first_occurrence_order common_reader no_paths ∅ push_pop_ret_func
      = Ok (globals1, (def_use_graph, DD_graph)).
Proof.
  assert (Forall analysable (body_instructions push_pop_ret_func)) as Hbody.
  { repeat (apply List.Forall_cons;
            [split; [eexists; vm_compute; reflexivity|discriminate]|]).
    apply List.Forall_nil. }
  assert (jumps_stay_inside push_pop_ret_func) as Hinside.
  { intros instruction flow0 rest Hin. cbn in Hin.
    repeat (apply elem_of_cons in Hin as [-> |Hin]; [discriminate|]).
    by apply elem_of_nil in Hin. }
  split; [exact Hbody|]. split; [exact Hinside|].
  exact (@Lab4_process_function_returns first_occurrence_order common_reader no_paths ∅
           push_pop_ret_func Hbody Hinside).
Defined.

(** X17.  [Lab3_Plugin.py] comes through a function under the same
    conditions when, in addition, every mnemonic is one
    [analyze_instruction] knows: [collect_instructions] returns, and so do
    [create_dot_graph_DD] and [create_dot_graph] on what it returns. *)
Theorem Lab3_graphs_return `{SetOrder} `{IntReader} (globals : gmap string DefUse) (f : Func) :
  Forall analysable (body_instructions f) →
  Forall (fun instruction => getMnemonicString instruction ∈ recognized)
         (body_instructions f) →
  jumps_stay_inside f →
  ∃ st DD_graph def_use_graph,
    Lab3.collect_instructions globals f = Ok st
    ∧ Lab3.create_dot_graph_DD f (instruction_list (Lab3.collected st))
        (Lab3.dependsOn st) = Ok DD_graph
    ∧ create_dot_graph f (Lab3.collected st) (Lab3.def_use_info st)
      = Ok def_use_graph.
Proof.
  intros Hbody Hrec Hinside.
  assert (∃ st, Lab3.collect_instructions globals f = Ok st
                ∧ ∀ a t, jumps (Lab3.collected st) !! a = Some t →
                    ∃ instruction flow0 rest,
                      instruction ∈ body_instructions f
                      ∧ flowType_isJump instruction = true
                      ∧ getFlows instruction = flow0 :: rest
                      ∧ t = slice_from 2 flow0) as (st & Hrun & Hjumps).
  { unfold Lab3.collect_instructions.
    match goal with |- context [for_each Lab3.collect_instruction ?s0 _] =>
      destruct (for_each_total Lab3.collect_instruction (fun _ => True)
                  (body_instructions f) s0) as (st & Hloop & _);
        [done| |set (init := s0) in *]
    end.
    { intros s x Hx _.
      eapply Forall_forall in Hbody; [|done].
      eapply Forall_forall in Hrec; [|done].
      destruct (Lab3_collect_instruction_returns s x Hbody Hrec) as [s' ->].
      eauto. }
    rewrite Hloop. cbn [mbind result_bind].
    destruct (collect_loop_facts Lab3.collect_instruction Lab3.collected
                (@Lab3_collect_instruction_flow _) _ _ _ Hloop) as [Hlist Hjumps].
    cbn [Lab3.collected instruction_list jumps app] in Hlist, Hjumps.
    assert (Forall is_address (instruction_list (Lab3.collected st))) as Haddr.
    { rewrite Hlist. apply Forall_fmap. eapply Forall_impl; [exact Hbody|].
      intros x [? _]. by apply hex_text_is_address. }
    destruct (sort_keys_total int16 (instruction_list (Lab3.collected st)) [] Haddr)
      as [keyed Hkeyed].
    assert (∃ sorted_list,
              sort_by_address (instruction_list (Lab3.collected st))
              = Ok sorted_list) as [sorted_list ->].
    { unfold sort_by_address. rewrite Hkeyed. cbn [mbind result_bind]. eauto. }
    cbn [mbind result_bind]. eexists. split; [done|].
    cbn [Lab3.collected jumps].
    intros a t [Ht|?]%Hjumps; [|done].
      change ((∅ : gmap string string) !! a = Some t) in Ht.
      by rewrite lookup_empty in Ht. }
  pose proof (collect_instructions_inv globals f st Hrun)
    as ((Hrecord & Hsrc & _) & Hperm & _).
  destruct (create_dot_graph_DD_text f (instruction_list (Lab3.collected st))
              (Lab3.dependsOn st) Hrecord Hsrc) as [edges Hdd].
  destruct (create_dot_graph_returns f (Lab3.collected st) (Lab3.def_use_info st))
    as [edges' Hud].
  { apply (no_jump_outside f); [done|exact Hperm|exact Hjumps]. }
  eauto 10.
Qed.

Lemma Lab3_graphs_return_witness :
  Forall analysable (body_instructions push_pop_ret_func)
  ∧ Forall (fun instruction => getMnemonicString instruction ∈ recognized)
           (body_instructions push_pop_ret_func)
  ∧ jumps_stay_inside push_pop_ret_func
  ∧ ∃ st DD_graph def_use_graph,
      @Lab3.collect_instructions first_occurrence_order common_reader ∅ push_pop_ret_func = Ok st
      ∧ Lab3.create_dot_graph_DD push_pop_ret_func
          (instruction_list (Lab3.collected st)) (Lab3.dependsOn st) = Ok DD_graph
      ∧ create_dot_graph push_pop_ret_func (Lab3.collected st)
          (Lab3.def_use_info st) = Ok def_use_graph.
Proof.
  assert (Forall analysable (body_instructions push_pop_ret_func)) as Hbody.
  { repeat (apply List.Forall_cons;
            [split; [eexists; vm_compute; reflexivity|discriminate]|]).
    apply List.Forall_nil. }
  assert (Forall (fun instruction => getMnemonicString instruction ∈ recognized)
                 (body_instructions push_pop_ret_func)) as Hrec.
  { repeat (apply List.Forall_cons;
            [apply (bool_decide_unpack _); vm_compute; exact I|]).
    apply List.Forall_nil. }
  assert (jumps_stay_inside push_pop_ret_func) as Hinside.
  { intros instruction flow0 rest Hin. cbn in Hin.
    repeat (apply elem_of_cons in Hin as [-> |Hin]; [discriminate|]).
    by apply elem_of_nil in Hin. }
  split; [exact Hbody|]. split; [exact Hrec|]. split; [exact Hinside|].
  exact (@Lab3_graphs_return first_occurrence_order common_reader ∅ push_pop_ret_func
           Hbody Hrec Hinside).
Defined.

(** ** Memory operands in general *)

Lemma Lab3_scan_defs_grow (opType : RefType) (l : list RepObject)
    (st : OperandScan) (x : string) :
  x ∈ scan_defs st → x ∈ scan_defs (scan_with (Lab3.scan_register opType) st l).
Proof.
  revert st. induction l as [|e l IH]; intros st Hx; [done|].
  unfold scan_with. cbn [foldl]. apply IH.
  unfold scan_record, Lab3.scan_register, scan_brackets.
  repeat (match goal with |- context [if ?b then _ else _] => destruct b end;
          cbn [scan_defs]);
    repeat first [done | apply append_new_keeps
                  | apply elem_of_app; left].
Qed.

Lemma Lab3_registers_are_defs (opType : RefType) (l : list RepObject)
    (defs uses : list string) (r : string) :
  isWrite opType = true → RegisterObj r ∈ l →
  r ∈ (Lab3.memory_operand opType l defs uses).1.
Proof.
  intros Hdir Hin. rewrite Lab3_memory_operand_scan. cbn [fst].
  apply list_elem_of_split in Hin as (l1 & l2 & ->).
  unfold scan_with. rewrite foldl_app. cbn [foldl].
  apply Lab3_scan_defs_grow.
  set (st := foldl _ _ l1). clearbody st.
  assert (r ∈ scan_defs (Lab3.scan_register opType
                           (scan_brackets st (RegisterObj r)) (RegisterObj r)))
    as Hr.
  { unfold Lab3.scan_register, scan_brackets. cbn. rewrite Hdir.
    apply append_new_here. }
  revert Hr. generalize (Lab3.scan_register opType
                           (scan_brackets st (RegisterObj r)) (RegisterObj r)).
  intros st' Hr. unfold scan_record.
  repeat (match goal with |- context [if ?b then _ else _] => destruct b end;
          cbn [scan_defs]);
    repeat first [done | apply elem_of_app; left].
Qed.

(** X18.  For a memory operand printed as some text, an opening bracket, a
    bracketed part that names a register, and the closing bracket, both
    scripts enter the bracketed text, brackets included, as the name of the
    memory cell: into [uses] when the operand is read, into [defs] when it
    is written. *)
Theorem memory_cell_key (opType : RefType) (pre inner : list RepObject)
    (defs uses : list string) :
  Forall not_bracket pre → Forall not_bracket inner →
  existsb is_Register inner = true →
  let key := "[" +:+ concat_str inner +:+ "]" in
  let operand := pre ++ [TextObj "["] ++ inner ++ [TextObj "]"] in
  (isRead opType = true →
   key ∈ (Lab3.memory_operand opType operand defs uses).2
   ∧ key ∈ (Lab4.memory_operand opType operand defs uses).2)
  ∧ (isWrite opType = true →
     key ∈ (Lab3.memory_operand opType operand defs uses).1
     ∧ key ∈ (Lab4.memory_operand opType operand defs uses).1).
Proof.
  intros Hpre Hinner Hreg. cbv zeta.
  destruct (Lab3_memory_cell_key opType pre inner defs uses Hpre Hinner Hreg)
    as [Hr3 Hw3].
  destruct (Lab4_memory_cell_key opType pre inner defs uses Hpre Hinner Hreg)
    as [Hr4 Hw4].
  cbv zeta in Hr3, Hw3, Hr4, Hw4.
  split; intros Hdir; split; auto.
Qed.

Lemma memory_cell_key_witness :
  Forall not_bracket [TextObj "dword ptr "]
  ∧ Forall not_bracket [RegisterObj "EAX"; TextObj " + "; OtherObj "0x4"]
  ∧ existsb is_Register [RegisterObj "EAX"; TextObj " + "; OtherObj "0x4"] = true
  ∧ "[EAX + 0x4]" ∈ (Lab3.memory_operand WRITE store_operand [] []).1
  ∧ "[EAX + 0x4]" ∈ (Lab4.memory_operand WRITE store_operand [] []).1.
Proof.
  assert (Forall not_bracket [TextObj "dword ptr "]) as Hpre
    by (repeat constructor).
  assert (Forall not_bracket [RegisterObj "EAX"; TextObj " + "; OtherObj "0x4"])
    as Hinner by (repeat constructor).
  split; [exact Hpre|]. split; [exact Hinner|]. split; [reflexivity|].
  exact (proj2 (memory_cell_key WRITE [TextObj "dword ptr "]
                  [RegisterObj "EAX"; TextObj " + "; OtherObj "0x4"] [] []
                  Hpre Hinner eq_refl) eq_refl).
Defined.

(** X19.  The registers of a memory operand that is written and not read:
    [Lab3_Plugin.py] enters them into [defs] and adds nothing to [uses],
    [Lab4_networkx.py] enters them into [uses].  This holds for every
    operand, with or without brackets. *)
Theorem written_memory_operand_registers (opType : RefType)
    (l : list RepObject) (defs uses : list string) (r : string) :
  isWrite opType = true → isRead opType = false → RegisterObj r ∈ l →
  r ∈ (Lab3.memory_operand opType l defs uses).1
  ∧ (Lab3.memory_operand opType l defs uses).2 = uses
  ∧ r ∈ (Lab4.memory_operand opType l defs uses).2.
Proof.
  intros Hwrite Hread Hin. split; [by apply Lab3_registers_are_defs|].
  split; [by apply Lab3_written_operand_adds_no_use|].
  apply Lab4_registers_are_uses; [|done]. by rewrite Hwrite, orb_true_r.
Qed.

Lemma written_memory_operand_registers_witness :
  isWrite WRITE = true ∧ isRead WRITE = false
  ∧ RegisterObj "EAX" ∈ store_operand
  ∧ "EAX" ∈ (Lab3.memory_operand WRITE store_operand [] []).1
  ∧ (Lab3.memory_operand WRITE store_operand [] []).2 = []
  ∧ "EAX" ∈ (Lab4.memory_operand WRITE store_operand [] []).2.
Proof.
  assert (RegisterObj "EAX" ∈ store_operand) as Hin
    by (unfold store_operand; do 2 right; left).
  split; [reflexivity|]. split; [reflexivity|]. split; [exact Hin|].
  exact (written_memory_operand_registers WRITE store_operand [] [] "EAX"
           eq_refl eq_refl Hin).
Defined.

(** ** The return blocks *)

(** X20.  [find_ret_blocks] returns the blocks of the body that hold a
    [RET], each of them once, whatever the order of the set is. *)
Theorem find_ret_blocks_members `{SetOrder} (f : Func) :
  NoDup (find_ret_blocks f)
  ∧ ∀ b, b ∈ find_ret_blocks f ↔
         b ∈ body_blocks f
         ∧ ∃ instruction, instruction ∈ block_instructions f b
                          ∧ getMnemonicString instruction = "RET".
Proof.
  unfold find_ret_blocks. split; [apply set_to_list_NoDup|].
  intros b. rewrite set_to_list_perm, elem_of_remove_dups, list_elem_of_filter.
  unfold has_ret. rewrite existsb_exists.
  split.
  - intros [(i & Hi & Hm) Hb]. split; [done|]. exists i.
    apply list_elem_of_In in Hi. by apply bool_decide_eq_true_1 in Hm.
  - intros [Hb (i & Hi & Hm)]. split; [|done]. exists i.
    split; [by apply list_elem_of_In|by apply bool_decide_eq_true_2].
Qed.

(** ** The module-level [traverse] of [Lab3_Plugin.py] *)

Section Top_traverse.
Context (f : Func).

Lemma top_traverse_step fuel block (visited : gmap string nat)
    (path : list string) (paths : list (list string)) loop_limit :
  Lab3_top.traverse f (S fuel) block visited path paths loop_limit =
  let count := default 0 (visited !! block) in
  if bool_decide (loop_limit ≤ count) then Some (visited, paths)
  else
    let visited1 := <[block := count + 1]> visited in
    let new_path := block :: path in
    if bool_decide (block = entry_block f)
    then Some (visited1, paths ++ [new_path])
    else
      paths1 ←
        foldl (fun acc source_block =>
                 paths0 ← acc;
                 snd <$> Lab3_top.traverse f fuel source_block visited1
                                           new_path paths0 loop_limit)
              (Some paths) (getSources f block);
      Some (visited1, paths1).
Proof. reflexivity. Qed.

(** Along one branch of the recursion the dictionary counts the blocks of
    the path. *)
Lemma top_traverse_paths fuel block target visited path paths visited' paths'
    loop_limit :
  (∀ b, default 0 (visited !! b) = occurrences b path) →
  (∀ b, occurrences b path ≤ loop_limit) →
  linked f (block :: path) →
  last (block :: path) = Some target →
  Forall (bounded_walk f target loop_limit) paths →
  Lab3_top.traverse f fuel block visited path paths loop_limit
  = Some (visited', paths') →
  Forall (bounded_walk f target loop_limit) paths'.
Proof.
  revert block visited path paths visited' paths'.
  induction fuel as [|fuel IH];
    intros block visited path paths visited' paths' Hcount Hbound Hlinked Hlast
           Hps; [done|].
  rewrite top_traverse_step. cbv zeta.
  case_bool_decide as Hlimit; [by intros [= <- <-]|].
  assert (∀ b, occurrences b (block :: path) ≤ loop_limit) as Hbound1.
  { intros b. rewrite occurrences_cons. case_bool_decide as Hb; [|apply Hbound].
    subst b. rewrite <- Hcount. lia. }
  assert (∀ b, default 0 (<[block := default 0 (visited !! block) + 1]> visited !! b)
               = occurrences b (block :: path)) as Hcount1.
  { intros b. rewrite occurrences_cons. case_bool_decide as Hb.
    - subst b. rewrite lookup_insert_eq. simpl. rewrite Hcount. lia.
    - rewrite lookup_insert_ne by done. by rewrite Hcount. }
  case_bool_decide as Hentry.
  { intros [= <- <-]. apply Forall_app. split; [done|].
    apply Forall_singleton. split; [by rewrite Hentry|]. done. }
  intros Hr. apply bind_Some in Hr as (paths1 & Hfold & [= <- <-]).
  eapply (foldl_option_inv _ (Forall (bounded_walk f target loop_limit)));
    [exact Hps| |exact Hfold].
  intros paths0 src paths2 Hin Hps0 Hstep. cbv beta in Hstep.
  apply fmap_Some in Hstep as ([v p] & Hstep & ->).
  eapply IH; [exact Hcount1|exact Hbound1| | |exact Hps0|exact Hstep].
  - by split.
  - done.
Qed.

Lemma room_insert_le (loop_limit : nat) (visited : gmap string nat)
    (universe : list string) (block : string) :
  room loop_limit (<[block := default 0 (visited !! block) + 1]> visited) universe
  ≤ room loop_limit visited universe.
Proof.
  unfold room. induction universe as [|b bs IH]; [done|]. cbn [map sum_list].
  destruct (decide (block = b)) as [-> |Hne].
  - rewrite lookup_insert_eq. simpl. lia.
  - rewrite lookup_insert_ne by done. lia.
Qed.

Lemma room_insert_lt (loop_limit : nat) (visited : gmap string nat)
    (universe : list string) (block : string) :
  block ∈ universe → default 0 (visited !! block) < loop_limit →
  room loop_limit (<[block := default 0 (visited !! block) + 1]> visited) universe
  < room loop_limit visited universe.
Proof.
  intros Hin Hcount.
  induction universe as [|b bs IH]; [by apply elem_of_nil in Hin|].
  pose proof (room_insert_le loop_limit visited bs block) as Hle.
  unfold room in *. cbn [map sum_list].
  destruct (decide (block = b)) as [<- |Hne].
  - rewrite lookup_insert_eq. simpl. lia.
  - apply elem_of_cons in Hin as [-> |Hin]; [done|].
    rewrite lookup_insert_ne by done. specialize (IH Hin). lia.
Qed.

(** The recursion is no deeper than the room the limit leaves. *)
Lemma top_traverse_total (universe : list string) fuel block visited path paths
    loop_limit :
  closed_under_sources f universe →
  block ∈ universe →
  room loop_limit visited universe < fuel →
  ∃ r, Lab3_top.traverse f fuel block visited path paths loop_limit = Some r.
Proof.
  intros Hclosed. revert block visited path paths.
  induction fuel as [|fuel IH]; intros block visited path paths Hin Hfuel; [lia|].
  rewrite top_traverse_step. cbv zeta.
  case_bool_decide as Hlimit; [eauto|].
  case_bool_decide as Hentry; [eauto|].
  pose proof (room_insert_lt loop_limit visited universe block Hin) as Hless.
  destruct (foldl_option_total
              (fun paths0 source_block =>
                 snd <$> Lab3_top.traverse f fuel source_block
                           (<[block := default 0 (visited !! block) + 1]> visited)
                           (block :: path) paths0 loop_limit)
              (fun _ => True) (getSources f block) paths) as (r & -> & _); [done| |].
  - intros paths0 src Hsrc _.
    destruct (IH src (<[block := default 0 (visited !! block) + 1]> visited)
                (block :: path) paths0) as ([v p] & ->).
    + by apply (Hclosed block).
    + lia.
    + eauto.
  - cbn. eauto.
Qed.

Lemma top_traverse_mono fuel fuel' block visited path paths loop_limit r :
  fuel ≤ fuel' →
  Lab3_top.traverse f fuel block visited path paths loop_limit = Some r →
  Lab3_top.traverse f fuel' block visited path paths loop_limit = Some r.
Proof.
  revert fuel' block visited path paths r.
  induction fuel as [|fuel IH];
    intros fuel' block visited path paths r Hle; [done|].
  destruct fuel' as [|fuel']; [lia|].
  rewrite !top_traverse_step. cbv zeta.
  case_bool_decide; [done|]. case_bool_decide; [done|].
  intros Hr. apply bind_Some in Hr as (paths1 & Hfold & [= <-]).
  apply bind_Some. exists paths1. split; [|done].
  eapply foldl_option_mono; [|exact Hfold].
  intros paths0 src paths2 _ Hstep. cbv beta in *.
  apply fmap_Some in Hstep as ([v p] & Hstep & ->).
  apply fmap_Some. exists (v, p). split; [|done].
  apply (IH fuel'); [lia|done].
Qed.

End Top_traverse.

Lemma room_empty (loop_limit : nat) (universe : list string) :
  room loop_limit ∅ universe = loop_limit * length universe.
Proof.
  unfold room. induction universe as [|b bs IH]; cbn [map sum_list length]; [lia|].
  rewrite IH, lookup_empty. simpl. lia.
Qed.

(** X21.  The module-level [traverse] of [Lab3_Plugin.py], started on a
    block with an empty dictionary, an empty path and any [loop_limit],
    returns when the blocks are finitely many, at a depth of no more than
    the limit times their number plus one.  Every path it saves begins at
    the entry block, ends at the block it was started on, steps from each
    block to one of its successors, and shows no block more than
    [loop_limit] times. *)
Theorem module_traverse_bounded (f : Func) (universe : list string)
    (block : string) (loop_limit : nat) :
  closed_under_sources f universe → block ∈ universe →
  ∃ visited paths,
    (∀ fuel, loop_limit * length universe < fuel →
             Lab3_top.traverse f fuel block ∅ [] [] loop_limit
             = Some (visited, paths))
    ∧ Forall (bounded_walk f block loop_limit) paths.
Proof.
  intros Hclosed Hin.
  destruct (top_traverse_total f universe (S (loop_limit * length universe))
              block ∅ [] [] loop_limit Hclosed Hin) as [[visited paths] Hrun].
  { rewrite room_empty. lia. }
  exists visited, paths. split.
  - intros fuel Hfuel.
    apply (top_traverse_mono f (S (loop_limit * length universe))); [lia|done].
  - eapply top_traverse_paths; [| | | | |exact Hrun]; try done.
    intros b. unfold occurrences. cbn. lia.
Qed.

Lemma module_traverse_bounded_witness :
  closed_under_sources loop_func (body_blocks loop_func)
  ∧ "00401008" ∈ body_blocks loop_func
  ∧ ∃ visited paths,
      (∀ fuel, 2 * length (body_blocks loop_func) < fuel →
               Lab3_top.traverse loop_func fuel "00401008" ∅ [] [] 2
               = Some (visited, paths))
      ∧ Forall (bounded_walk loop_func "00401008" 2) paths.
Proof.
  assert (closed_under_sources loop_func (body_blocks loop_func)) as Hclosed.
  { intros b Hb s. cbn in Hb.
    repeat (apply elem_of_cons in Hb as [-> |Hb]);
      [..|by apply elem_of_nil in Hb]; intros Hs; vm_compute in Hs;
      repeat (apply elem_of_cons in Hs as [-> |Hs]);
      try (by apply elem_of_nil in Hs);
      apply (bool_decide_unpack _); vm_compute; exact I. }
  assert ("00401008" ∈ body_blocks loop_func) as Hin
    by (apply (bool_decide_unpack _); vm_compute; exact I).
  split; [exact Hclosed|]. split; [exact Hin|].
  exact (module_traverse_bounded loop_func (body_blocks loop_func)
           "00401008" 2 Hclosed Hin).
Defined.

(** ** The rendering of the dependency graph *)

Lemma lower_hex_digits (s : string) (acc : N) :
  lower_hex s = true → is_Some (int16_digits acc s).
Proof.
  revert acc. induction s as [|c s IH]; intros acc; cbn [lower_hex int16_digits];
    [by eexists|].
  intros [Hc Hs]%andb_true_iff. unfold hex_digit.
  unfold is_lower_hex in Hc. apply orb_true_iff in Hc as [-> | Hc]; [by apply IH|].
  destruct (is_digit c); [by apply IH|]. rewrite Hc. by apply IH.
Qed.

Lemma bare_hex_text (text : string) : bare_hex text → hex_text text.
Proof.
  intros (c & rest & -> & _ & Hlow). unfold hex_text, hex_value.
  by apply lower_hex_digits.
Qed.

Lemma bare_hex_not_START (text : string) : bare_hex text → text ≠ START.
Proof. intros (c & rest & _ & _ & Hlow) ->. by vm_compute in Hlow. Qed.

Lemma plain_address_text (instruction : Instruction) :
  plain_address (getAddress instruction) →
  getAddress instruction = "00" +:+ address_text instruction
  ∧ bare_hex (address_text instruction).
Proof.
  intros (text & Haddr & Hbare). unfold address_text. rewrite Haddr.
  by destruct Hbare as (c & rest & -> & ? & ?); split; [|exists c, rest].
Qed.

Lemma lstrip0_plain (text : string) : bare_hex text → lstrip0 ("00" +:+ text) = text.
Proof.
  intros (c & rest & -> & Hc & _).
  change ("00" +:+ String c rest) with (String "0" (String "0" (String c rest))).
  cbn [lstrip0]. change (Ascii.eqb "0" "0") with true. cbv iota.
  by destruct (Ascii.eqb_spec c "0").
Qed.

Lemma address_le_plain `{IntReader} (a b : string) :
  bare_hex a → bare_hex b → address_le a b → address_le ("00" +:+ a) ("00" +:+ b).
Proof.
  intros [n Hn]%bare_hex_text [m Hm]%bare_hex_text (x & y & Hx & Hy & Hle).
  rewrite (int16_hex a n Hn) in Hx. rewrite (int16_hex b m Hm) in Hy.
  exists x, y. split; [|split; [|done]].
  - rewrite <- Hx. by apply int16_hex, hex_value_prefixed.
  - rewrite <- Hy. by apply int16_hex, hex_value_prefixed.
Qed.

Lemma body_instruction_block (f : Func) (instruction : Instruction) :
  instruction ∈ body_instructions f →
  ∃ block, instruction ∈ block_instructions f block.
Proof.
  unfold body_instructions. intros (l & Hl & Hin)%elem_of_concat.
  apply list_elem_of_fmap in Hl as (block & -> & _). by exists block.
Qed.

(** The list of a sort of the address texts is the list of the instructions
    in the order of their addresses. *)
Lemma sorted_by_address `{IntReader} (body : list Instruction) (l : list string) :
  Forall (fun i => plain_address (getAddress i)) body →
  l ≡ₚ map address_text body → ascending l →
  ∃ instructions, instructions ≡ₚ body ∧ l = map address_text instructions
                  ∧ by_address instructions.
Proof.
  intros Hplain Hperm Hasc.
  apply Permutation_map_inv in Hperm as (instructions & -> & Hperm).
  exists instructions. split; [done|]. split; [done|].
  rewrite Hperm in Hplain. clear Hperm body.
  unfold by_address, ascending in *.
  induction instructions as [|i instructions IH]; [constructor|].
  cbn [map] in Hasc. apply StronglySorted_inv in Hasc as [Hrest Hhead].
  apply Forall_cons in Hplain as [Hi Hplain].
  constructor; [by apply IH|].
  apply Forall_forall. intros j Hj.
  apply plain_address_text in Hi as [-> Hi].
  eapply Forall_forall in Hplain; [|done].
  apply plain_address_text in Hplain as [-> Hj'].
  apply address_le_plain; [done..|].
  eapply Forall_forall in Hhead; [done|]. apply list_elem_of_fmap. by exists j.
Qed.

Lemma path_item_addresses (instructions : list Instruction) (a : string) :
  a ∈ omap item_address (StartItem :: map InstrItem instructions) →
  ∃ instruction, instruction ∈ instructions ∧ a = getAddress instruction.
Proof.
  intros (item & Hitem & Ha)%list_elem_of_omap.
  apply elem_of_cons in Hitem as [-> |Hitem]; [done|].
  apply list_elem_of_fmap in Hitem as (instruction & -> & Hin).
  exists instruction. split; [done|]. by injection Ha.
Qed.

(** The addresses on the paths of [reverse_traverse_cfg] are addresses of
    instructions of blocks. *)
Lemma path_addresses_plain
    (all_simple_paths : list string → list (string * string) → string →
                        string → option nat → list (list string))
    (f : Func) (ret_blocks : list string) (a : string) :
  plain_function f →
  a ∈ path_addresses (Lab4.reverse_traverse_cfg all_simple_paths f ret_blocks) →
  plain_address a.
Proof.
  intros Hplain. unfold path_addresses, Lab4.reverse_traverse_cfg,
    Lab4.prepend_START_to_each_path.
  intros (l & Hl & Ha)%elem_of_concat.
  apply list_elem_of_fmap in Hl as (items & -> & Hitems).
  apply list_elem_of_fmap in Hitems as (instructions & -> & Hinstructions).
  apply list_elem_of_fmap in Hinstructions as (path & -> & _).
  apply path_item_addresses in Ha as (instruction & Hin & ->).
  unfold path_to_instructions in Hin.
  apply elem_of_concat in Hin as (l & Hl & Hin).
  apply list_elem_of_fmap in Hl as (block & -> & _).
  by eapply Hplain.
Qed.

Lemma func_of_block_instructions (name : string)
    (blocks : list (string * (list Instruction * list string)))
    (block : string) (instruction : Instruction) :
  instruction ∈ block_instructions (func_of name blocks) block →
  ∃ entry, entry ∈ blocks ∧ instruction ∈ entry.2.1.
Proof.
  unfold func_of, lookup_block. cbn [block_instructions].
  destruct (list_find _ blocks) as [[k entry]|] eqn:Hfind;
    [|by intros ?%elem_of_nil].
  apply list_find_Some in Hfind as (Hlk & _ & _). cbn.
  intros Hin. exists entry. split; [by eapply list_elem_of_lookup_2|done].
Qed.

(** C7, amended.  For a function whose instruction addresses Ghidra prints
    as [00] and lowercase hexadecimal digits that do not begin with [0]:
    in the dependency graph of either script the nodes [n1], [n2], ... are
    those of the instructions in ascending order of their addresses, the
    label of a node shows the sources of its dependency record in the order
    of the record (they are not sorted), and every address, of a node or of
    a source, is shown as [0x] and its lowercase hexadecimal digits without
    leading zeros; [START] is shown as it is. *)
Theorem dependency_graph_rendering `{SetOrder} `{IntReader} (f : Func) :
  plain_function f →
  (∀ globals st,
     Lab3.collect_instructions globals f = Ok st →
     let dependsOn := Lab3.dependsOn st in
     ∃ instructions edges,
       instructions ≡ₚ body_instructions f
       ∧ by_address instructions
       ∧ instruction_list (Lab3.collected st) = map address_text instructions
       ∧ Lab3.create_dot_graph_DD f (map address_text instructions) dependsOn
         = Ok (Lab3_graph_text f (map address_text instructions) dependsOn edges)
       ∧ ∀ instruction, instruction ∈ body_instructions f →
           ∃ text sources,
             getAddress instruction = "00" +:+ text ∧ bare_hex text
             ∧ dependsOn !! text = Some sources
             ∧ Lab3.dd_label dependsOn text
               = "0x" +:+ text +:+ "; DD: "
                 +:+ join (map Lab3.render_source sources)
             ∧ Forall (shown EmptyString Lab3.render_source) sources)
  ∧ (∀ all_simple_paths globals globals1 def_use_graph DD_graph,
       Lab4.process_function all_simple_paths globals f
       = Ok (globals1, (def_use_graph, DD_graph)) →
       let all_dependencies :=
         Lab4.compute_data_dependencies
           (Lab4.reverse_traverse_cfg all_simple_paths f (find_ret_blocks f))
           globals1 in
       ∃ instructions edges,
         instructions ≡ₚ body_instructions f
         ∧ by_address instructions
         ∧ DD_graph = Lab4_graph_text f (map address_text instructions)
                                      all_dependencies edges
         ∧ ∀ instruction, instruction ∈ body_instructions f →
             ∃ text,
               getAddress instruction = "00" +:+ text ∧ bare_hex text
               ∧ match all_dependencies !! getAddress instruction with
                 | Some deps =>
                     Lab4.dd_label all_dependencies ("00" +:+ text)
                     = "0x" +:+ text +:+ "; DD: "
                       +:+ join (map Lab4.render_source (DD deps))
                     ∧ Forall (shown "00" Lab4.render_source) (DD deps)
                 | None =>
                     Lab4.dd_label all_dependencies ("00" +:+ text)
                     = "0x" +:+ text +:+ "; DD:"
                 end).
Proof.
  intros Hplain.
  assert (Forall (fun i => plain_address (getAddress i)) (body_instructions f))
    as Hbody.
  { apply Forall_forall. intros i [block Hi]%body_instruction_block.
    by eapply Hplain. }
  split.
  - intros globals st Hrun. cbv zeta.
    apply collect_instructions_inv in Hrun
      as ((Hrec & Hsrc & _) & Hperm & Hasc & _).
    destruct (sorted_by_address (body_instructions f)
                (instruction_list (Lab3.collected st)) Hbody Hperm Hasc)
      as (instructions & Hperm' & Hlist & Hsorted).
    rewrite Hlist in Hrec, Hsrc.
    destruct (create_dot_graph_DD_text f (map address_text instructions)
                (Lab3.dependsOn st) Hrec Hsrc) as [edges Hgraph].
    exists instructions, edges.
    split; [done|]. split; [done|]. split; [done|]. split; [done|].
    assert (∀ i, i ∈ body_instructions f →
                 address_text i ∈ map address_text instructions) as Hnode.
    { intros i Hi. apply list_elem_of_fmap. exists i. split; [done|].
      by rewrite Hperm'. }
    assert (∀ text, text ∈ map address_text instructions → bare_hex text)
      as Hbare.
    { intros text (i & -> & Hi)%list_elem_of_fmap. rewrite Hperm' in Hi.
      eapply Forall_forall in Hbody; [|done].
      by apply plain_address_text in Hbody as [_ ?]. }
    intros i Hi.
    eapply Forall_forall in Hbody as Hi'; [|done].
    apply plain_address_text in Hi' as [Haddr Htext].
    destruct (Hrec (address_text i) (Hnode i Hi)) as [sources Hsources].
    exists (address_text i), sources.
    split; [done|]. split; [done|]. split; [done|]. split.
    + unfold Lab3.dd_label. by rewrite Hsources.
    + apply Forall_forall. intros s Hs.
      destruct (Hsrc _ _ s Hsources Hs) as [-> |Hin]; [by left|].
      right. exists s. split; [done|]. split; [by apply Hbare|].
      unfold Lab3.render_source. rewrite bool_decide_eq_true_2; [done|].
      by apply bare_hex_not_START, Hbare.
  - intros all_simple_paths globals globals1 def_use_graph DD_graph.
    unfold Lab4.process_function.
    destruct (Lab4.collect_instructions globals f) as [[g [l graph]]|e] eqn:Hrun;
      cbn [mbind result_bind]; [|done].
    destruct (Lab4.generate_DD_dot_graph f l _) as [dd|e] eqn:Hgraph;
      cbn [mbind result_bind]; [|done].
    intros [= <- <- <-]. cbv zeta.
    apply Lab4_collect_instructions_list in Hrun as (Hperm & Hasc & _).
    destruct (sorted_by_address (body_instructions f) l Hbody Hperm Hasc)
      as (instructions & Hperm' & -> & Hsorted).
    match type of Hgraph with
    | Lab4.generate_DD_dot_graph f ?l0 ?deps = _ =>
        destruct (generate_DD_dot_graph_text f l0 deps) as [edges Htext]
    end.
    { apply Forall_fmap, Forall_forall. intros i Hi. rewrite Hperm' in Hi.
      eapply Forall_forall in Hbody; [|done].
      apply plain_address_text in Hbody as [_ ?]. by apply bare_hex_text. }
    rewrite Htext in Hgraph. injection Hgraph as <-.
    exists instructions, edges.
    split; [done|]. split; [done|]. split; [done|].
    intros i Hi.
    eapply Forall_forall in Hbody as Hi'; [|done].
    apply plain_address_text in Hi' as [Haddr Htext'].
    exists (address_text i). split; [done|]. split; [done|].
    rewrite <- Haddr. unfold Lab4.dd_label.
    destruct (Lab4.compute_data_dependencies _ g !! getAddress i)
      as [deps|] eqn:Hdeps.
    + rewrite Haddr at 1. rewrite lstrip0_plain by done. split; [done|].
      apply Forall_forall. intros d Hd.
      destruct (compute_records_justified _ g _ _ Hdeps) as (_ & _ & Hdd).
      destruct (Hdd d Hd) as [-> |[Hpath _]]; [by left|].
      apply path_addresses_plain in Hpath as (text & -> & Hbare); [|done].
      right. exists text. split; [done|]. split; [done|].
      unfold Lab4.render_source. rewrite bool_decide_eq_true_2 by done.
      by rewrite lstrip0_plain.
    + rewrite Haddr at 1. by rewrite lstrip0_plain.
Qed.

Lemma push_pop_ret_plain : plain_function push_pop_ret_func.
Proof.
  intros block i (entry & Hentry & Hi)%func_of_block_instructions.
  apply list_elem_of_singleton in Hentry as ->. cbn in Hi.
  repeat (apply elem_of_cons in Hi as [-> |Hi];
          [eexists; split; [reflexivity|];
           eexists _, _; split; [reflexivity|]; split; [discriminate|reflexivity]|]).
  by apply elem_of_nil in Hi.
Qed.

(** C7, amended, at the function [PUSH EAX; POP ECX; RET] at 00401000. *)
Lemma dependency_graph_rendering_witness :
  plain_function push_pop_ret_func
  ∧ ∃ st instructions edges,
      @Lab3.collect_instructions first_occurrence_order common_reader ∅
        push_pop_ret_func = Ok st
      ∧ instructions ≡ₚ body_instructions push_pop_ret_func
      ∧ @by_address common_reader instructions
      ∧ instruction_list (Lab3.collected st) = map address_text instructions
      ∧ Lab3.create_dot_graph_DD push_pop_ret_func
          (map address_text instructions) (Lab3.dependsOn st)
        = Ok (Lab3_graph_text push_pop_ret_func (map address_text instructions)
                (Lab3.dependsOn st) edges).
Proof.
  split; [exact push_pop_ret_plain|].
  destruct (@Lab3.collect_instructions first_occurrence_order common_reader ∅
              push_pop_ret_func) as [st|e] eqn:Hrun; [|by vm_compute in Hrun].
  destruct (proj1 (@dependency_graph_rendering first_occurrence_order
                     common_reader push_pop_ret_func push_pop_ret_plain)
              ∅ st Hrun)
    as (instructions & edges & Hperm & Hsorted & Hlist & Hgraph & _).
  exists st, instructions, edges.
  exact (conj eq_refl (conj Hperm (conj Hsorted (conj Hlist Hgraph)))).
Defined.

(** C7, the claim as stated, fails in each of its three parts.  On
    [PUSH EAX; POP ECX; RET] the record of the [RET] is [401001, 401000], in
    the order of its uses [ESP], [[ESP]], and the label shows it in that
    order, which is not the sorted one.  On [PUSH EAX] at 00ffffff and [RET]
    at 01000000 the node [n1] is that of the [RET], whose address is the
    greater one: both scripts sort the texts without their first two
    characters.  On [PUSH EAX; RET] at 00001000 the label of the first
    node of [Lab3_Plugin.py] shows the address as [0x001000]. *)
Lemma dependency_graph_claim_refuted :
  (¬ ∀ st, @Lab3.collect_instructions first_occurrence_order common_reader ∅
             push_pop_ret_func = Ok st →
           sources_rendered_sorted (Lab3.dependsOn st))
  ∧ (map address_text (body_instructions far_func) = ["ffffff"; "000000"]
     ∧ (fun st => instruction_list (Lab3.collected st))
         <$> option_of_result
               (@Lab3.collect_instructions first_occurrence_order common_reader
                  ∅ far_func)
       = Some ["000000"; "ffffff"]
     ∧ (fun r => r.2.1)
         <$> option_of_result
               (@Lab4.collect_instructions first_occurrence_order common_reader
                  ∅ far_func)
       = Some ["000000"; "ffffff"]
     ∧ ¬ @address_le common_reader "01000000" "00ffffff")
  ∧ (map address_text (body_instructions low_func) = ["001000"; "001001"]
     ∧ (fun st => Lab3.dd_label (Lab3.dependsOn st) "001000")
         <$> option_of_result
               (@Lab3.collect_instructions first_occurrence_order common_reader
                  ∅ low_func)
       = Some "0x001000; DD: START").
Proof.
  split; [|split].
  - intros Hsorted.
    pose proof (@push_pop_ret_sources first_occurrence_order common_reader)
      as Hrun.
    unfold Lab3_sources in Hrun.
    destruct (Lab3.collect_instructions ∅ push_pop_ret_func) as [st|e]; [|done].
    cbn in Hrun. injection Hrun as Hlk.
    specialize (Hsorted st eq_refl "401002" _ Hlk).
    unfold Lab3.dd_label in Hsorted. rewrite Hlk in Hsorted.
    vm_compute in Hsorted. discriminate.
  - split; [reflexivity|]. split; [vm_compute; reflexivity|].
    split; [vm_compute; reflexivity|].
    intros (x & y & Hx & Hy & Hle). vm_compute in Hx, Hy.
    injection Hx as <-. injection Hy as <-. lia.
  - split; [reflexivity|]. vm_compute. reflexivity.
Qed.

(** ** Runs under two iteration orders of sets *)

Lemma for_each_same_outcome {A S1 S2} (R : S1 → S2 → Prop)
    (body1 : S1 → A → result S1) (body2 : S2 → A → result S2) (l : list A)
    (s1 : S1) (s2 : S2) :
  R s1 s2 →
  (∀ s1 s2 x, R s1 s2 → same_outcome R (body1 s1 x) (body2 s2 x)) →
  same_outcome R (for_each body1 s1 l) (for_each body2 s2 l).
Proof.
  intros Hs Hstep. revert s1 s2 Hs.
  induction l as [|x l IH]; intros s1 s2 Hs; cbn [for_each]; [done|].
  pose proof (Hstep s1 s2 x Hs) as Hx.
  destruct (body1 s1 x) as [a|e1], (body2 s2 x) as [b|e2];
    cbn [mbind result_bind same_outcome] in *; try done.
  by apply IH.
Qed.

Lemma Lab3_analyze_orders (O1 O2 : SetOrder) (globals1 globals2 : gmap string DefUse)
    (instruction : Instruction) (addr_str : string) :
  same_outcome (fun r1 r2 =>
                  match r1.2, r2.2 with
                  | Some (label1, defs1, _), Some (label2, defs2, _) =>
                      label1 = label2 ∧ defs1 = defs2
                  | None, None => True
                  | _, _ => False
                  end)
    (@Lab3.analyze_instruction O1 globals1 instruction addr_str)
    (@Lab3.analyze_instruction O2 globals2 instruction addr_str).
Proof.
  unfold Lab3.analyze_instruction.
  destruct (Lab3.operandRegisterHelper instruction [] []) as [defs uses].
  pose proof (mnemonic_rule_orders O1 O2 Lab3.ret_rule instruction
                (getMnemonicString instruction) defs uses) as Hrel.
  destruct (@mnemonic_rule O1 _ _ _ _ _) as [[[d1 u1]|]|e1],
           (@mnemonic_rule O2 _ _ _ _ _) as [[[d2 u2]|]|e2];
    cbn [mbind result_bind same_outcome same_up_to_order snd] in *; try done.
  destruct Hrel as [-> Hu]. split; [|done].
  unfold def_use_label. by rewrite (sorted_perm u1 u2).
Qed.

Lemma Lab4_analyze_orders (O1 O2 : SetOrder) (globals1 globals2 : gmap string DefUse)
    (instruction : Instruction) (addr_str : string) :
  same_outcome (fun r1 r2 => r1.2 = r2.2)
    (@Lab4.analyze_instruction O1 globals1 instruction addr_str)
    (@Lab4.analyze_instruction O2 globals2 instruction addr_str).
Proof.
  unfold Lab4.analyze_instruction.
  destruct (Lab4.operandRegisterHelper instruction [] []) as [defs uses].
  pose proof (mnemonic_rule_orders O1 O2 Lab4.ret_rule instruction
                (getMnemonicString instruction) defs uses) as Hrel.
  destruct (@mnemonic_rule O1 _ _ _ _ _) as [[[d1 u1]|]|e1],
           (@mnemonic_rule O2 _ _ _ _ _) as [[[d2 u2]|]|e2];
    cbn [mbind result_bind same_outcome same_up_to_order snd] in *; try done.
  destruct Hrel as [-> Hu]. unfold def_use_label. by rewrite (sorted_perm u1 u2).
Qed.

(** What the loops of [collect_instructions] gather for the def/use graph
    is the same under both orders. *)
Lemma Lab3_collect_loop_orders (O1 O2 : SetOrder) (body : list Instruction)
    (s1 s2 : Lab3.Collecting) :
  Lab3.collected s1 = Lab3.collected s2 →
  Lab3.def_use_info s1 = Lab3.def_use_info s2 →
  same_outcome (fun a b => Lab3.collected a = Lab3.collected b
                           ∧ Lab3.def_use_info a = Lab3.def_use_info b)
    (for_each (@Lab3.collect_instruction O1) s1 body)
    (for_each (@Lab3.collect_instruction O2) s2 body).
Proof.
  intros Hc Hd. apply for_each_same_outcome; [done|].
  clear s1 s2 Hc Hd. intros s1 s2 i [Hc Hd].
  unfold Lab3.collect_instruction.
  generalize (slice_from 2 (getAddress i)). intros addr_str.
  pose proof (Lab3_analyze_orders O1 O2 (Lab3.instruction_def_use s1)
                (Lab3.instruction_def_use s2) i addr_str) as Hrel.
  destruct (@Lab3.analyze_instruction O1 _ _ _) as [[g1 [[[l1 d1] u1]|]]|e1],
           (@Lab3.analyze_instruction O2 _ _ _) as [[g2 [[[l2 d2] u2]|]]|e2];
    cbn [mbind result_bind same_outcome snd] in *; try done.
  destruct Hrel as [-> ->]. unfold DDStorage.processDataDep.
  cbn [same_outcome Lab3.collected Lab3.def_use_info]. by rewrite Hc, Hd.
Qed.

Lemma Lab4_collect_loop_orders (O1 O2 : SetOrder) (body : list Instruction)
    (s1 s2 : Lab4.Collecting) :
  Lab4.collected s1 = Lab4.collected s2 →
  Lab4.def_use_info s1 = Lab4.def_use_info s2 →
  same_outcome (fun a b => Lab4.collected a = Lab4.collected b
                           ∧ Lab4.def_use_info a = Lab4.def_use_info b)
    (for_each (@Lab4.collect_instruction O1) s1 body)
    (for_each (@Lab4.collect_instruction O2) s2 body).
Proof.
  intros Hc Hd. apply for_each_same_outcome; [done|].
  clear s1 s2 Hc Hd. intros s1 s2 i [Hc Hd].
  unfold Lab4.collect_instruction.
  generalize (slice_from 2 (getAddress i)). intros addr_str.
  pose proof (Lab4_analyze_orders O1 O2 (Lab4.instruction_def_use s1)
                (Lab4.instruction_def_use s2) i addr_str) as Hrel.
  destruct (@Lab4.analyze_instruction O1 _ _ _) as [[g1 l1]|e1],
           (@Lab4.analyze_instruction O2 _ _ _) as [[g2 l2]|e2];
    cbn [mbind result_bind same_outcome snd] in *; try done.
  subst l2. cbn [Lab4.collected Lab4.def_use_info]. by rewrite Hc, Hd.
Qed.


